(** * GT.M POSIX extension: a shallow embedding of [posix.m] and [posix.c]

    The M routine [posix.m] is embedded in module [PosixM]: M strings are
    [string], M integers are [Z] ([#] is [Z.modulo], [\] is [Z.quot]).
    The C shim [posix.c] is embedded in module [PosixC]: caller buffers are
    byte lists written by index, the process state ([errno], the table of
    open directory streams) is threaded explicitly, and every libc
    primitive is a query to a native layer that is a parameter. *)

From Stdlib Require Import ZArith Lia String Ascii List Bool DecimalString.
From stdpp Require Import base list.
Import ListNotations.

Local Open Scope string_scope.
Local Open Scope Z_scope.

(* ===================================================================== *)
(** ** posix.m *)
(* ===================================================================== *)

Module PosixM.

(** *** The M intrinsics used by the routine *)

(** [$l(s)]. *)
Definition m_length (s : string) : nat := String.length s.

(** [$e(s,i)]: the [i]-th character (counted from 1), empty out of range. *)
Definition m_extract (s : string) (i : nat) : string :=
  match i with
  | O => EmptyString
  | S j => substring j 1 s
  end.

(** Numeric interpretation of a string of at most one character, as the
    arithmetic operators apply it to [$e(octal,i)]: a decimal digit is its
    value, anything else is 0. *)
Definition m_num (s : string) : Z :=
  match s with
  | String c EmptyString =>
      let k := Z.of_N (N_of_ascii c) in
      if (48 <=? k) && (k <=? 57) then k - 48 else 0
  | _ => 0
  end.

(** The string of an M integer (canonical decimal form). *)
Definition m_str (n : Z) : string := NilZero.string_of_int (Z.to_int n).

Definition spaces (k : nat) : string :=
  string_of_list_ascii (repeat " "%char k).

(** [s $e(s,i)=v]: replaces the [i]-th character of [s] by [v]; a position
    past the end pads [s] with spaces first.  An undefined local counts as
    the empty string. *)
Definition m_set_extract (s : string) (i : nat) (v : string) : string :=
  if (String.length s <? i)%nat
  then s ++ spaces (i - 1 - String.length s) ++ v
  else substring 0 (i - 1) s ++ v ++ substring i (String.length s - i) s.

(** [$zch(n)]: the byte of code [n]. *)
Definition zch (n : Z) : string := String (ascii_of_N (Z.to_N n)) EmptyString.

Fixpoint bytes_and (a b : string) : string :=
  match a, b with
  | String x a', String y b' =>
      String (ascii_of_N (N.land (N_of_ascii x) (N_of_ascii y))) (bytes_and a' b')
  | _, _ => EmptyString
  end.

(** [$zbitand(a,b)] on GT.M bit strings (a header byte, then the bits, eight
    to a byte): the bitwise AND, of the length of the shorter argument. *)
Definition zbitand (a b : string) : string :=
  match a, b with
  | String ha ta, String hb tb =>
      String (if (String.length ta <=? String.length tb)%nat then ha else hb)
             (bytes_and ta tb)
  | _, _ => EmptyString
  end.

(** *** File permissions *)

(** [mode(octal)]:
<<
  s n=0,l=$l(octal) f i=l:-1:1 s n=n+($e(octal,i)*(8**(l-i)))
  q n
>>
    M numbers carry 18 significant digits; [Z] is exact.  The two agree
    while every value stays below [10 ^ 18], which holds for strings of
    at most 18 characters. *)
Fixpoint mode_loop (octal : string) (l i : nat) (n : Z) : Z :=
  match i with
  | O => n
  | S i' =>
      mode_loop octal l i'
        (n + m_num (m_extract octal i) * 8 ^ Z.of_nat (l - i))
  end.

Definition mode (octal : string) : Z :=
  let l := m_length octal in mode_loop octal l l 0.

(** [octal(mode)]:
<<
  f i=1:1:4 s $e(s,5-i)=mode#8,mode=mode\8
  q s
>>
    [k] counts the iterations left, [i] is the loop index.  [#] and [\]
    are exact in M for a [mode] below [10 ^ 18]. *)
Fixpoint octal_loop (k i : nat) (s : string) (mode : Z) : string :=
  match k with
  | O => s
  | S k' =>
      octal_loop k' (i + 1) (m_set_extract s (5 - i) (m_str (mode mod 8)))
        (Z.quot mode 8)
  end.

Definition octal (mode : Z) : string := octal_loop 4 1 EmptyString mode.

(** A string of one to four octal digits, and the same string with zeros
    put in front up to four characters. *)
Definition octal_digit (c : ascii) : bool :=
  let k := N_of_ascii c in ((48 <=? k) && (k <=? 55))%N.

Definition valid_octal (s : string) : bool :=
  (1 <=? m_length s)%nat && (m_length s <=? 4)%nat &&
  forallb octal_digit (list_ascii_of_string s).

Definition zero_pad (s : string) : string :=
  string_of_list_ascii (repeat "0"%char (4 - m_length s)) ++ s.

(** *** Bit strings and the file-type tests *)

(** [zbit(n,l)]:
<<
  f i=l:-1:1 s $ze(b,i)=$zch(n#256),n=n\256
  q $zch(0)_b
>>
    For [l = 0] the routine reads the local [b] before any assignment, an
    error in M; the definition stands for the routine when [l >= 1] and
    [n] is below [10 ^ 18]. *)
Fixpoint zbit_loop (i : nat) (b : string) (n : Z) : string :=
  match i with
  | O => b
  | S i' => zbit_loop i' (m_set_extract b i (zch (n mod 256))) (Z.quot n 256)
  end.

Definition zbit (n : Z) (l : nat) : string :=
  zch 0 ++ zbit_loop l EmptyString n.

(** [isflag(mode,flag)]:
<<
  s s=$$zbit($$mode(.flag),4)
  q $zbitand($$zbit(.mode,4),s)=s
>>
    [flag] is an M number; [mode(.flag)] reads its decimal digits. *)
Definition isflag (m flag : Z) : bool :=
  let s := zbit (mode (m_str flag)) 4 in
  if string_dec (zbitand (zbit m 4) s) s then true else false.

(** The type codes of [st_mode], as the comments of the routine give them
    in octal. *)
Definition S_IFREG : Z := 32768.   (* 0100000 *)
Definition S_IFDIR : Z := 16384.   (* 0040000 *)
Definition S_IFCHR : Z := 8192.    (* 0020000 *)
Definition S_IFBLK : Z := 24576.   (* 0060000 *)
Definition S_IFIFO : Z := 4096.    (* 0010000 *)
Definition S_IFLNK : Z := 40960.   (* 0120000 *)
Definition S_IFSOCK : Z := 49152.  (* 0140000 *)

(** The mask of the type field, against which the POSIX macros [S_ISREG],
    [S_ISDIR], ... compare. *)
Definition S_IFMT : Z := 61440.    (* 0170000 *)

(** The literals [0100000], [0040000], ... of the routine are M numeric
    literals: they denote the numbers 100000, 40000, ... *)
Definition isreg (m : Z) : bool := isflag m 100000.
Definition isdir (m : Z) : bool := isflag m 40000.
Definition ischr (m : Z) : bool := isflag m 20000.
Definition isblk (m : Z) : bool := isflag m 60000.
Definition isfifo (m : Z) : bool := isflag m 10000.
Definition islnk (m : Z) : bool := isflag m 120000.
Definition issock (m : Z) : bool := isflag m 140000.

End PosixM.

(* ===================================================================== *)
(** ** posix.c *)
(* ===================================================================== *)

Module PosixC.

(** Modelled from the spec: the headers [<errno.h>], [<time.h>] and
    [<syslog.h>] are not part of the sources; the error names, clock
    identifiers and syslog flags take their Linux values (the source itself
    documents ENODATA as 61). *)
Definition ENOENT : Z := 2.
Definition EINVAL : Z := 22.
Definition EMFILE : Z := 24.
Definition ERANGE : Z := 34.
Definition ENODATA : Z := 61.

Definition CLOCK_REALTIME : Z := 0.
Definition CLOCK_MONOTONIC : Z := 1.
Definition CLOCK_PROCESS_CPUTIME_ID : Z := 2.
Definition CLOCK_THREAD_CPUTIME_ID : Z := 3.
Definition CLOCK_MONOTONIC_RAW : Z := 4.

Definition LOG_PID : Z := 1.
Definition LOG_CONS : Z := 2.
Definition LOG_NDELAY : Z := 8.
Definition LOG_NOWAIT : Z := 16.

Definition LOG_KERN : Z := Z.shiftl 0 3.
Definition LOG_USER : Z := Z.shiftl 1 3.
Definition LOG_MAIL : Z := Z.shiftl 2 3.
Definition LOG_DAEMON : Z := Z.shiftl 3 3.
Definition LOG_AUTH : Z := Z.shiftl 4 3.
Definition LOG_SYSLOG : Z := Z.shiftl 5 3.
Definition LOG_LPR : Z := Z.shiftl 6 3.
Definition LOG_NEWS : Z := Z.shiftl 7 3.
Definition LOG_UUCP : Z := Z.shiftl 8 3.
Definition LOG_CRON : Z := Z.shiftl 9 3.
Definition LOG_AUTHPRIV : Z := Z.shiftl 10 3.
Definition LOG_FTP : Z := Z.shiftl 11 3.
Definition LOG_LOCAL0 : Z := Z.shiftl 16 3.
Definition LOG_LOCAL1 : Z := Z.shiftl 17 3.
Definition LOG_LOCAL2 : Z := Z.shiftl 18 3.
Definition LOG_LOCAL3 : Z := Z.shiftl 19 3.
Definition LOG_LOCAL4 : Z := Z.shiftl 20 3.
Definition LOG_LOCAL5 : Z := Z.shiftl 21 3.
Definition LOG_LOCAL6 : Z := Z.shiftl 22 3.
Definition LOG_LOCAL7 : Z := Z.shiftl 23 3.

Definition LOG_EMERG : Z := 0.
Definition LOG_ALERT : Z := 1.
Definition LOG_CRIT : Z := 2.
Definition LOG_ERR : Z := 3.
Definition LOG_WARNING : Z := 4.
Definition LOG_NOTICE : Z := 5.
Definition LOG_INFO : Z := 6.
Definition LOG_DEBUG : Z := 7.

(** Conversions between the native integer types and the [gtm_ulong_t]
    slots (64 bits) or the 32-bit [mode_t], [uid_t], [gid_t]. *)
Definition to_ulong (z : Z) : Z := z mod 2 ^ 64.
Definition to_uint (z : Z) : Z := z mod 2 ^ 32.

(** *** Caller memory *)

(** A caller-provided character array; its length is its capacity. *)
Abbreviation buffer := (list ascii) (only parsing).

Definition NUL : ascii := "000"%char.

(** [b[i] = c].  An index outside the array is undefined behaviour: [None]. *)
Definition store (b : buffer) (i : Z) (c : ascii) : option buffer :=
  if (0 <=? i) && (i <? Z.of_nat (length b))
  then Some (<[Z.to_nat i := c]> b)
  else None.

(** The C string held by an array: the bytes before the first NUL. *)
Fixpoint cstr (b : buffer) : string :=
  match b with
  | [] => EmptyString
  | c :: b' => if ascii_dec c NUL then EmptyString else String c (cstr b')
  end.

(** [*s] and [s + 1] on a C string given by its bytes: past the bytes
    stands the terminator. *)
Definition deref (s : string) : ascii :=
  match s with
  | EmptyString => NUL
  | String c _ => c
  end.

Definition advance (s : string) : string :=
  match s with
  | EmptyString => EmptyString
  | String _ s' => s'
  end.

(** A C string has no NUL among its bytes. *)
Fixpoint no_nul (s : string) : Prop :=
  match s with
  | EmptyString => True
  | String c s' => c ≠ NUL ∧ no_nul s'
  end.

(** *** Stringified options *)

Record param := Param { name : string; value : Z }.

(** [tolower] in the C locale and [strcasecmp (a, b) == 0]. *)
Definition tolower (c : ascii) : ascii :=
  let k := N_of_ascii c in
  if ((65 <=? k) && (k <=? 90))%N then ascii_of_N (k + 32) else c.

Fixpoint strcasecmp_eq (a b : string) : bool :=
  match a, b with
  | EmptyString, EmptyString => true
  | String x a', String y b' =>
      if ascii_dec (tolower x) (tolower y) then strcasecmp_eq a' b' else false
  | _, _ => false
  end.

(** [_get_param]: the status and the content of [*value] afterwards
    ([v] is its content before). *)
Fixpoint _get_param (p : list param) (nm : string) (v : Z) : Z * Z :=
  match p with
  | [] => (-1, v)
  | e :: p' =>
      if strcasecmp_eq (name e) nm then (0, value e) else _get_param p' nm v
  end.

(** The successive results of [strtok (s, d)], [strtok (NULL, d)], ... up
    to the first NULL: the maximal runs of bytes other than [d]; [cur] is
    the run being read, last byte first. *)
Definition flush (cur : list ascii) (rest : list string) : list string :=
  match cur with
  | [] => rest
  | _ => string_of_list_ascii (rev cur) :: rest
  end.

Fixpoint strtok_from (d : ascii) (s : string) (cur : list ascii) : list string :=
  match s with
  | EmptyString => flush cur []
  | String c s' =>
      if ascii_dec c d then flush cur (strtok_from d s' [])
      else strtok_from d s' (c :: cur)
  end.

Definition strtok_all (d : ascii) (s : string) : list string :=
  strtok_from d s [].

Definition list_delimiter : ascii := "|"%char.

(** A local variable read before any assignment. *)
Definition indeterminate : Z := 0.

(** [_get_flags]: the [while (p != NULL)] loop over the tokens. *)
Fixpoint get_flags_loop (p : list param) (toks : list string) (flags v : Z)
  : Z * Z :=
  match toks with
  | [] => (0, flags)
  | tok :: toks' =>
      let '(rc, f) := _get_param p tok indeterminate in
      if negb (rc =? 0) then (EINVAL, v)
      else get_flags_loop p toks' (Z.lor flags f) v
  end.

Definition _get_flags (p : list param) (nm : string) (v : Z) : Z * Z :=
  get_flags_loop p (strtok_all list_delimiter nm) 0 v.

(** An entry of an option string resolves in a table; its flag. *)
Definition resolves (p : list param) (tok : string) : Prop :=
  (_get_param p tok indeterminate).1 = 0.

Definition flag_of (p : list param) (tok : string) : Z :=
  (_get_param p tok indeterminate).2.

(** The bitwise OR of a list of flags. *)
Definition or_all (fs : list Z) : Z := foldr Z.lor 0 fs.

(** *** Bounded string copies *)

(** [strncopy (p, s, n)] where [p] points at offset [p] of the array [b]:
    the status and the array afterwards.  [k] is the number of iterations
    [while (n > 1)] can still make. *)
Fixpoint strncopy_loop (k : nat) (b : buffer) (p : Z) (s : string)
  : option (Z * buffer) :=
  match k with
  | O => b' ← store b p NUL; Some (ERANGE, b')
  | S k' =>
      b' ← store b p (deref s);
      if ascii_dec (deref s) NUL then Some (0, b')
      else strncopy_loop k' b' (p + 1) (advance s)
  end.

Definition strncopy (b : buffer) (p : Z) (s : string) (n : Z)
  : option (Z * buffer) :=
  strncopy_loop (Z.to_nat (n - 1)) b p s.

(** [strpncopy (p, s, &n)]: the returned pointer ([None] for NULL), the
    content of [n] and the array afterwards. *)
Fixpoint strpncopy_loop (k : nat) (b : buffer) (p : Z) (s : string) (n : Z)
  : option (option Z * Z * buffer) :=
  match k with
  | O => b' ← store b p NUL; Some (None, n, b')
  | S k' =>
      b' ← store b p (deref s);
      if ascii_dec (deref s) NUL then Some (Some p, n, b')
      else strpncopy_loop k' b' (p + 1) (advance s) (n - 1)
  end.

Definition strpncopy (b : buffer) (p : Z) (s : string) (n : Z)
  : option (option Z * Z * buffer) :=
  strpncopy_loop (Z.to_nat (n - 1)) b p s n.

(** *** The table of open directory streams *)

Definition dir_limit : nat := 256.
Global Arguments dir_limit : simpl never.

(** [in_list (p, list, &count, remove)]: the result, the array and the
    count afterwards; [k] is [count - i].  A read outside the array is
    undefined behaviour. *)
Fixpoint in_list_from (k i : nat) (p : Z) (l : list Z) (count : nat)
    (remove : bool) : option (Z * list Z * nat) :=
  match k with
  | O => Some (0, l, count)
  | S k' =>
      x ← l !! i;
      if x =? p then
        if remove then
          y ← l !! (count - 1)%nat;
          Some (1, <[i := y]> l, (count - 1)%nat)
        else Some (1, l, count)
      else in_list_from k' (S i) p l count remove
  end.

Definition in_list (p : Z) (l : list Z) (count : nat) (remove : bool)
  : option (Z * list Z * nat) :=
  in_list_from count 0 p l count remove.

(** [push_list (x, list, count)]: [list[count++] = x]. *)
Definition push_list (x : Z) (l : list Z) (count : nat)
  : option (list Z * nat) :=
  if (count <? length l)%nat then Some (<[count := x]> l, S count) else None.

(** *** The native layer *)

(** Native structures, a field per member the shim reads. *)
Record timespec := Timespec { tv_sec : Z; tv_nsec : Z }.

Record tm := Tm {
  tm_sec : Z; tm_min : Z; tm_hour : Z; tm_mday : Z; tm_mon : Z;
  tm_year : Z; tm_wday : Z; tm_yday : Z; tm_isdst : Z }.

Record tms := Tms {
  tms_utime : Z; tms_stime : Z; tms_cutime : Z; tms_cstime : Z }.

(** [struct sysinfo]; [load1], [load5], [load15] are [loads[0..2]]. *)
Record sysinfo_t := Sysinfo {
  uptime : Z; load1 : Z; load5 : Z; load15 : Z; totalram : Z; freeram : Z;
  sharedram : Z; bufferram : Z; totalswap : Z; freeswap : Z; procs : Z;
  totalhigh : Z; freehigh : Z; mem_unit : Z }.

Record utsname := Utsname {
  sysname : string; nodename : string; release : string; version : string;
  machine : string }.

Record stat_t := Stat {
  st_dev : Z; st_ino : Z; st_mode : Z; st_nlink : Z; st_uid : Z; st_gid : Z;
  st_rdev : Z; st_size : Z; st_blksize : Z; st_blocks : Z; st_atime : Z;
  st_mtime : Z; st_ctime : Z }.

Record passwd := Passwd {
  pw_name : string; pw_passwd : string; pw_uid : Z; pw_gid : Z;
  pw_gecos : string; pw_dir : string; pw_shell : string }.

Record group := Group {
  gr_name : string; gr_passwd : string; gr_gid : Z; gr_mem : list string }.

(** The libc primitives the shim calls, with their arguments. *)
Inductive Syscall : Type :=
| c_time
| c_clock_gettime (clk_id : Z)
| c_clock_getres (clk_id : Z)
| c_localtime (t : Z)
| c_gmtime (t : Z)
| c_mktime (b : tm)
| c_strftime (max : Z) (format : string) (b : tm)
| c_times
| c_sysinfo
| c_uname
| c_setenv (nm val : string) (overwrite : Z)
| c_unsetenv (nm : string)
| c_malloc (size : Z)
| c_openlog (ident : string) (option facility : Z)
| c_syslog (priority : Z) (message : string)
| c_umask (mask : Z)
| c_stat (path : string)
| c_lstat (path : string)
| c_readlink (path : string) (bufsiz : Z)
| c_link (oldpath newpath : string)
| c_symlink (oldpath newpath : string)
| c_unlink (path : string)
| c_mkdir (path : string) (mode : Z)
| c_rmdir (path : string)
| c_chmod (path : string) (mode : Z)
| c_chown (path : string) (uid gid : Z)
| c_lchown (path : string) (uid gid : Z)
| c_getpwuid (uid : Z)
| c_getpwnam (nm : string)
| c_getgrgid (gid : Z)
| c_getgrnam (nm : string)
| c_getgrent
| c_endgrent
| c_opendir (path : string)
| c_readdir (dir : Z)
| c_closedir (dir : Z).

(** What a primitive hands back.  A pointer-or-NULL result is an [option];
    so is a structure filled through a pointer, [None] being the failure
    that leaves the structure as it was; [malloc] and [opendir] return the
    address, 0 for NULL; [strftime] and [readlink] return the bytes they
    put into the caller's array ([readlink]: [None] for -1). *)
Definition res (c : Syscall) : Type :=
  match c with
  | c_clock_gettime _ | c_clock_getres _ => option timespec
  | c_localtime _ | c_gmtime _ => option tm
  | c_strftime _ _ _ => string
  | c_times => option tms
  | c_sysinfo => option sysinfo_t
  | c_uname => option utsname
  | c_openlog _ _ _ | c_syslog _ _ | c_endgrent => unit
  | c_stat _ | c_lstat _ => option stat_t
  | c_readlink _ _ => option string
  | c_getpwuid _ | c_getpwnam _ => option passwd
  | c_getgrgid _ | c_getgrnam _ | c_getgrent => option group
  | c_readdir _ => option string
  | _ => Z
  end.

(** The native layer: each primitive, run in a state of the operating
    system, gives its result, the value it leaves in [errno] if it sets it,
    and the next state of the operating system. *)
Class Libc := {
  World : Type;
  native : ∀ c : Syscall, World → res c * option Z * World }.

(** *** Process state and the monad of the shim *)

Section Shim.
Context {L : Libc}.

Record State := mkState {
  errno : Z;
  dir_list : list Z;            (* static DIR *dir_list[dir_limit] *)
  dir_count : nat;              (* static int dir_count *)
  calls : list Syscall;         (* the native calls made so far *)
  world : World }.

(** [Fault] is undefined behaviour (an access outside an array);
    [OutOfFuel] cuts a loop whose length the native layer decides. *)
Inductive result (A : Type) : Type :=
| Done (a : A) (s : State)
| Fault
| OutOfFuel.
Global Arguments Done {A} a s.
Global Arguments Fault {A}.
Global Arguments OutOfFuel {A}.

Definition M (A : Type) : Type := State → result A.

Global Instance M_ret : MRet M := λ A a s, Done a s.
Global Instance M_bind : MBind M := λ A B f m s,
  match m s with
  | Done a s' => f a s'
  | Fault => Fault
  | OutOfFuel => OutOfFuel
  end.

Definition get_errno : M Z := λ s, Done (errno s) s.

Definition set_errno (e : Z) : M unit := λ s,
  Done () (mkState e (dir_list s) (dir_count s) (calls s) (world s)).

(** [clear_errno ()]. *)
Definition clear_errno : M unit := set_errno 0.

(** A call of a libc primitive. *)
Definition sys (c : Syscall) : M (res c) := λ s,
  let '(r, e, w) := native c (world s) in
  Done r (mkState (default (errno s) e) (dir_list s) (dir_count s)
            (calls s ++ [c]) w).

(** An access to caller memory. *)
Definition mem {A} (o : option A) : M A := λ s,
  match o with
  | Some a => Done a s
  | None => Fault
  end.

Definition get_dir_count : M nat := λ s, Done (dir_count s) s.

(** [push_dir (x)]. *)
Definition push_dir (x : Z) : M unit := λ s,
  match push_list x (dir_list s) (dir_count s) with
  | Some (l, n) => Done () (mkState (errno s) l n (calls s) (world s))
  | None => Fault
  end.

(** [is_dir (x, y)]. *)
Definition is_dir (x : Z) (y : bool) : M Z := λ s,
  match in_list x (dir_list s) (dir_count s) y with
  | Some (r, l, n) => Done r (mkState (errno s) l n (calls s) (world s))
  | None => Fault
  end.

(** [check_dir ()], that is [check_list (dir_count, dir_limit)]; [emfile]
    is what the function returns with EMFILE. *)
Definition check_dir {A} (emfile : A) (k : M A) : M A :=
  n ← get_dir_count;
  if (dir_limit <=? n)%nat then mret emfile else k.

(** [check_argc (x)]; [enodata] is what the function returns with ENODATA. *)
Definition check_argc {A} (argc x : Z) (enodata : A) (k : M A) : M A :=
  if negb (argc =? x) then mret enodata else k.

(** *** The exposed operations *)

(** Output slots that are arrays. *)
Record uname_out := UnameOut {
  o_sysname : buffer; o_nodename : buffer; o_release : buffer;
  o_version : buffer; o_machine : buffer }.

Record passwd_out := PasswdOut {
  o_pw_name : buffer; o_pw_passwd : buffer; o_pw_uid : Z; o_pw_gid : Z;
  o_pw_gecos : buffer; o_pw_dir : buffer; o_pw_shell : buffer }.

Record group_out := GroupOut {
  o_gr_name : buffer; o_gr_passwd : buffer; o_gr_gid : Z; o_gr_mem : buffer }.

Definition clk_id_param : list param :=
  [ Param "REALTIME" CLOCK_REALTIME;
    Param "MONOTONIC" CLOCK_MONOTONIC;
    Param "MONOTONIC_RAW" CLOCK_MONOTONIC_RAW;
    Param "PROCESS_CPUTIME_ID" CLOCK_PROCESS_CPUTIME_ID;
    Param "THREAD_CPUTIME_ID" CLOCK_THREAD_CPUTIME_ID ].

Definition option_param : list param :=
  [ Param "CONS" LOG_CONS; Param "NDELAY" LOG_NDELAY;
    Param "NOWAIT" LOG_NOWAIT; Param "PID" LOG_PID ].

Definition facility_param : list param :=
  [ Param "AUTH" LOG_AUTH; Param "AUTHPRIV" LOG_AUTHPRIV;
    Param "CRON" LOG_CRON; Param "DAEMON" LOG_DAEMON; Param "FTP" LOG_FTP;
    Param "KERN" LOG_KERN; Param "LOCAL0" LOG_LOCAL0;
    Param "LOCAL1" LOG_LOCAL1; Param "LOCAL2" LOG_LOCAL2;
    Param "LOCAL3" LOG_LOCAL3; Param "LOCAL4" LOG_LOCAL4;
    Param "LOCAL5" LOG_LOCAL5; Param "LOCAL6" LOG_LOCAL6;
    Param "LOCAL7" LOG_LOCAL7; Param "LPR" LOG_LPR; Param "MAIL" LOG_MAIL;
    Param "NEWS" LOG_NEWS; Param "SYSLOG" LOG_SYSLOG; Param "USER" LOG_USER;
    Param "UUCP" LOG_UUCP ].

Definition priority_param : list param :=
  [ Param "EMERG" LOG_EMERG; Param "ALERT" LOG_ALERT; Param "CRIT" LOG_CRIT;
    Param "ERR" LOG_ERR; Param "WARNING" LOG_WARNING;
    Param "NOTICE" LOG_NOTICE; Param "INFO" LOG_INFO;
    Param "DEBUG" LOG_DEBUG ].

Definition posix_time (argc : Z) : M Z :=
  t ← sys c_time; mret (to_ulong t).

(** [memset (&b, '\0', sizeof (b))] for the structures filled by a call. *)
Definition zero_timespec : timespec := Timespec 0 0.
Definition zero_tms : tms := Tms 0 0 0 0.

Definition _posix_clock_get (argc : Z) (clk_id_name : string) (o : timespec)
    (gettime : bool) : M (Z * timespec) :=
  check_argc argc 3 (ENODATA, o) (
    let '(rc, clk_id) := _get_param clk_id_param clk_id_name indeterminate in
    if negb (rc =? 0) then mret (EINVAL, o) else
    clear_errno;;
    r ← (if gettime then sys (c_clock_gettime clk_id)
         else sys (c_clock_getres clk_id));
    let b := default zero_timespec r in
    e ← get_errno; mret (e, Timespec (tv_sec b) (tv_nsec b))).

Definition posix_clock_gettime (argc : Z) (clk_id_name : string) (o : timespec) :=
  _posix_clock_get argc clk_id_name o true.

Definition posix_clock_getres (argc : Z) (clk_id_name : string) (o : timespec) :=
  _posix_clock_get argc clk_id_name o false.

Definition _posix_time (argc : Z) (t : Z) (o : tm) (local : bool)
  : M (Z * tm) :=
  check_argc argc 10 (ENODATA, o) (
    clear_errno;;
    r ← (if local then sys (c_localtime t) else sys (c_gmtime t));
    match r with
    | Some b =>
        e ← get_errno;
        mret (e, Tm (tm_sec b) (tm_min b) (tm_hour b) (tm_mday b) (tm_mon b)
                   (tm_year b) (tm_wday b) (tm_yday b) (tm_isdst b))
    | None =>
        e ← get_errno; mret (e, Tm 0 0 0 0 0 0 0 0 0)
    end).

Definition posix_localtime (argc : Z) (t : Z) (o : tm) :=
  _posix_time argc t o true.

Definition posix_gmtime (argc : Z) (t : Z) (o : tm) :=
  _posix_time argc t o false.

Definition posix_mktime (argc : Z) (a : tm) : M Z :=
  check_argc argc 9 ENODATA (
    let b := Tm (tm_sec a) (tm_min a) (tm_hour a) (tm_mday a) (tm_mon a)
                (tm_year a) (tm_wday a) (tm_yday a) (tm_isdst a) in
    sys (c_mktime b)).

(** The bytes a primitive puts into a caller array, from offset [p] on. *)
Fixpoint write_bytes (b : buffer) (p : Z) (s : string) : option buffer :=
  match s with
  | EmptyString => Some b
  | String c s' => b' ← store b p c; write_bytes b' (p + 1) s'
  end.

Definition posix_strftime (argc : Z) (format : string) (a : tm) (s : buffer)
  : M (Z * buffer) :=
  check_argc argc 11 (ENODATA, s) (
    let b := Tm (tm_sec a) (tm_min a) (tm_hour a) (tm_mday a) (tm_mon a)
                (tm_year a) (tm_wday a) (tm_yday a) (tm_isdst a) in
    s ← mem (store s 0 NUL);
    clear_errno;;
    w ← sys (c_strftime 127 format b);
    s ← mem (write_bytes s 0 (substring 0 127 w));
    s ← mem (store s 127 NUL);
    e ← get_errno; mret (e, s)).

Definition posix_times (argc : Z) (o : tms) : M (Z * tms) :=
  check_argc argc 4 (ENODATA, o) (
    clear_errno;;
    r ← sys c_times;
    let b := default zero_tms r in
    e ← get_errno;
    mret (e, Tms (tms_utime b) (tms_stime b) (tms_cutime b) (tms_cstime b))).

Definition posix_sysinfo (argc : Z) (o : sysinfo_t) : M (Z * sysinfo_t) :=
  check_argc argc 14 (ENODATA, o) (
    clear_errno;;
    r ← sys c_sysinfo;
    match r with
    | Some b =>
        e ← get_errno;
        mret (e, Sysinfo (uptime b) (load1 b) (load5 b) (load15 b)
                   (totalram b) (freeram b) (sharedram b) (bufferram b)
                   (totalswap b) (freeswap b) (procs b) (totalhigh b)
                   (freehigh b) (mem_unit b))
    | None => e ← get_errno; mret (e, o)
    end).

(** The right operand of [||]: evaluated only when the left one is 0. *)
Definition or_strncopy (left : Z) (b : buffer) (s : string) (n : Z)
  : option (Z * buffer) :=
  if left =? 0 then strncopy b 0 s n else Some (left, b).

Definition posix_uname (argc : Z) (o : uname_out) : M (Z * uname_out) :=
  check_argc argc 5 (ENODATA, o) (
    clear_errno;;
    sysname' ← mem (store (o_sysname o) 0 NUL);
    nodename' ← mem (store (o_nodename o) 0 NUL);
    release' ← mem (store (o_release o) 0 NUL);
    version' ← mem (store (o_version o) 0 NUL);
    machine' ← mem (store (o_machine o) 0 NUL);
    r ← sys c_uname;
    match r with
    | Some b =>
        '(r1, sysname') ← mem (strncopy sysname' 0 (sysname b) 128);
        '(r2, nodename') ← mem (or_strncopy r1 nodename' (nodename b) 128);
        '(r3, release') ← mem (or_strncopy r2 release' (release b) 128);
        '(r4, version') ← mem (or_strncopy r3 version' (version b) 128);
        '(r5, machine') ← mem (or_strncopy r4 machine' (machine b) 128);
        let o' := UnameOut sysname' nodename' release' version' machine' in
        if negb (r5 =? 0) then mret (ERANGE, o')
        else e ← get_errno; mret (e, o')
    | None =>
        e ← get_errno;
        mret (e, UnameOut sysname' nodename' release' version' machine')
    end).

Definition posix_setenv (argc : Z) (nm val : string) (overwrite : Z) : M Z :=
  check_argc argc 3 ENODATA (
    sys (c_setenv nm val overwrite);; get_errno).

Definition posix_unsetenv (argc : Z) (nm : string) : M Z :=
  check_argc argc 1 ENODATA (
    sys (c_unsetenv nm);; get_errno).

Definition posix_openlog (argc : Z) (ident option_name facility_name : string)
  : M Z :=
  check_argc argc 3 ENODATA (
    let s := Z.of_nat (String.length ident) + 1 in
    clear_errno;;
    p ← sys (c_malloc s);
    if p =? 0 then get_errno else
    (* memcpy (p, ident, s): the block at [p] now holds [ident] *)
    let '(rc, option) := _get_flags option_param option_name indeterminate in
    if negb (rc =? 0) then mret EINVAL else
    let '(rc, facility) :=
      _get_flags facility_param facility_name indeterminate in
    if negb (rc =? 0) then mret EINVAL else
    sys (c_openlog ident option facility);; get_errno).

Definition posix_syslog (argc : Z) (priority_name message : string) : M Z :=
  check_argc argc 2 ENODATA (
    let '(rc, priority) :=
      _get_param priority_param priority_name indeterminate in
    if negb (rc =? 0) then mret EINVAL else
    clear_errno;;
    sys (c_syslog priority message);; get_errno).

Definition posix_umask (argc : Z) (mask : Z) : M Z :=
  check_argc argc 1 ENODATA (
    sys (c_umask (to_uint mask))).

Definition _posix_stat (argc : Z) (path : string) (o : stat_t) (l : bool)
  : M (Z * stat_t) :=
  check_argc argc 14 (ENODATA, o) (
    clear_errno;;
    r ← (if l then sys (c_lstat path) else sys (c_stat path));
    match r with
    | Some b =>
        e ← get_errno;
        mret (e, Stat (st_dev b) (st_ino b) (st_mode b) (st_nlink b)
                   (st_uid b) (st_gid b) (st_rdev b) (to_ulong (st_size b))
                   (to_ulong (st_blksize b)) (to_ulong (st_blocks b))
                   (to_ulong (st_atime b)) (to_ulong (st_mtime b))
                   (to_ulong (st_ctime b)))
    | None => e ← get_errno; mret (e, o)
    end).

Definition posix_stat (argc : Z) (path : string) (o : stat_t) :=
  _posix_stat argc path o false.

Definition posix_lstat (argc : Z) (path : string) (o : stat_t) :=
  _posix_stat argc path o true.

Definition posix_readlink (argc : Z) (path : string) (nm : buffer)
  : M (Z * buffer) :=
  check_argc argc 2 (ENODATA, nm) (
    clear_errno;;
    r ← sys (c_readlink path 1023);
    '(s, nm) ← mem (match r with
                    | Some w =>
                        let w := substring 0 1023 w in
                        nm' ← write_bytes nm 0 w;
                        Some (Z.of_nat (String.length w), nm')
                    | None => Some (-1, nm)
                    end);
    nm ← mem (store nm s NUL);
    e ← get_errno; mret (e, nm)).

Definition _posix_link (argc : Z) (oldpath newpath : string) (sym : bool)
  : M Z :=
  check_argc argc 2 ENODATA (
    clear_errno;;
    (if sym then sys (c_symlink oldpath newpath)
     else sys (c_link oldpath newpath));;
    get_errno).

Definition posix_link (argc : Z) (oldpath newpath : string) :=
  _posix_link argc oldpath newpath false.

Definition posix_symlink (argc : Z) (oldpath newpath : string) :=
  _posix_link argc oldpath newpath true.

Definition posix_unlink (argc : Z) (path : string) : M Z :=
  check_argc argc 1 ENODATA (
    clear_errno;; sys (c_unlink path);; get_errno).

Definition posix_mkdir (argc : Z) (path : string) (mode : Z) : M Z :=
  check_argc argc 2 ENODATA (
    clear_errno;; sys (c_mkdir path (to_uint mode));; get_errno).

Definition posix_rmdir (argc : Z) (path : string) : M Z :=
  check_argc argc 1 ENODATA (
    clear_errno;; sys (c_rmdir path);; get_errno).

Definition posix_chmod (argc : Z) (path : string) (mode : Z) : M Z :=
  check_argc argc 2 ENODATA (
    clear_errno;; sys (c_chmod path (to_uint mode));; get_errno).

Definition _posix_chown (argc : Z) (path : string) (uid gid : Z) (l : bool)
  : M Z :=
  check_argc argc 3 ENODATA (
    clear_errno;;
    (if l then sys (c_lchown path (to_uint uid) (to_uint gid))
     else sys (c_chown path (to_uint uid) (to_uint gid)));;
    get_errno).

Definition posix_chown (argc : Z) (path : string) (uid gid : Z) :=
  _posix_chown argc path uid gid false.

Definition posix_lchown (argc : Z) (path : string) (uid gid : Z) :=
  _posix_chown argc path uid gid true.

(** [nm] is [None] for a NULL [name]. *)
Definition _posix_getpw (argc : Z) (nm : option string) (uid : Z)
    (o : passwd_out) : M (Z * passwd_out) :=
  check_argc argc 8 (ENODATA, o) (
    let uid' := 0 in
    let gid' := 0 in
    name' ← mem (store (o_pw_name o) 0 NUL);
    passwd' ← mem (store (o_pw_passwd o) 0 NUL);
    gecos' ← mem (store (o_pw_gecos o) 0 NUL);
    dir' ← mem (store (o_pw_dir o) 0 NUL);
    shell' ← mem (store (o_pw_shell o) 0 NUL);
    clear_errno;;
    r ← match nm with
        | None => sys (c_getpwuid (to_uint uid))
        | Some n => sys (c_getpwnam n)
        end;
    match r with
    | Some b =>
        let uid' := pw_uid b in
        let gid' := pw_gid b in
        '(r1, name') ← mem (strncopy name' 0 (pw_name b) 64);
        '(r2, passwd') ← mem (or_strncopy r1 passwd' (pw_passwd b) 64);
        '(r3, gecos') ← mem (or_strncopy r2 gecos' (pw_gecos b) 256);
        '(r4, dir') ← mem (or_strncopy r3 dir' (pw_dir b) 1024);
        '(r5, shell') ← mem (or_strncopy r4 shell' (pw_shell b) 1024);
        let o' := PasswdOut name' passwd' uid' gid' gecos' dir' shell' in
        if negb (r5 =? 0) then mret (ERANGE, o')
        else e ← get_errno; mret (e, o')
    | None =>
        set_errno ENOENT;;
        e ← get_errno;
        mret (e, PasswdOut name' passwd' uid' gid' gecos' dir' shell')
    end).

Definition posix_getpwnam (argc : Z) (nm : string) (o : passwd_out) :=
  _posix_getpw argc (Some nm) 0 o.

Definition posix_getpwuid (argc : Z) (uid : Z) (o : passwd_out) :=
  _posix_getpw argc None uid o.

(** The loop over [g -> gr_mem] of [_posix_getgr]; [first] is [i == 0].
    The result is [None] where the function returns ERANGE, else the final
    [p] and [l]; with it comes the array. *)
Fixpoint getgr_members (mems : list string) (first : bool) (b : buffer)
    (p l : Z) : option (option (Z * Z) * buffer) :=
  match mems with
  | [] => Some (Some (p, l), b)
  | m :: mems' =>
      '(sep, b) ←
        (if first then Some (Some (p, l), b)
         else '(q, l, b) ← strpncopy b p "|" l;
              Some (match q with Some p => Some (p, l) | None => None end, b));
      match sep with
      | None => Some (None, b)
      | Some (p, l) =>
          '(q, l, b) ← strpncopy b p m l;
          match q with
          | None => Some (None, b)
          | Some p => getgr_members mems' false b p l
          end
      end
  end.

Definition _posix_getgr (argc : Z) (nm : option string) (gid : Z)
    (o : group_out) : M (Z * group_out) :=
  check_argc argc 5 (ENODATA, o) (
    let gid' := 0 in
    name' ← mem (store (o_gr_name o) 0 NUL);
    passwd' ← mem (store (o_gr_passwd o) 0 NUL);
    mem' ← mem (store (o_gr_mem o) 0 NUL);
    clear_errno;;
    r ← match nm with
        | None => sys (c_getgrgid (to_uint gid))
        | Some n => sys (c_getgrnam n)
        end;
    match r with
    | Some g =>
        let gid' := gr_gid g in
        '(r1, name') ← mem (strncopy name' 0 (gr_name g) 64);
        '(r2, passwd') ← mem (or_strncopy r1 passwd' (gr_passwd g) 64);
        if negb (r2 =? 0) then mret (ERANGE, GroupOut name' passwd' gid' mem')
        else
          '(q, mem') ← mem (getgr_members (gr_mem g) true mem' 0 4096);
          match q with
          | None => mret (ERANGE, GroupOut name' passwd' gid' mem')
          | Some _ =>
              e ← get_errno; mret (e, GroupOut name' passwd' gid' mem')
          end
    | None =>
        set_errno ENOENT;;
        e ← get_errno; mret (e, GroupOut name' passwd' gid' mem')
    end).

Definition posix_getgrnam (argc : Z) (nm : string) (o : group_out) :=
  _posix_getgr argc (Some nm) 0 o.

Definition posix_getgrgid (argc : Z) (gid : Z) (o : group_out) :=
  _posix_getgr argc None gid o.

(** The loop over [b -> gr_mem] of [posix_getgrouplist]: [None] where the
    function returns ERANGE, else [found], [p] and [l]. *)
Fixpoint getgrouplist_members (mems : list string) (grname nm : string)
    (found : Z) (b : buffer) (p l : Z)
  : option (option (Z * Z * Z) * buffer) :=
  match mems with
  | [] => Some (Some (found, p, l), b)
  | m :: mems' =>
      if string_dec m nm then
        '(sep, b) ←
          (if negb (found =? 0) then
             '(q, l, b) ← strpncopy b p "|" l;
             Some (match q with
                   | Some p => Some (found, p, l)
                   | None => None
                   end, b)
           else Some (Some (found + 1, p, l), b));
        match sep with
        | None => Some (None, b)
        | Some (found, p, l) =>
            '(q, l, b) ← strpncopy b p grname l;
            match q with
            | None => Some (None, b)
            | Some p => getgrouplist_members mems' grname nm found b p l
            end
        end
      else getgrouplist_members mems' grname nm found b p l
  end.

(** [while ((b = getgrent ()) != NULL)]: the native layer decides how many
    entries there are, so the loop runs on [fuel]. *)
Fixpoint getgrouplist_loop (fuel : nat) (nm : string) (found : Z)
    (list : buffer) (p l : Z) : M (Z * buffer) :=
  match fuel with
  | O => λ _, OutOfFuel
  | S fuel' =>
      r ← sys c_getgrent;
      match r with
      | None => sys c_endgrent;; e ← get_errno; mret (e, list)
      | Some b =>
          '(st, list) ←
            mem (getgrouplist_members (gr_mem b) (gr_name b) nm found list p l);
          match st with
          | None => sys c_endgrent;; mret (ERANGE, list)
          | Some (found, p, l) => getgrouplist_loop fuel' nm found list p l
          end
      end
  end.

Definition posix_getgrouplist (fuel : nat) (argc : Z) (nm : string)
    (list : buffer) : M (Z * buffer) :=
  clear_errno;;
  list ← mem (store list 0 NUL);
  getgrouplist_loop fuel nm 0 list 0 4096.

Definition posix_opendir (argc : Z) (path : string) (dir : Z) : M (Z * Z) :=
  check_argc argc 2 (ENODATA, dir) (
    check_dir (EMFILE, dir) (
    clear_errno;;
    b ← sys (c_opendir path);
    if negb (b =? 0) then
      push_dir b;; e ← get_errno; mret (e, b)
    else e ← get_errno; mret (e, dir))).

Definition posix_readdir (argc : Z) (dir : Z) (nm : buffer) : M (Z * buffer) :=
  check_argc argc 2 (ENODATA, nm) (
    nm ← mem (store nm 0 NUL);
    r ← is_dir dir false;
    if r =? 0 then mret (EINVAL, nm) else
    clear_errno;;
    b ← sys (c_readdir dir);
    match b with
    | Some d_name =>
        '(rc, nm) ← mem (strncopy nm 0 d_name 256);
        if negb (rc =? 0) then mret (ERANGE, nm)
        else e ← get_errno; mret (e, nm)
    | None => e ← get_errno; mret (e, nm)
    end).

Definition posix_closedir (argc : Z) (dir : Z) : M Z :=
  check_argc argc 1 ENODATA (
    r ← is_dir dir true;
    if r =? 0 then mret EINVAL else
    sys (c_closedir dir);; get_errno).

(** *** Calls from the host *)

(** A call of an exposed operation: its input arguments and the content of
    the slots it may write.  The host passes [argc] beside it. *)
Inductive Request : Type :=
| r_time
| r_clock_gettime (clk_id_name : string) (o : timespec)
| r_clock_getres (clk_id_name : string) (o : timespec)
| r_localtime (t : Z) (o : tm)
| r_gmtime (t : Z) (o : tm)
| r_mktime (a : tm)
| r_strftime (format : string) (a : tm) (s : buffer)
| r_times (o : tms)
| r_sysinfo (o : sysinfo_t)
| r_uname (o : uname_out)
| r_setenv (nm val : string) (overwrite : Z)
| r_unsetenv (nm : string)
| r_openlog (ident option_name facility_name : string)
| r_syslog (priority_name message : string)
| r_umask (mask : Z)
| r_stat (path : string) (o : stat_t)
| r_lstat (path : string) (o : stat_t)
| r_readlink (path : string) (nm : buffer)
| r_link (oldpath newpath : string)
| r_symlink (oldpath newpath : string)
| r_unlink (path : string)
| r_mkdir (path : string) (mode : Z)
| r_rmdir (path : string)
| r_chmod (path : string) (mode : Z)
| r_chown (path : string) (uid gid : Z)
| r_lchown (path : string) (uid gid : Z)
| r_getpwnam (nm : string) (o : passwd_out)
| r_getpwuid (uid : Z) (o : passwd_out)
| r_getgrnam (nm : string) (o : group_out)
| r_getgrgid (gid : Z) (o : group_out)
| r_getgrouplist (nm : string) (list : buffer)
| r_opendir (path : string) (dir : Z)
| r_readdir (dir : Z) (nm : buffer)
| r_closedir (dir : Z).

(** The number of parameters after [argc] in the C prototype. *)
Definition arity (r : Request) : Z :=
  match r with
  | r_time => 0
  | r_clock_gettime _ _ | r_clock_getres _ _ => 3
  | r_localtime _ _ | r_gmtime _ _ => 10
  | r_mktime _ => 9
  | r_strftime _ _ _ => 11
  | r_times _ => 4
  | r_sysinfo _ => 14
  | r_uname _ => 5
  | r_setenv _ _ _ => 3
  | r_unsetenv _ => 1
  | r_openlog _ _ _ => 3
  | r_syslog _ _ => 2
  | r_umask _ => 1
  | r_stat _ _ | r_lstat _ _ => 14
  | r_readlink _ _ => 2
  | r_link _ _ | r_symlink _ _ => 2
  | r_unlink _ => 1
  | r_mkdir _ _ => 2
  | r_rmdir _ => 1
  | r_chmod _ _ => 2
  | r_chown _ _ _ | r_lchown _ _ _ => 3
  | r_getpwnam _ _ | r_getpwuid _ _ => 8
  | r_getgrnam _ _ | r_getgrgid _ _ => 5
  | r_getgrouplist _ _ => 2
  | r_opendir _ _ => 2
  | r_readdir _ _ => 2
  | r_closedir _ => 1
  end.

(** The operations whose body starts with [check_argc]: all but
    [posix_time], whose [argc] is declared unused, and
    [posix_getgrouplist]. *)
Definition has_check_argc (r : Request) : bool :=
  match r with
  | r_time | r_getgrouplist _ _ => false
  | _ => true
  end.

Definition out {A} (f : A → Request) (m : M (Z * A)) : M (Z * Request) :=
  '(rc, a) ← m; mret (rc, f a).

Definition no_out (r : Request) (m : M Z) : M (Z * Request) :=
  rc ← m; mret (rc, r).

(** The call: the returned value and the request with its slots as the
    operation leaves them. *)
Definition exec (fuel : nat) (argc : Z) (r : Request) : M (Z * Request) :=
  match r with
  | r_time => no_out r (posix_time argc)
  | r_clock_gettime n o =>
      out (r_clock_gettime n) (posix_clock_gettime argc n o)
  | r_clock_getres n o => out (r_clock_getres n) (posix_clock_getres argc n o)
  | r_localtime t o => out (r_localtime t) (posix_localtime argc t o)
  | r_gmtime t o => out (r_gmtime t) (posix_gmtime argc t o)
  | r_mktime a => no_out r (posix_mktime argc a)
  | r_strftime f a s => out (r_strftime f a) (posix_strftime argc f a s)
  | r_times o => out r_times (posix_times argc o)
  | r_sysinfo o => out r_sysinfo (posix_sysinfo argc o)
  | r_uname o => out r_uname (posix_uname argc o)
  | r_setenv n v o => no_out r (posix_setenv argc n v o)
  | r_unsetenv n => no_out r (posix_unsetenv argc n)
  | r_openlog i o f => no_out r (posix_openlog argc i o f)
  | r_syslog p m => no_out r (posix_syslog argc p m)
  | r_umask m => no_out r (posix_umask argc m)
  | r_stat p o => out (r_stat p) (posix_stat argc p o)
  | r_lstat p o => out (r_lstat p) (posix_lstat argc p o)
  | r_readlink p n => out (r_readlink p) (posix_readlink argc p n)
  | r_link a b => no_out r (posix_link argc a b)
  | r_symlink a b => no_out r (posix_symlink argc a b)
  | r_unlink p => no_out r (posix_unlink argc p)
  | r_mkdir p m => no_out r (posix_mkdir argc p m)
  | r_rmdir p => no_out r (posix_rmdir argc p)
  | r_chmod p m => no_out r (posix_chmod argc p m)
  | r_chown p u g => no_out r (posix_chown argc p u g)
  | r_lchown p u g => no_out r (posix_lchown argc p u g)
  | r_getpwnam n o => out (r_getpwnam n) (posix_getpwnam argc n o)
  | r_getpwuid u o => out (r_getpwuid u) (posix_getpwuid argc u o)
  | r_getgrnam n o => out (r_getgrnam n) (posix_getgrnam argc n o)
  | r_getgrgid g o => out (r_getgrgid g) (posix_getgrgid argc g o)
  | r_getgrouplist n l =>
      out (r_getgrouplist n) (posix_getgrouplist fuel argc n l)
  | r_opendir p d => out (r_opendir p) (posix_opendir argc p d)
  | r_readdir d n => out (r_readdir d) (posix_readdir argc d n)
  | r_closedir d => no_out r (posix_closedir argc d)
  end.

(** *** States of the process *)

(** The process at start: the static table is zeroed. *)
Definition initial (e : Z) (w : World) : State :=
  mkState e (replicate dir_limit 0) 0 [] w.

(** The open-handle set: the first [dir_count] entries of the table. *)
Definition handles (s : State) : list Z := take (dir_count s) (dir_list s).

(** The states the process reaches by calls of the exposed operations. *)
Inductive reachable : State → Prop :=
| reachable_initial e w : reachable (initial e w)
| reachable_exec s fuel argc r v r' s' :
    reachable s →
    exec fuel argc r s = Done (v, r') s' →
    reachable s'.

(** The address [opendir] would return for this request is not the address
    of a stream that is still open. *)
Definition fresh_opendir (r : Request) (s : State) : Prop :=
  match r with
  | r_opendir path _ => (native (c_opendir path) (world s)).1.1 ∉ handles s
  | _ => True
  end.

(** Reachable states, on a native layer that never hands out the address
    of a stream that is still open. *)
Inductive tracked : State → Prop :=
| tracked_initial e w : tracked (initial e w)
| tracked_exec s fuel argc r v r' s' :
    tracked s →
    fresh_opendir r s →
    exec fuel argc r s = Done (v, r') s' →
    tracked s'.

(** The table and its count fit the array. *)
Definition table_ok (s : State) : Prop :=
  length (dir_list s) = dir_limit ∧ (dir_count s ≤ dir_limit)%nat.

(** A computation that leaves the table of open streams as it is. *)
Definition keeps_dirs {A} (m : M A) : Prop :=
  ∀ s a s', m s = Done a s' →
    dir_list s' = dir_list s ∧ dir_count s' = dir_count s.

(** *** Failure of the native call *)

(** The array holds the empty string. *)
Definition is_empty_string (b : buffer) : Prop := b !! 0%nat = Some NUL.

Definition has_room (b : buffer) : Prop := (0 < length b)%nat.

(** The arrays among the slots of a request have room for a character. *)
Definition slots_ok (r : Request) : Prop :=
  match r with
  | r_uname o =>
      has_room (o_sysname o) ∧ has_room (o_nodename o) ∧
      has_room (o_release o) ∧ has_room (o_version o) ∧
      has_room (o_machine o)
  | r_getpwnam _ o | r_getpwuid _ o =>
      has_room (o_pw_name o) ∧ has_room (o_pw_passwd o) ∧
      has_room (o_pw_gecos o) ∧ has_room (o_pw_dir o) ∧
      has_room (o_pw_shell o)
  | r_getgrnam _ o | r_getgrgid _ o =>
      has_room (o_gr_name o) ∧ has_room (o_gr_passwd o) ∧
      has_room (o_gr_mem o)
  | r_readdir _ nm => has_room nm
  | _ => True
  end.

(** The operation reaches its native call, and the call fails: it returns
    its error value or NULL.  Stated for the operations that have output
    slots and one native call. *)
Definition native_fails (r : Request) (s : State) : Prop :=
  match r with
  | r_clock_gettime n _ =>
      ∃ clk, _get_param clk_id_param n indeterminate = (0, clk) ∧
        (native (c_clock_gettime clk) (world s)).1.1 = None
  | r_clock_getres n _ =>
      ∃ clk, _get_param clk_id_param n indeterminate = (0, clk) ∧
        (native (c_clock_getres clk) (world s)).1.1 = None
  | r_localtime t _ => (native (c_localtime t) (world s)).1.1 = None
  | r_gmtime t _ => (native (c_gmtime t) (world s)).1.1 = None
  | r_times _ => (native c_times (world s)).1.1 = None
  | r_sysinfo _ => (native c_sysinfo (world s)).1.1 = None
  | r_uname _ => (native c_uname (world s)).1.1 = None
  | r_stat p _ => (native (c_stat p) (world s)).1.1 = None
  | r_lstat p _ => (native (c_lstat p) (world s)).1.1 = None
  | r_getpwnam n _ => (native (c_getpwnam n) (world s)).1.1 = None
  | r_getpwuid u _ => (native (c_getpwuid (to_uint u)) (world s)).1.1 = None
  | r_getgrnam n _ => (native (c_getgrnam n) (world s)).1.1 = None
  | r_getgrgid g _ => (native (c_getgrgid (to_uint g)) (world s)).1.1 = None
  | r_opendir p _ =>
      (dir_count s < dir_limit)%nat ∧
      (native (c_opendir p) (world s)).1.1 = 0
  | r_readdir d _ =>
      table_ok s ∧ d ∈ handles s ∧
      (native (c_readdir d) (world s)).1.1 = None
  | _ => False
  end.

(** What the slots hold after such a failure: zeros and empty strings, or,
    for [sysinfo], [stat], [lstat] and [opendir], what the caller had left
    in them. *)
Definition failure_outcome (r r' : Request) : Prop :=
  match r with
  | r_clock_gettime n _ => r' = r_clock_gettime n (Timespec 0 0)
  | r_clock_getres n _ => r' = r_clock_getres n (Timespec 0 0)
  | r_localtime t _ => r' = r_localtime t (Tm 0 0 0 0 0 0 0 0 0)
  | r_gmtime t _ => r' = r_gmtime t (Tm 0 0 0 0 0 0 0 0 0)
  | r_times _ => r' = r_times (Tms 0 0 0 0)
  | r_uname _ =>
      ∃ o', r' = r_uname o' ∧
        is_empty_string (o_sysname o') ∧ is_empty_string (o_nodename o') ∧
        is_empty_string (o_release o') ∧ is_empty_string (o_version o') ∧
        is_empty_string (o_machine o')
  | r_getpwnam _ _ | r_getpwuid _ _ =>
      ∃ o', (r' = match r with
                  | r_getpwnam n _ => r_getpwnam n o'
                  | r_getpwuid u _ => r_getpwuid u o'
                  | _ => r
                  end) ∧
        o_pw_uid o' = 0 ∧ o_pw_gid o' = 0 ∧
        is_empty_string (o_pw_name o') ∧ is_empty_string (o_pw_passwd o') ∧
        is_empty_string (o_pw_gecos o') ∧ is_empty_string (o_pw_dir o') ∧
        is_empty_string (o_pw_shell o')
  | r_getgrnam _ _ | r_getgrgid _ _ =>
      ∃ o', (r' = match r with
                  | r_getgrnam n _ => r_getgrnam n o'
                  | r_getgrgid g _ => r_getgrgid g o'
                  | _ => r
                  end) ∧
        o_gr_gid o' = 0 ∧
        is_empty_string (o_gr_name o') ∧ is_empty_string (o_gr_passwd o') ∧
        is_empty_string (o_gr_mem o')
  | r_readdir d _ => ∃ nm', r' = r_readdir d nm' ∧ is_empty_string nm'
  | r_sysinfo _ | r_stat _ _ | r_lstat _ _ | r_opendir _ _ => r' = r
  | _ => True
  end.


(** A sequence of calls, each with its [argc]; the slots written by one
    call are not passed to the next. *)
Fixpoint run (fuel : nat) (rs : list (Z * Request)) : M unit :=
  match rs with
  | [] => mret ()
  | (argc, r) :: rs' => exec fuel argc r;; run fuel rs'
  end.

End Shim.

(** *** A native layer to run the shim on

    The operating-system state counts the streams opened so far: every
    [opendir] succeeds at a new address, [malloc] succeeds, the end of a
    directory is reached at once, a lookup finds nothing and leaves [errno]
    alone, every other primitive fails with ENOENT. *)
Definition demo_native (c : Syscall) (w : nat) : res c * option Z * nat :=
  match c return res c * option Z * nat with
  | c_time => (1700000000, None, w)
  | c_clock_gettime _ | c_clock_getres _ => (None, Some EINVAL, w)
  | c_localtime _ | c_gmtime _ => (None, Some ENOENT, w)
  | c_mktime _ => (-1, None, w)
  | c_strftime _ _ _ => (EmptyString, None, w)
  | c_times => (None, Some ENOENT, w)
  | c_sysinfo => (None, Some ENOENT, w)
  | c_uname => (None, Some ENOENT, w)
  | c_setenv _ _ _ => (0, None, w)
  | c_unsetenv _ => (0, None, w)
  | c_malloc _ => (4096, None, w)
  | c_openlog _ _ _ => ((), None, w)
  | c_syslog _ _ => ((), None, w)
  | c_umask _ => (18, None, w)
  | c_stat _ | c_lstat _ => (None, Some ENOENT, w)
  | c_readlink _ _ => (None, Some EINVAL, w)
  | c_link _ _ | c_symlink _ _ | c_unlink _ | c_mkdir _ _ | c_rmdir _
  | c_chmod _ _ | c_chown _ _ _ | c_lchown _ _ _ => (-1, Some ENOENT, w)
  | c_getpwuid _ | c_getpwnam _ => (None, None, w)
  | c_getgrgid _ | c_getgrnam _ => (None, None, w)
  | c_getgrent => (None, None, w)
  | c_endgrent => ((), None, w)
  | c_opendir _ => (8192 + 64 * Z.of_nat w, None, S w)
  | c_readdir _ => (None, None, w)
  | c_closedir _ => (0, None, w)
  end.

Definition demo_libc : Libc := {| World := nat; native := demo_native |}.

(** The arity check as the specification words it, for every operation. *)
Definition arity_claim : Prop :=
  ∀ (L : Libc) (fuel : nat) (argc : Z) (r : Request) (s : State),
    argc ≠ arity r → exec fuel argc r s = Done (ENODATA, r) s.

(** States of a process on that native layer: at start, after one
    directory has been opened, and after 256 have been. *)
Definition demo_initial : @State demo_libc := @initial demo_libc 0 0%nat.

Definition demo_run (rs : list (Z * Request)) : @State demo_libc :=
  match @run demo_libc 0 rs demo_initial with
  | Done _ s => s
  | _ => demo_initial
  end.

Definition demo_open : @State demo_libc :=
  demo_run [(2, r_opendir "/etc" 0)].

Definition demo_full : @State demo_libc :=
  demo_run (repeat (2, r_opendir "/etc" 0) 256).

(** *** The failing native call as the specification words it *)

(** The operations that zero a local structure as their siblings do, and
    copy it to the output slots only when the native call succeeds. *)
Definition leaves_slots (r : Request) : bool :=
  match r with
  | r_stat _ _ | r_lstat _ _ | r_sysinfo _ => true
  | _ => false
  end.

(** *** Option strings as the specification words them

    The entries of an option string are the pieces between the
    delimiters.  A name resolves in a table when an entry of the table
    has the same name up to the case of the ASCII letters: the same
    length and, at each place, the same character or the capital and the
    small form of one letter. *)
Definition spec_is_upper (c : ascii) : bool :=
  let k := N_of_ascii c in ((65 <=? k) && (k <=? 90))%N.

Definition spec_same_letter (x y : ascii) : bool :=
  Ascii.eqb x y
  || (spec_is_upper x && (N_of_ascii y =? N_of_ascii x + 32)%N)
  || (spec_is_upper y && (N_of_ascii x =? N_of_ascii y + 32)%N).

Fixpoint spec_same_name (a b : string) : bool :=
  match a, b with
  | EmptyString, EmptyString => true
  | String x a', String y b' => spec_same_letter x y && spec_same_name a' b'
  | _, _ => false
  end.

(** The flag of the first entry of the table with that name, if any. *)
Fixpoint spec_flag (p : list param) (entry : string) : option Z :=
  match p with
  | [] => None
  | e :: p' =>
      if spec_same_name (name e) entry then Some (value e)
      else spec_flag p' entry
  end.

(** The pieces of [s] between the delimiters [d], empty ones included;
    [cur] is the piece being read, last byte first. *)
Fixpoint spec_split (d : ascii) (s : string) (cur : list ascii) : list string :=
  match s with
  | EmptyString => [string_of_list_ascii (rev cur)]
  | String c s' =>
      if ascii_dec c d then string_of_list_ascii (rev cur) :: spec_split d s' []
      else spec_split d s' (c :: cur)
  end.

Definition spec_entries (s : string) : list string :=
  spec_split list_delimiter s [].

Definition nonempty (e : string) : bool :=
  match e with
  | EmptyString => false
  | String _ _ => true
  end.

(** The entries that are not empty. *)
Definition entries (s : string) : list string :=
  List.filter nonempty (spec_entries s).

(** Every byte, for properties of bytes checked one by one. *)
Definition all_ascii : list ascii := map ascii_of_nat (seq 0 256).

(** The decoding as the specification words it, every piece between two
    delimiters being an entry: an entry that does not resolve gives
    EINVAL. *)
Definition option_claim : Prop :=
  ∀ (p : list param) (nm : string) (v : Z),
    Exists (λ e, spec_flag p e = None) (spec_entries nm) →
    _get_flags p nm v = (EINVAL, v).

End PosixC.

(* ===================================================================== *)
(** ** Notions used to state further properties *)
(* ===================================================================== *)

Module PosixAux.
Import PosixM PosixC.



(** The test under which [strncopy] and [strpncopy] copy a string whole
    into [n] bytes without reporting ERANGE: the string and its terminator
    take fewer than [n] bytes. *)
Definition fitsb (s : string) (n : Z) : bool :=
  Z.of_nat (String.length s) + 1 <? n.

(** The member names of a group as [_posix_getgr] lays them out: each one
    after the first is preceded by the list delimiter. *)
Fixpoint joined (first : bool) (mems : list string) : string :=
  match mems with
  | [] => EmptyString
  | m :: mems' =>
      (if first then EmptyString else "|") ++ m ++ joined false mems'
  end.

(** How often [nm] stands among the members of a group, and the names
    [posix_getgrouplist] writes for the user [nm]: that of every group,
    once for each time the group lists the user. *)
Fixpoint occurrences (nm : string) (mems : list string) : nat :=
  match mems with
  | [] => O
  | m :: mems' =>
      ((if string_dec m nm then 1 else 0) + occurrences nm mems')%nat
  end.

Definition group_names (nm : string) (gs : list group) : list string :=
  flat_map (λ g, repeat (gr_name g) (occurrences nm (gr_mem g))) gs.

(** [found] after [k] names have been written. *)
Definition found_after (found : Z) (k : nat) : Z :=
  match k with
  | O => found
  | S _ => if found =? 0 then 1 else found
  end.

(** The outcome of a run of [strpncopy] calls that lays the string [w] out
    from offset [p] of the array [b], with [l] bytes of room: the final
    pointer and room, or NULL when [w] and its terminator do not fit; the
    array then holds, from [p] on, what fits of [w], terminated, and the
    bytes before [p] are untouched. *)
Definition written_by (b : buffer) (p : nat) (l : Z) (w : string)
    (r : option (option (Z * Z) * buffer)) : Prop :=
  ∃ b',
    r = Some (if fitsb w l
              then Some (Z.of_nat (p + String.length w),
                         l - Z.of_nat (String.length w))
              else None, b') ∧
    length b' = length b ∧
    (∀ i, (i < p)%nat → b' !! i = b !! i) ∧
    cstr (drop p b') = substring 0 (Z.to_nat (l - 1)) w.

(** The directory stream a native call is handed, if any. *)
Definition stream_of (c : Syscall) : option Z :=
  match c with
  | c_readdir d | c_closedir d => Some d
  | _ => None
  end.

Section Calls.
Context {L : Libc}.

(** A computation whose native calls all satisfy [P]. *)
Definition emits {A} (P : Syscall → Prop) (m : M A) : Prop :=
  ∀ s a s', m s = Done a s' →
    ∃ new, calls s' = (calls s ++ new)%list ∧ Forall P new.

(** The state with another value in [errno]. *)
Definition with_errno (e : Z) (s : State) : State :=
  mkState e (dir_list s) (dir_count s) (calls s) (world s).

(** Two states that differ at most in [errno]; two runs that end alike,
    with the same value, in such states. *)
Definition same_but_errno (s1 s2 : State) : Prop :=
  dir_list s1 = dir_list s2 ∧ dir_count s1 = dir_count s2 ∧
  calls s1 = calls s2 ∧ world s1 = world s2.

Definition same_outcome {A} (r1 r2 : result A) : Prop :=
  match r1, r2 with
  | Done a1 s1, Done a2 s2 => a1 = a2 ∧ same_but_errno s1 s2
  | Fault, Fault => True
  | OutOfFuel, OutOfFuel => True
  | _, _ => False
  end.

(** A computation whose value does not depend on what [errno] held when
    it started. *)
Definition errno_blind {A} (m : M A) : Prop :=
  ∀ s1 s2, same_but_errno s1 s2 → same_outcome (m s1) (m s2).

(** The operations that return [errno] without having cleared it. *)
Definition no_clear_errno (r : Request) : bool :=
  match r with
  | r_setenv _ _ _ | r_unsetenv _ | r_closedir _ => true
  | _ => false
  end.

(** The operations that may change the table of open streams. *)
Definition changes_table (r : Request) : bool :=
  match r with
  | r_opendir _ _ | r_closedir _ => true
  | _ => false
  end.

(** The group database holds [n] more entries: [getgrent] returns that
    many, then NULL. *)
Fixpoint grent_left (n : nat) (w : World) : Prop :=
  match n with
  | O => (native c_getgrent w).1.1 = None
  | S n' =>
      (∃ g, (native c_getgrent w).1.1 = Some g) ∧
      grent_left n' (native c_getgrent w).2
  end.

(** The entries [getgrent] returns from the state [w] on, at most [n]. *)
Fixpoint grents (n : nat) (w : World) : list group :=
  match n with
  | O => []
  | S n' =>
      match (native c_getgrent w).1.1 with
      | Some g => g :: grents n' (native c_getgrent w).2
      | None => []
      end
  end.

End Calls.

(** States of a process on [demo_libc] with a stale [errno]: one directory
    is open and an [unlink] has just failed. *)
Definition demo_stale : @State demo_libc :=
  demo_run [(2, r_opendir "/etc" 0); (1, r_unlink "/none")].

(** *** A native layer whose calls succeed

    The operating-system state is the cursor of [getgrent] in a group
    database of two entries. *)
Definition host_utsname : utsname :=
  Utsname "Linux" "host" "6.1.0" "#1 SMP" "x86_64".

Definition host_passwd : passwd :=
  Passwd "root" "x" 0 0 "root" "/root" "/bin/sh".

Definition host_groups : list group :=
  [ Group "wheel" "x" 10 ["root"; "admin"]; Group "staff" "x" 20 ["admin"] ].

Definition host_native (c : Syscall) (w : nat) : res c * option Z * nat :=
  match c return res c * option Z * nat with
  | c_uname => (Some host_utsname, None, w)
  | c_getpwuid _ => (Some host_passwd, None, w)
  | c_getpwnam _ => (Some host_passwd, None, w)
  | c_getgrgid _ => (head host_groups, None, w)
  | c_getgrnam _ => (head host_groups, None, w)
  | c_getgrent => (host_groups !! w, None, S w)
  | c_endgrent => ((), None, 0%nat)
  | c_readdir _ => (Some "..", None, w)
  | c_readlink _ _ => (Some "/etc/passwd", None, w)
  | c_strftime _ _ _ => ("2026", None, w)
  | c_opendir _ => (8192, None, w)
  | c => demo_native c w
  end.

Definition host_libc : Libc := {| World := nat; native := host_native |}.

Definition host_initial : @State host_libc := @initial host_libc 0 0%nat.

(** After one directory has been opened. *)
Definition host_open : @State host_libc :=
  match @exec host_libc 0 2 (r_opendir "/etc" 0) host_initial with
  | Done _ s => s
  | _ => host_initial
  end.

Definition host_uname_out : uname_out :=
  UnameOut (replicate 128 "x"%char) (replicate 128 "x"%char)
    (replicate 128 "x"%char) (replicate 128 "x"%char)
    (replicate 128 "x"%char).

Definition host_passwd_out : passwd_out :=
  PasswdOut (replicate 64 "x"%char) (replicate 64 "x"%char) 7 7
    (replicate 256 "x"%char) (replicate 1024 "x"%char)
    (replicate 1024 "x"%char).

Definition host_group_out : group_out :=
  GroupOut (replicate 64 "x"%char) (replicate 64 "x"%char) 7
    (replicate 4096 "x"%char).

End PosixAux.

(* ===================================================================== *)
(** ** Properties of posix.m *)
(* ===================================================================== *)

(** Linear arithmetic with division and remainder by constants. *)
Ltac zdiv := Z.to_euclidean_division_equations; lia.

Section ModeOctal.
Import PosixM.

(** Unfolds [mode] on a string given character by character. *)
Ltac mode_digits :=
  unfold mode;
  cbn [m_length String.length mode_loop m_extract substring Nat.sub];
  simpl (8 ^ _); lia.

Lemma octal_digit_cases c :
  octal_digit c = true →
  c = "0"%char ∨ c = "1"%char ∨ c = "2"%char ∨ c = "3"%char ∨
  c = "4"%char ∨ c = "5"%char ∨ c = "6"%char ∨ c = "7"%char.
Proof.
  destruct c as [[] [] [] [] [] [] [] []]; cbv; intros H;
    first [ discriminate H | tauto ].
Qed.

(** An octal digit is the M string of its own value. *)
Lemma octal_digit_value c :
  octal_digit c = true →
  0 <= m_num (String c EmptyString) < 8 ∧
  m_str (m_num (String c EmptyString)) = String c EmptyString.
Proof.
  intros H. destruct (octal_digit_cases c H) as [->|[->|[->|[->|[->|[->|[->| ->]]]]]]];
    (split; [ cbv; split; congruence | reflexivity ]).
Qed.

Lemma small_cases v :
  0 <= v < 8 →
  v = 0 ∨ v = 1 ∨ v = 2 ∨ v = 3 ∨ v = 4 ∨ v = 5 ∨ v = 6 ∨ v = 7.
Proof. lia. Qed.

(** The M string of a value below 8 is one character, read back as the
    value. *)
Lemma m_str_digit v :
  0 <= v < 8 →
  ∃ c, m_str v = String c EmptyString ∧ m_num (String c EmptyString) = v.
Proof.
  intros H.
  destruct (small_cases v H) as [->|[->|[->|[->|[->|[->|[->| ->]]]]]]];
    eexists; split; reflexivity.
Qed.

(** [octal] writes the four low base-8 digits, most significant first. *)
Lemma octal_digits v1 v2 v3 v4 :
  0 <= v1 < 8 → 0 <= v2 < 8 → 0 <= v3 < 8 → 0 <= v4 < 8 →
  octal (((v1 * 8 + v2) * 8 + v3) * 8 + v4) =
  m_str v1 ++ m_str v2 ++ m_str v3 ++ m_str v4.
Proof.
  intros H1 H2 H3 H4. unfold octal. cbn [octal_loop].
  set (n := ((v1 * 8 + v2) * 8 + v3) * 8 + v4).
  assert (E4 : n mod 8 = v4) by (unfold n; zdiv).
  assert (Q1 : Z.quot n 8 = (v1 * 8 + v2) * 8 + v3) by (unfold n; zdiv).
  rewrite Q1, E4.
  assert (E3 : ((v1 * 8 + v2) * 8 + v3) mod 8 = v3) by zdiv.
  assert (Q2 : Z.quot ((v1 * 8 + v2) * 8 + v3) 8 = v1 * 8 + v2) by zdiv.
  rewrite Q2, E3.
  assert (E2 : (v1 * 8 + v2) mod 8 = v2) by zdiv.
  assert (Q3 : Z.quot (v1 * 8 + v2) 8 = v1) by zdiv.
  rewrite Q3, E2.
  assert (E1 : v1 mod 8 = v1) by zdiv.
  rewrite E1.
  destruct (m_str_digit v1 H1) as (c1 & -> & _).
  destruct (m_str_digit v2 H2) as (c2 & -> & _).
  destruct (m_str_digit v3 H3) as (c3 & -> & _).
  destruct (m_str_digit v4 H4) as (c4 & -> & _).
  reflexivity.
Qed.

Lemma octal_digits_base n :
  0 <= n < 4096 →
  ∃ v1 v2 v3 v4,
    0 <= v1 < 8 ∧ 0 <= v2 < 8 ∧ 0 <= v3 < 8 ∧ 0 <= v4 < 8 ∧
    n = ((v1 * 8 + v2) * 8 + v3) * 8 + v4.
Proof.
  intros H. exists (n / 512), (n / 64 mod 8), (n / 8 mod 8), (n mod 8). zdiv.
Qed.

Lemma zero_pad_full s : String.length s = 4%nat → zero_pad s = s.
Proof. intros H. unfold zero_pad, m_length. rewrite H. reflexivity. Qed.

(** The round trip on strings: [octal] always writes four digits. *)
Lemma octal_mode_valid s :
  valid_octal s = true → octal (mode s) = zero_pad s.
Proof.
  unfold valid_octal, m_length.
  destruct s as [|c1 [|c2 [|c3 [|c4 [|c5 s]]]]]; cbn [String.length];
    try discriminate; cbn [forallb list_ascii_of_string andb];
    rewrite ?andb_true_r, ?andb_true_iff; intros H.
  - destruct H as [_ H].
    destruct (octal_digit_value c1 H) as [R1 S1].
    replace (mode (String c1 EmptyString)) with
      (((0 * 8 + 0) * 8 + 0) * 8 + m_num (String c1 EmptyString))
      by mode_digits.
    rewrite octal_digits by lia. rewrite S1. reflexivity.
  - destruct H as [_ (H1 & H2)].
    destruct (octal_digit_value c1 H1) as [R1 S1].
    destruct (octal_digit_value c2 H2) as [R2 S2].
    replace (mode (String c1 (String c2 EmptyString))) with
      (((0 * 8 + 0) * 8 + m_num (String c1 EmptyString)) * 8
       + m_num (String c2 EmptyString))
      by mode_digits.
    rewrite octal_digits by lia. rewrite S1, S2. reflexivity.
  - destruct H as [_ (H1 & H2 & H3)].
    destruct (octal_digit_value c1 H1) as [R1 S1].
    destruct (octal_digit_value c2 H2) as [R2 S2].
    destruct (octal_digit_value c3 H3) as [R3 S3].
    replace (mode (String c1 (String c2 (String c3 EmptyString)))) with
      (((0 * 8 + m_num (String c1 EmptyString)) * 8
        + m_num (String c2 EmptyString)) * 8
       + m_num (String c3 EmptyString))
      by mode_digits.
    rewrite octal_digits by lia. rewrite S1, S2, S3. reflexivity.
  - destruct H as [_ (H1 & H2 & H3 & H4)].
    destruct (octal_digit_value c1 H1) as [R1 S1].
    destruct (octal_digit_value c2 H2) as [R2 S2].
    destruct (octal_digit_value c3 H3) as [R3 S3].
    destruct (octal_digit_value c4 H4) as [R4 S4].
    replace (mode (String c1 (String c2 (String c3 (String c4 EmptyString)))))
      with
      (((m_num (String c1 EmptyString) * 8 + m_num (String c2 EmptyString)) * 8
        + m_num (String c3 EmptyString)) * 8 + m_num (String c4 EmptyString))
      by mode_digits.
    rewrite octal_digits by lia. rewrite S1, S2, S3, S4. reflexivity.
Qed.

(** The round trip on integers holds on the whole range of four digits. *)
Lemma mode_octal_range n : 0 <= n < 4096 → mode (octal n) = n.
Proof.
  intros H.
  destruct (octal_digits_base n H) as (v1 & v2 & v3 & v4 & H1 & H2 & H3 & H4 & ->).
  rewrite octal_digits by assumption.
  destruct (m_str_digit v1 H1) as (c1 & -> & E1).
  destruct (m_str_digit v2 H2) as (c2 & -> & E2).
  destruct (m_str_digit v3 H3) as (c3 & -> & E3).
  destruct (m_str_digit v4 H4) as (c4 & -> & E4).
  unfold mode.
  cbn [m_length String.length String.append mode_loop m_extract substring Nat.sub].
  rewrite E1, E2, E3, E4. simpl (8 ^ _). lia.
Qed.

Lemma octal_mode_length s :
  valid_octal s = true → String.length (octal (mode s)) = 4%nat.
Proof.
  intros H. rewrite (octal_mode_valid s H). revert H.
  unfold valid_octal, zero_pad, m_length.
  destruct s as [|c1 [|c2 [|c3 [|c4 [|c5 s]]]]]; cbn [String.length];
    try discriminate; intros _; reflexivity.
Qed.

(** C2, as amended.  For every valid string [s] of one to four octal digits,
    [octal(mode(s))] is [s] with zeros put in front up to four digits, which
    is [s] exactly when [s] has four digits; and for every integer [n] with
    0 <= n <= 511, [mode(octal(n))] is [n]. *)
Theorem octal_mode_roundtrip s n :
  valid_octal s = true →
  0 <= n <= 511 →
  octal (mode s) = zero_pad s ∧
  (if (m_length s =? 4)%nat then octal (mode s) = s else octal (mode s) ≠ s) ∧
  mode (octal n) = n.
Proof.
  intros Hs Hn. split; [ exact (octal_mode_valid s Hs) | split ].
  - destruct (Nat.eqb_spec (m_length s) 4) as [E|E].
    + rewrite (octal_mode_valid s Hs). apply zero_pad_full. exact E.
    + intros Heq. apply E. unfold m_length. rewrite <- Heq at 1.
      apply octal_mode_length. exact Hs.
  - apply mode_octal_range. lia.
Qed.

Lemma octal_mode_roundtrip_witness :
  octal (mode "0644") = "0644" ∧ octal (mode "17") = "0017" ∧
  mode (octal 420) = 420.
Proof.
  destruct (octal_mode_roundtrip "0644" 420 eq_refl ltac:(lia)) as (_ & H1 & H2).
  destruct (octal_mode_roundtrip "17" 420 eq_refl ltac:(lia)) as (H3 & _).
  exact (conj H1 (conj H3 H2)).
Defined.

(** C2 as stated fails on a valid string of fewer than four digits. *)
Lemma octal_mode_three_digits :
  valid_octal "644" = true ∧ octal (mode "644") ≠ "644".
Proof. split; [ reflexivity | vm_compute; discriminate ]. Qed.

End ModeOctal.

Section FileTypes.
Import PosixM.

Lemma land_low_byte m f :
  Z.land m f mod 256 = Z.land (m mod 256) (f mod 256).
Proof.
  change 256 with (2 ^ 8). rewrite <- !Z.land_ones by lia.
  apply Z.bits_inj'. intros k Hk. rewrite !Z.land_spec.
  destruct (Z.testbit m k), (Z.testbit f k), (Z.testbit (Z.ones 8) k);
    reflexivity.
Qed.

Lemma land_high_bytes m f : Z.land m f / 256 = Z.land (m / 256) (f / 256).
Proof.
  change 256 with (2 ^ 8). rewrite <- !Z.shiftr_div_pow2 by lia.
  apply Z.shiftr_land.
Qed.

(** Containment of bit sets, byte by byte. *)
Lemma land_eq_split m f :
  Z.land m f = f ↔
  Z.land (m mod 256) (f mod 256) = f mod 256 ∧
  Z.land (m / 256) (f / 256) = f / 256.
Proof.
  split.
  - intros H. rewrite <- land_low_byte, <- land_high_bytes, H.
    split; reflexivity.
  - intros [H1 H2].
    rewrite <- land_low_byte in H1. rewrite <- land_high_bytes in H2.
    revert H1 H2. generalize (Z.land m f). intros l H1 H2. zdiv.
Qed.

Lemma byte_and_eq a b :
  0 <= a < 256 → 0 <= b < 256 →
  ascii_of_N (N.land (N_of_ascii (ascii_of_N (Z.to_N a)))
                (N_of_ascii (ascii_of_N (Z.to_N b)))) = ascii_of_N (Z.to_N b)
  ↔ Z.land a b = b.
Proof.
  intros Ha Hb. rewrite !N_ascii_embedding by lia.
  assert (Hl : (N.land (Z.to_N a) (Z.to_N b) < 256)%N).
  { pose proof (N.land_le_r (Z.to_N a) (Z.to_N b)). lia. }
  assert (E : Z.of_N (N.land (Z.to_N a) (Z.to_N b)) = Z.land a b).
  { rewrite N2Z.inj_land, !Z2N.id by lia. reflexivity. }
  split.
  - intros H. apply (f_equal N_of_ascii) in H.
    rewrite !N_ascii_embedding in H by lia. rewrite <- E, H. lia.
  - intros H. f_equal. lia.
Qed.

Lemma zbit_bytes n :
  zbit n 4 =
  String (ascii_of_N 0)
    (String (ascii_of_N (Z.to_N (Z.quot (Z.quot (Z.quot n 256) 256) 256 mod 256)))
       (String (ascii_of_N (Z.to_N (Z.quot (Z.quot n 256) 256 mod 256)))
          (String (ascii_of_N (Z.to_N (Z.quot n 256 mod 256)))
             (String (ascii_of_N (Z.to_N (n mod 256))) EmptyString)))).
Proof. reflexivity. Qed.

(** [isflag] is the test that the bits of the flag are all set in the
    mode, on the 32 bits that [zbit] keeps. *)
Lemma isflag_contains m flag :
  0 <= m < 2 ^ 32 →
  0 <= mode (m_str flag) < 2 ^ 32 →
  isflag m flag = (Z.land m (mode (m_str flag)) =? mode (m_str flag)).
Proof.
  intros Hm Hf. unfold isflag. set (f := mode (m_str flag)) in *.
  rewrite !zbit_bytes. cbn [zbitand bytes_and String.length Nat.leb].
  rewrite !Z.quot_div_nonneg by zdiv.
  destruct (Z.eqb_spec (Z.land m f) f) as [E|E].
  - apply land_eq_split in E as [E0 E].
    apply land_eq_split in E as [E1 E].
    apply land_eq_split in E as [E2 E].
    apply land_eq_split in E as [E3 _].
    apply byte_and_eq in E0, E1, E2, E3; try zdiv.
    rewrite E0, E1, E2, E3.
    destruct (string_dec _ _) as [_|N]; [ reflexivity | contradiction ].
  - destruct (string_dec _ _) as [H|_]; [ | reflexivity ].
    exfalso. apply E. injection H as H3 H2 H1 H0.
    apply byte_and_eq in H0, H1, H2, H3; try zdiv.
    apply land_eq_split. split; [ exact H0 | ].
    apply land_eq_split. split; [ exact H1 | ].
    apply land_eq_split. split; [ exact H2 | ].
    apply land_eq_split. split; [ exact H3 | ].
    replace (m / 256 / 256 / 256 / 256) with 0 by zdiv.
    replace (f / 256 / 256 / 256 / 256) with 0 by zdiv.
    reflexivity.
Qed.


Ltac flag_bits H :=
  rewrite isflag_contains by (first [ exact H | vm_compute; split; congruence ]);
  reflexivity.

Lemma isreg_bits m : 0 <= m < 2 ^ 32 → isreg m = (Z.land m S_IFREG =? S_IFREG).
Proof. intros H. unfold isreg. flag_bits H. Qed.

Lemma isdir_bits m : 0 <= m < 2 ^ 32 → isdir m = (Z.land m S_IFDIR =? S_IFDIR).
Proof. intros H. unfold isdir. flag_bits H. Qed.

Lemma ischr_bits m : 0 <= m < 2 ^ 32 → ischr m = (Z.land m S_IFCHR =? S_IFCHR).
Proof. intros H. unfold ischr. flag_bits H. Qed.

Lemma isblk_bits m : 0 <= m < 2 ^ 32 → isblk m = (Z.land m S_IFBLK =? S_IFBLK).
Proof. intros H. unfold isblk. flag_bits H. Qed.

Lemma isfifo_bits m : 0 <= m < 2 ^ 32 → isfifo m = (Z.land m S_IFIFO =? S_IFIFO).
Proof. intros H. unfold isfifo. flag_bits H. Qed.

Lemma islnk_bits m : 0 <= m < 2 ^ 32 → islnk m = (Z.land m S_IFLNK =? S_IFLNK).
Proof. intros H. unfold islnk. flag_bits H. Qed.

Lemma issock_bits m :
  0 <= m < 2 ^ 32 → issock m = (Z.land m S_IFSOCK =? S_IFSOCK).
Proof. intros H. unfold issock. flag_bits H. Qed.

(** The bits of a type code in a mode depend on the type field only. *)
Lemma type_field_flag m t f :
  Z.land m S_IFMT = t → Z.land S_IFMT f = f → Z.land m f = Z.land t f.
Proof. intros <- Hf. rewrite <- Z.land_assoc, Hf. reflexivity. Qed.

(** On the mode of a regular file, whatever its permission bits, [isreg]
    alone answers true. *)
Lemma regular_file_tests m :
  0 <= m < 2 ^ 32 → Z.land m S_IFMT = S_IFREG →
  isreg m = true ∧ isdir m = false ∧ ischr m = false ∧ isblk m = false ∧
  isfifo m = false ∧ islnk m = false ∧ issock m = false.
Proof.
  intros H Ht.
  rewrite isreg_bits, isdir_bits, ischr_bits, isblk_bits, isfifo_bits,
    islnk_bits, issock_bits by exact H.
  rewrite (type_field_flag m S_IFREG S_IFREG Ht eq_refl),
    (type_field_flag m S_IFREG S_IFDIR Ht eq_refl),
    (type_field_flag m S_IFREG S_IFCHR Ht eq_refl),
    (type_field_flag m S_IFREG S_IFBLK Ht eq_refl),
    (type_field_flag m S_IFREG S_IFIFO Ht eq_refl),
    (type_field_flag m S_IFREG S_IFLNK Ht eq_refl),
    (type_field_flag m S_IFREG S_IFSOCK Ht eq_refl).
  repeat split; reflexivity.
Qed.

(** On the mode of a block device, whatever its permission bits, [isdir]
    and [ischr] answer true beside [isblk]. *)
Lemma block_device_tests m :
  0 <= m < 2 ^ 32 → Z.land m S_IFMT = S_IFBLK →
  isdir m = true ∧ ischr m = true ∧ isblk m = true.
Proof.
  intros H Ht.
  rewrite isdir_bits, ischr_bits, isblk_bits by exact H.
  rewrite (type_field_flag m S_IFBLK S_IFDIR Ht eq_refl),
    (type_field_flag m S_IFBLK S_IFCHR Ht eq_refl),
    (type_field_flag m S_IFBLK S_IFBLK Ht eq_refl).
  repeat split; reflexivity.
Qed.

(** C1 fails on the code.  On the mode of a block device (060000), of a
    symbolic link (0120000) and of a socket (0140000) three of the seven
    tests answer true: [isflag] checks that the bits of the flag are
    contained in the mode, and the type codes of these three contain the
    codes of other types. *)
Theorem file_type_tests_overlap :
  (isdir S_IFBLK = true ∧ ischr S_IFBLK = true ∧ isblk S_IFBLK = true) ∧
  (isreg S_IFLNK = true ∧ ischr S_IFLNK = true ∧ islnk S_IFLNK = true) ∧
  (isreg S_IFSOCK = true ∧ isdir S_IFSOCK = true ∧ issock S_IFSOCK = true).
Proof. repeat split; vm_compute; reflexivity. Qed.

End FileTypes.

(* ===================================================================== *)
(** ** Properties of posix.c *)
(* ===================================================================== *)

(** *** The table of open streams as a list *)

Lemma delete_insert_same {A} (t : list A) j y :
  delete j (<[j := y]> t) = delete j t.
Proof.
  revert j. induction t as [|a t IH]; intros [|j]; cbn; try reflexivity.
  f_equal. apply IH.
Qed.

Section Table.
Import PosixC.
Local Open Scope nat_scope.
Variables (p : Z) (l : list Z) (n : nat).

Lemma in_list_from_absent k i rm :
  (∀ j, i ≤ j < i + k → ∃ x, l !! j = Some x ∧ x ≠ p) →
  in_list_from k i p l n rm = Some (0%Z, l, n).
Proof.
  revert i. induction k as [|k IH]; intros i H; cbn [in_list_from].
  - reflexivity.
  - destruct (H i ltac:(lia)) as (x & Hx & Hne). rewrite Hx. cbn.
    destruct (Z.eqb_spec x p) as [E|_]; [ contradiction | ].
    apply IH. intros j Hj. apply H. lia.
Qed.

Lemma in_list_from_found k i rm :
  i + k ≤ length l →
  (∃ j, i ≤ j < i + k ∧ l !! j = Some p) →
  ∃ j, i ≤ j < i + k ∧ l !! j = Some p ∧
    in_list_from k i p l n rm =
      if rm then y ← l !! (n - 1); Some (1%Z, <[j := y]> l, n - 1)
      else Some (1%Z, l, n).
Proof.
  revert i. induction k as [|k IH]; intros i Hlen (j & Hj & Hp).
  - lia.
  - cbn [in_list_from].
    destruct (lookup_lt_is_Some_2 l i ltac:(lia)) as [x Hx]. rewrite Hx. cbn.
    destruct (Z.eqb_spec x p) as [->|Hne].
    + exists i. split; [ lia | ]. split; [ exact Hx | ].
      destruct rm; reflexivity.
    + assert (j ≠ i) by (intros ->; congruence).
      destruct (IH (S i) ltac:(lia)) as (j' & Hj' & Hp' & Hr).
      { exists j. split; [ lia | exact Hp ]. }
      exists j'. split; [ lia | ]. split; [ exact Hp' | exact Hr ].
Qed.

Lemma in_list_absent rm :
  n ≤ length l → p ∉ take n l → in_list p l n rm = Some (0%Z, l, n).
Proof.
  intros Hn Hp. unfold in_list. apply in_list_from_absent.
  intros j Hj.
  destruct (lookup_lt_is_Some_2 l j ltac:(lia)) as [x Hx].
  exists x. split; [ exact Hx | ].
  intros ->. apply Hp. apply elem_of_take. exists j. split; [ exact Hx | lia ].
Qed.

Lemma in_list_keep :
  n ≤ length l → p ∈ take n l → in_list p l n false = Some (1%Z, l, n).
Proof.
  intros Hn Hp. apply elem_of_take in Hp as (j & Hj & Hlt).
  destruct (in_list_from_found n 0 false ltac:(lia)) as (j' & _ & _ & Hr).
  { exists j. split; [ lia | exact Hj ]. }
  exact Hr.
Qed.

Lemma in_list_remove :
  n ≤ length l → p ∈ take n l →
  ∃ j y, j < n ∧ l !! j = Some p ∧ l !! (n - 1) = Some y ∧
    in_list p l n true = Some (1%Z, <[j := y]> l, n - 1).
Proof.
  intros Hn Hp. apply elem_of_take in Hp as (j & Hj & Hlt).
  destruct (in_list_from_found n 0 true ltac:(lia)) as (j' & Hj' & Hp' & Hr).
  { exists j. split; [ lia | exact Hj ]. }
  destruct (lookup_lt_is_Some_2 l (n - 1) ltac:(lia)) as [y Hy].
  exists j', y. split; [ lia | ]. split; [ exact Hp' | ]. split; [ exact Hy | ].
  unfold in_list. rewrite Hr, Hy. reflexivity.
Qed.

(** Removing an entry by moving the last one into its place takes exactly
    that entry out of the first [n]. *)
Lemma take_swap_remove j y :
  n ≤ length l → j < n → l !! j = Some p → l !! (n - 1) = Some y →
  take n l ≡ₚ p :: take (n - 1) (<[j := y]> l).
Proof.
  intros Hn Hj Hp Hy.
  assert (Hn' : n = S (n - 1)) by lia.
  rewrite Hn' at 1. rewrite (take_S_r l (n - 1) y Hy).
  destruct (decide (j = n - 1)) as [->|Hne].
  - assert (y = p) by congruence. subst y.
    rewrite take_insert_ge by lia.
    symmetry. apply Permutation_cons_append.
  - rewrite take_insert_lt by lia.
    assert (Hp' : take (n - 1) l !! j = Some p)
      by (rewrite lookup_take_lt by lia; exact Hp).
    assert (Hlen : j < length (take (n - 1) l))
      by (rewrite length_take_le by lia; lia).
    rewrite <- Permutation_cons_append.
    set (t := take (n - 1) l) in *.
    transitivity (y :: p :: delete j t).
    { constructor. apply delete_Permutation. exact Hp'. }
    transitivity (p :: y :: delete j t); [ apply Permutation_swap | ].
    constructor. rewrite <- (delete_insert_same t j y). symmetry.
    apply delete_Permutation. apply list_lookup_insert_eq. exact Hlen.
Qed.

Lemma push_list_ok x :
  n < length l →
  push_list x l n = Some (<[n := x]> l, S n) ∧
  take (S n) (<[n := x]> l) = (take n l ++ [x])%list.
Proof.
  intros Hn. unfold push_list.
  destruct (Nat.ltb_spec n (length l)) as [_|?]; [ | lia ].
  split; [ reflexivity | ].
  rewrite (take_S_r _ n x) by (apply list_lookup_insert_eq; exact Hn).
  rewrite take_insert_ge by lia. reflexivity.
Qed.

End Table.

(** *** The bounded copy *)

Section Copy.
Import PosixC.

Lemma store_at (b : buffer) (i : Z) c :
  0 <= i < Z.of_nat (length b) →
  store b i c = Some (<[Z.to_nat i := c]> b).
Proof.
  intros H. unfold store.
  destruct (Z.leb_spec 0 i); [ | lia ].
  destruct (Z.ltb_spec i (Z.of_nat (length b))); [ | lia ].
  reflexivity.
Qed.

Lemma cstr_drop_cons (b : buffer) (p : nat) c :
  b !! p = Some c → c ≠ NUL →
  cstr (drop p b) = String c (cstr (drop (S p) b)).
Proof.
  intros Hb Hc. rewrite (drop_S b c p Hb). cbn [cstr].
  destruct (ascii_dec c NUL); [ contradiction | reflexivity ].
Qed.

Lemma cstr_drop_nul (b : buffer) (p : nat) :
  b !! p = Some NUL → cstr (drop p b) = EmptyString.
Proof.
  intros Hb. rewrite (drop_S b NUL p Hb). cbn [cstr].
  destruct (ascii_dec NUL NUL); [ reflexivity | contradiction ].
Qed.

(** The loop of [strncopy] with room for [k] more bytes before the last
    one: it returns 0 exactly when the string is shorter than [k], and the
    array then holds, from [p] on, the first [k] bytes of the string and a
    terminator; the bytes before [p] are untouched. *)
Lemma strncopy_loop_spec k : ∀ (b : buffer) (p : nat) s,
  no_nul s →
  (p + k < length b)%nat →
  ∃ b',
    strncopy_loop k b (Z.of_nat p) s =
      Some (if (String.length s <? k)%nat then 0 else ERANGE, b') ∧
    length b' = length b ∧
    (∀ i, (i < p)%nat → b' !! i = b !! i) ∧
    cstr (drop p b') = substring 0 k s.
Proof.
  induction k as [|k IH]; intros b p s Hs Hlen; cbn [strncopy_loop].
  - rewrite store_at by lia. cbn. rewrite Nat2Z.id.
    exists (<[p := NUL]> b). split; [ reflexivity | ].
    split; [ apply length_insert | ]. split.
    + intros i Hi. apply list_lookup_insert_ne. lia.
    + rewrite cstr_drop_nul by (apply list_lookup_insert_eq; lia).
      destruct s; reflexivity.
  - rewrite store_at by lia. cbn. rewrite Nat2Z.id.
    destruct s as [|c s']; cbn [deref advance].
    + destruct (ascii_dec NUL NUL) as [_|?]; [ | contradiction ].
      exists (<[p := NUL]> b). split; [ reflexivity | ].
      split; [ apply length_insert | ]. split.
      * intros i Hi. apply list_lookup_insert_ne. lia.
      * rewrite cstr_drop_nul by (apply list_lookup_insert_eq; lia).
        reflexivity.
    + destruct Hs as [Hc Hs].
      destruct (ascii_dec c NUL) as [?|_]; [ contradiction | ].
      destruct (IH (<[p := c]> b) (S p) s' Hs) as (b' & Hr & Hl & Hpre & Hstr).
      { rewrite length_insert. lia. }
      replace (Z.of_nat p + 1) with (Z.of_nat (S p)) by lia.
      exists b'. split; [ exact Hr | ].
      split; [ rewrite Hl; apply length_insert | ]. split.
      * intros i Hi. rewrite Hpre by lia. apply list_lookup_insert_ne. lia.
      * assert (Hp : b' !! p = Some c).
        { rewrite Hpre by lia. apply list_lookup_insert_eq. lia. }
        rewrite (cstr_drop_cons b' p c Hp Hc), Hstr. reflexivity.
Qed.

(** [strncopy] into an array of at least [n] bytes returns 0 exactly when
    the string and its terminator take fewer than [n] bytes; the array then
    holds the first [n - 1] bytes of the string, terminated. *)
Lemma strncopy_status (b : buffer) s n :
  no_nul s →
  1 <= n <= Z.of_nat (length b) →
  ∃ b',
    strncopy b 0 s n =
      Some (if Z.of_nat (String.length s) + 1 <? n then 0 else ERANGE, b') ∧
    cstr b' = substring 0 (Z.to_nat (n - 1)) s.
Proof.
  intros Hs Hn. unfold strncopy.
  destruct (strncopy_loop_spec (Z.to_nat (n - 1)) b 0 s Hs)
    as (b' & Hr & _ & _ & Hstr); [ lia | ].
  exists b'. split; [ | exact Hstr ].
  change (Z.of_nat 0) with 0 in Hr. rewrite Hr. do 2 f_equal.
  destruct (Nat.ltb_spec (String.length s) (Z.to_nat (n - 1)));
    destruct (Z.ltb_spec (Z.of_nat (String.length s) + 1) n);
    first [ reflexivity | lia ].
Qed.

(** C6 fails on the code: a string that fills the array together with its
    terminator is copied whole and terminated, and ERANGE is returned all
    the same; the next longer array gives 0. *)
Theorem strncopy_exact_fit :
  strncopy (replicate 3 "x"%char) 0 "ab" 3
    = Some (ERANGE, ["a"%char; "b"%char; NUL]) ∧
  strncopy (replicate 4 "x"%char) 0 "ab" 4
    = Some (0, ["a"%char; "b"%char; NUL; "x"%char]).
Proof. split; reflexivity. Qed.

End Copy.

(** *** Option strings *)

Section Options.
Import PosixC.

Lemma get_flags_loop_resolved p toks : ∀ f v,
  Forall (resolves p) toks →
  get_flags_loop p toks f v = (0, Z.lor f (or_all (map (flag_of p) toks))).
Proof.
  induction toks as [|tok toks IH]; intros f v H; cbn [get_flags_loop].
  - cbn. rewrite Z.lor_0_r. reflexivity.
  - apply Forall_cons in H as [Ht H].
    unfold resolves in Ht. cbn [map or_all foldr]. unfold flag_of at 1.
    destruct (_get_param p tok indeterminate) as [rc fl]. cbn in Ht. subst rc.
    cbn [Z.eqb negb snd]. rewrite (IH _ v H). fold (or_all (map (flag_of p) toks)).
    rewrite Z.lor_assoc. reflexivity.
Qed.

Lemma get_flags_loop_unresolved p toks : ∀ f v,
  Exists (λ tok, ¬ resolves p tok) toks →
  get_flags_loop p toks f v = (EINVAL, v).
Proof.
  induction toks as [|tok toks IH]; intros f v H; cbn [get_flags_loop].
  - apply Exists_nil in H. contradiction.
  - destruct (_get_param p tok indeterminate) as [rc fl] eqn:E.
    destruct (Z.eqb_spec rc 0) as [->|Hne]; cbn [negb]; [ | reflexivity ].
    apply IH. apply Exists_cons in H as [H|H]; [ | exact H ].
    exfalso. apply H. unfold resolves. rewrite E. reflexivity.
Qed.

(** The code's [strcasecmp] against the specification's equality of names
    up to case, byte by byte over all 256 * 256 pairs. *)
Lemma all_ascii_complete c : In c all_ascii.
Proof.
  unfold all_ascii. rewrite <- (ascii_nat_embedding c). apply in_map.
  apply in_seq. pose proof (nat_ascii_bounded c). lia.
Qed.

Lemma same_letter_tolower x y :
  spec_same_letter x y = if ascii_dec (tolower x) (tolower y) then true else false.
Proof.
  assert (H : forallb
                (λ x, forallb
                        (λ y, Bool.eqb (spec_same_letter x y)
                                (if ascii_dec (tolower x) (tolower y)
                                 then true else false))
                        all_ascii)
                all_ascii = true) by (vm_compute; reflexivity).
  rewrite forallb_forall in H. specialize (H x (all_ascii_complete x)).
  rewrite forallb_forall in H. specialize (H y (all_ascii_complete y)).
  apply Bool.eqb_prop in H. exact H.
Qed.

Lemma strcasecmp_same_name a : ∀ b, strcasecmp_eq a b = spec_same_name a b.
Proof.
  induction a as [|x a IH]; intros [|y b]; cbn; try reflexivity.
  rewrite same_letter_tolower.
  destruct (ascii_dec (tolower x) (tolower y)); cbn; [ apply IH | reflexivity ].
Qed.

(** [_get_param] finds the flag the specification names. *)
Lemma get_param_spec_flag p tok v :
  _get_param p tok v =
  match spec_flag p tok with
  | Some f => (0, f)
  | None => (-1, v)
  end.
Proof.
  induction p as [|e p IH]; cbn [_get_param spec_flag]; [ reflexivity | ].
  rewrite strcasecmp_same_name.
  destruct (spec_same_name (name e) tok); [ reflexivity | exact IH ].
Qed.

Lemma resolves_spec_flag p tok : resolves p tok ↔ spec_flag p tok ≠ None.
Proof.
  unfold resolves. rewrite get_param_spec_flag.
  destruct (spec_flag p tok); cbn; split; intros H;
    first [ discriminate | reflexivity | contradiction ].
Qed.

Lemma flag_of_spec_flag p tok : flag_of p tok = default 0 (spec_flag p tok).
Proof.
  unfold flag_of. rewrite get_param_spec_flag.
  destruct (spec_flag p tok); reflexivity.
Qed.

(** The tokens of [strtok] are the entries that are not empty. *)
Lemma nonempty_rev cur :
  nonempty (string_of_list_ascii (rev cur)) =
  match cur with [] => false | _ => true end.
Proof.
  destruct cur as [|c cur]; [ reflexivity | ]. cbn [rev].
  destruct (rev cur); reflexivity.
Qed.

Lemma strtok_from_entries d s : ∀ cur,
  strtok_from d s cur = List.filter nonempty (spec_split d s cur).
Proof.
  induction s as [|c s IH]; intros cur; cbn [strtok_from spec_split].
  - cbn [List.filter]. rewrite nonempty_rev. destruct cur; reflexivity.
  - destruct (ascii_dec c d); [ | apply IH ].
    cbn [List.filter]. rewrite nonempty_rev, <- IH. destruct cur; reflexivity.
Qed.

Lemma strtok_all_entries nm : strtok_all list_delimiter nm = entries nm.
Proof. apply strtok_from_entries. Qed.

Lemma or_all_perm l1 l2 : l1 ≡ₚ l2 → or_all l1 = or_all l2.
Proof.
  induction 1 as [|x l1 l2 _ IH|x y l|l1 l2 l3 _ IH1 _ IH2]; cbn.
  - reflexivity.
  - unfold or_all in IH. rewrite IH. reflexivity.
  - rewrite !Z.lor_assoc, (Z.lor_comm y x). reflexivity.
  - congruence.
Qed.

End Options.

Section ShimTheory.
Import PosixC.
Context {L : Libc}.

(** *** The monad *)

Lemma bind_done {A B} (m : M A) (f : A → M B) s a s1 :
  m s = Done a s1 → (m ≫= f) s = f a s1.
Proof. intros H. unfold mbind, M_bind. rewrite H. reflexivity. Qed.

Lemma bind_inv {A B} (m : M A) (f : A → M B) s b s' :
  (m ≫= f) s = Done b s' → ∃ a s1, m s = Done a s1 ∧ f a s1 = Done b s'.
Proof.
  unfold mbind, M_bind. destruct (m s) as [a s1| |]; try discriminate.
  intros H. exists a, s1. split; [ reflexivity | exact H ].
Qed.

Lemma keeps_ret {A} (a : A) : keeps_dirs (mret a).
Proof. intros s b s' H. injection H as _ <-. split; reflexivity. Qed.

Lemma keeps_bind {A B} (m : M A) (f : A → M B) :
  keeps_dirs m → (∀ a, keeps_dirs (f a)) → keeps_dirs (m ≫= f).
Proof.
  intros Hm Hf s b s' H.
  destruct (bind_inv _ _ _ _ _ H) as (a & s1 & H1 & H2).
  destruct (Hm _ _ _ H1) as [E1 E2]. destruct (Hf _ _ _ _ H2) as [E3 E4].
  split; congruence.
Qed.

Lemma keeps_get_errno : keeps_dirs get_errno.
Proof. intros s b s' H. injection H as _ <-. split; reflexivity. Qed.

Lemma keeps_set_errno e : keeps_dirs (set_errno e).
Proof. intros s b s' H. injection H as _ <-. split; reflexivity. Qed.

Lemma keeps_sys c : keeps_dirs (sys c).
Proof.
  intros s b s'. unfold sys. destruct (native c (world s)) as [[r e] w].
  intros H. injection H as _ <-. split; reflexivity.
Qed.

Lemma keeps_mem {A} (o : option A) : keeps_dirs (mem o).
Proof.
  intros s b s'. unfold mem. destruct o; [ | discriminate ].
  intros H. injection H as _ <-. split; reflexivity.
Qed.

Lemma keeps_check_argc {A} argc x (d : A) k :
  keeps_dirs k → keeps_dirs (check_argc argc x d k).
Proof.
  intros Hk. unfold check_argc. destruct (negb (argc =? x)).
  - apply keeps_ret.
  - exact Hk.
Qed.

Lemma check_argc_same {A} x (d : A) k : check_argc x x d k = k.
Proof. unfold check_argc. rewrite Z.eqb_refl. reflexivity. Qed.

Lemma check_argc_other {A} argc x (d : A) k :
  argc ≠ x → check_argc argc x d k = mret d.
Proof.
  intros H. unfold check_argc.
  destruct (Z.eqb_spec argc x); [ contradiction | reflexivity ].
Qed.

Lemma keeps_out_of_fuel {A} : keeps_dirs (λ _ : State, @OutOfFuel L A).
Proof. intros s b s' H. discriminate H. Qed.

(** Splits a computation along its binds and case distinctions. *)
Ltac keeps :=
  repeat first
    [ apply keeps_ret | apply keeps_get_errno | apply keeps_set_errno
    | match goal with |- keeps_dirs (sys ?c) => exact (keeps_sys c) end
    | apply keeps_mem | apply keeps_out_of_fuel
    | apply keeps_check_argc
    | apply keeps_bind; [ | intros ? ]
    | match goal with
      | |- keeps_dirs (match ?x with _ => _ end) => destruct x
      end ].

Lemma keeps_getgrouplist_loop fuel nm found list p l :
  keeps_dirs (getgrouplist_loop fuel nm found list p l).
Proof.
  revert found list p l.
  induction fuel as [|fuel IH]; intros found list p l; cbn [getgrouplist_loop].
  - apply keeps_out_of_fuel.
  - keeps. apply IH.
Qed.

(** Every operation but the three on directory streams leaves the table
    alone. *)
Lemma keeps_exec fuel argc r :
  match r with
  | r_opendir _ _ | r_readdir _ _ | r_closedir _ => True
  | _ => keeps_dirs (exec fuel argc r)
  end.
Proof.
  destruct r; try exact I; cbn [exec]; unfold out, no_out;
    unfold posix_time, posix_clock_gettime, posix_clock_getres,
      _posix_clock_get, posix_localtime, posix_gmtime, _posix_time,
      posix_mktime, posix_strftime, posix_times, posix_sysinfo, posix_uname,
      posix_setenv, posix_unsetenv, posix_openlog, posix_syslog, posix_umask,
      posix_stat, posix_lstat, _posix_stat, posix_readlink, posix_link,
      posix_symlink, _posix_link, posix_unlink, posix_mkdir, posix_rmdir,
      posix_chmod, posix_chown, posix_lchown, _posix_chown, posix_getpwnam,
      posix_getpwuid, _posix_getpw, posix_getgrnam, posix_getgrgid,
      _posix_getgr, posix_getgrouplist, clear_errno;
    keeps.
  apply keeps_getgrouplist_loop.
Qed.

(** *** Bounded copies never leave the array they are given room in *)

Lemma strncopy_loop_total k : ∀ (b : buffer) p s,
  0 <= p → p + Z.of_nat k < Z.of_nat (length b) →
  ∃ rc b', strncopy_loop k b p s = Some (rc, b') ∧ length b' = length b.
Proof.
  induction k as [|k IH]; intros b p s Hp Hlen; cbn [strncopy_loop].
  - rewrite store_at by lia. cbn. eexists _, _. split; [ reflexivity | ].
    apply length_insert.
  - rewrite store_at by lia. cbn.
    destruct (ascii_dec (deref s) NUL).
    + eexists _, _. split; [ reflexivity | ]. apply length_insert.
    + destruct (IH (<[Z.to_nat p := deref s]> b) (p + 1) (advance s))
        as (rc & b' & Hr & Hl); [ lia | rewrite length_insert; lia | ].
      exists rc, b'. split; [ exact Hr | ].
      rewrite Hl. apply length_insert.
Qed.

Lemma strncopy_total (b : buffer) s n :
  1 <= n <= Z.of_nat (length b) →
  ∃ rc b', strncopy b 0 s n = Some (rc, b') ∧ length b' = length b.
Proof.
  intros H. unfold strncopy. apply strncopy_loop_total; lia.
Qed.

(** *** The three operations on directory streams *)

Lemma state_eta (s : State) :
  mkState (errno s) (dir_list s) (dir_count s) (calls s) (world s) = s.
Proof. destruct s; reflexivity. Qed.

Lemma table_ok_le s : table_ok s → (dir_count s ≤ length (dir_list s))%nat.
Proof. intros [H1 H2]. rewrite H1. exact H2. Qed.

Lemma is_dir_absent x rm s :
  table_ok s → x ∉ handles s → is_dir x rm s = Done 0 s.
Proof.
  intros Hok Hx. unfold is_dir.
  rewrite in_list_absent by (try apply table_ok_le; assumption).
  rewrite state_eta. reflexivity.
Qed.

Lemma is_dir_keep x s :
  table_ok s → x ∈ handles s → is_dir x false s = Done 1 s.
Proof.
  intros Hok Hx. unfold is_dir.
  rewrite in_list_keep by (try apply table_ok_le; assumption).
  rewrite state_eta. reflexivity.
Qed.

Lemma is_dir_remove x s :
  table_ok s → x ∈ handles s →
  ∃ s', is_dir x true s = Done 1 s' ∧
    handles s ≡ₚ x :: handles s' ∧
    dir_count s' = (dir_count s - 1)%nat ∧
    length (dir_list s') = length (dir_list s) ∧
    errno s' = errno s ∧ calls s' = calls s ∧ world s' = world s.
Proof.
  intros Hok Hx. unfold is_dir.
  destruct (in_list_remove x (dir_list s) (dir_count s) (table_ok_le s Hok) Hx)
    as (j & y & Hj & Hp & Hy & Hr).
  rewrite Hr. eexists. split; [ reflexivity | ]. cbn.
  split; [ | split; [ reflexivity | split; [ apply length_insert | auto ] ] ].
  unfold handles. cbn.
  apply take_swap_remove; try assumption. apply table_ok_le, Hok.
Qed.

Lemma opendir_value path d s :
  posix_opendir 2 path d s =
  if (dir_limit <=? dir_count s)%nat then Done (EMFILE, d) s
  else
    let '(b, e, w) := native (c_opendir path) (world s) in
    if b =? 0 then
      Done (default 0 e, d)
        (mkState (default 0 e) (dir_list s) (dir_count s)
           (calls s ++ [c_opendir path]) w)
    else
      match push_list b (dir_list s) (dir_count s) with
      | Some (l, n) =>
          Done (default 0 e, b)
            (mkState (default 0 e) l n (calls s ++ [c_opendir path]) w)
      | None => Fault
      end.
Proof.
  unfold posix_opendir. rewrite check_argc_same.
  unfold check_dir, mbind, M_bind, get_dir_count, clear_errno, set_errno, sys,
    push_dir,
    get_errno, mret, M_ret. cbn.
  destruct (dir_limit <=? dir_count s)%nat; [ reflexivity | ].
  destruct (native (c_opendir path) (world s)) as [[b e] w]. cbn.
  destruct (b =? 0); cbn; [ reflexivity | ].
  destruct (push_list b (dir_list s) (dir_count s)) as [[l n]|]; reflexivity.
Qed.

Lemma in_list_from_false k : ∀ i p l n r l' n',
  in_list_from k i p l n false = Some (r, l', n') → l' = l ∧ n' = n.
Proof.
  induction k as [|k IH]; intros i p l n r l' n'; cbn [in_list_from].
  - intros H. injection H as _ <- <-. split; reflexivity.
  - destruct (l !! i) as [x|]; cbn; [ | discriminate ].
    destruct (x =? p).
    + intros H. injection H as _ <- <-. split; reflexivity.
    + apply IH.
Qed.

Lemma keeps_is_dir_false x : keeps_dirs (is_dir x false).
Proof.
  intros s a s'. unfold is_dir, in_list.
  destruct (in_list_from _ _ _ _ _ _) as [[[r l] n]|] eqn:E; [ | discriminate ].
  apply in_list_from_false in E as [-> ->].
  intros H. injection H as _ <-. split; reflexivity.
Qed.

(** Reading never changes the table, whatever the arguments. *)
Lemma keeps_readdir argc dir nm : keeps_dirs (posix_readdir argc dir nm).
Proof.
  unfold posix_readdir, clear_errno. keeps. apply keeps_is_dir_false.
Qed.

Lemma readdir_absent dir nm s :
  table_ok s → dir ∉ handles s → (0 < length nm)%nat →
  posix_readdir 2 dir nm s = Done (EINVAL, <[0%nat := NUL]> nm) s.
Proof.
  intros Hok Hdir Hnm. unfold posix_readdir. rewrite check_argc_same.
  rewrite (bind_done _ _ s (<[0%nat := NUL]> nm) s)
    by (unfold mem; rewrite store_at by lia; reflexivity).
  rewrite (bind_done _ _ s 0 s) by (apply is_dir_absent; assumption).
  reflexivity.
Qed.

Lemma readdir_present dir nm s :
  table_ok s → dir ∈ handles s → length nm = 256%nat →
  ∃ rc nm' s',
    posix_readdir 2 dir nm s = Done (rc, nm') s' ∧
    handles s' = handles s ∧
    calls s' = (calls s ++ [c_readdir dir])%list.
Proof.
  intros Hok Hdir Hnm. unfold posix_readdir. rewrite check_argc_same.
  rewrite (bind_done _ _ s (<[0%nat := NUL]> nm) s)
    by (unfold mem; rewrite store_at by lia; reflexivity).
  rewrite (bind_done _ _ s 1 s) by (apply is_dir_keep; assumption).
  cbn [Z.eqb].
  unfold mbind, M_bind, clear_errno, set_errno, sys, get_errno, mret, M_ret.
  cbn [errno dir_list dir_count calls world].
  destruct (native (c_readdir dir) (world s)) as [[[d_name|] e] w].
  - destruct (strncopy_total (<[0%nat := NUL]> nm) d_name 256) as (rc & b' & Hc & _).
    { rewrite length_insert, Hnm. lia. }
    unfold mem. rewrite Hc.
    destruct (negb (rc =? 0)); eexists _, _, _; (split; [ reflexivity | ]);
      split; reflexivity.
  - eexists _, _, _. split; [ reflexivity | ]. split; reflexivity.
Qed.

Lemma closedir_absent dir s :
  table_ok s → dir ∉ handles s → posix_closedir 1 dir s = Done EINVAL s.
Proof.
  intros Hok Hdir. unfold posix_closedir. rewrite check_argc_same.
  rewrite (bind_done _ _ s 0 s) by (apply is_dir_absent; assumption).
  reflexivity.
Qed.

Lemma closedir_present dir s :
  table_ok s → dir ∈ handles s →
  ∃ rc s',
    posix_closedir 1 dir s = Done rc s' ∧
    handles s ≡ₚ dir :: handles s' ∧
    table_ok s' ∧
    calls s' = (calls s ++ [c_closedir dir])%list.
Proof.
  intros Hok Hdir. unfold posix_closedir. rewrite check_argc_same.
  destruct (is_dir_remove dir s Hok Hdir)
    as (s1 & Hr & Hperm & Hcount & Hlen & He & Hc & Hw).
  rewrite (bind_done _ _ s 1 s1) by exact Hr. cbn [Z.eqb].
  unfold mbind, M_bind, sys, get_errno.
  destruct (native (c_closedir dir) (world s1)) as [[r e] w].
  eexists _, _. split; [ reflexivity | ].
  split; [ exact Hperm | ]. split.
  - destruct Hok as [H1 H2]. split; cbn; [ congruence | lia ].
  - cbn. rewrite Hc. reflexivity.
Qed.

(** What a close can do to the table, whatever the arguments. *)
Lemma closedir_table argc dir s v s' :
  table_ok s →
  posix_closedir argc dir s = Done v s' →
  (dir_list s' = dir_list s ∧ dir_count s' = dir_count s) ∨
  (handles s ≡ₚ dir :: handles s' ∧
   length (dir_list s') = length (dir_list s) ∧
   (dir_count s' ≤ dir_count s)%nat).
Proof.
  intros Hok. unfold posix_closedir, check_argc.
  destruct (negb (argc =? 1)).
  { intros H. injection H as _ <-. left. split; reflexivity. }
  destruct (decide (dir ∈ handles s)) as [Hin|Hout].
  - destruct (is_dir_remove dir s Hok Hin)
      as (s1 & Hr & Hperm & Hcount & Hlen & He & Hc & Hw).
    rewrite (bind_done _ _ s 1 s1) by exact Hr. cbn [Z.eqb].
    unfold mbind, M_bind, sys, get_errno.
    destruct (native (c_closedir dir) (world s1)) as [[r e] w].
    intros H. injection H as _ <-. right. cbn.
    split; [ exact Hperm | ]. split; [ exact Hlen | lia ].
  - rewrite (bind_done _ _ s 0 s) by (apply is_dir_absent; assumption).
    cbn [Z.eqb]. intros H. injection H as _ <-. left. split; reflexivity.
Qed.

(** What an open can do to the table, whatever the arguments. *)
Lemma opendir_table argc path d s v s' :
  table_ok s →
  posix_opendir argc path d s = Done v s' →
  (dir_list s' = dir_list s ∧ dir_count s' = dir_count s) ∨
  ((dir_count s < dir_limit)%nat ∧
   handles s' = (handles s ++ [(native (c_opendir path) (world s)).1.1])%list ∧
   length (dir_list s') = length (dir_list s) ∧
   dir_count s' = S (dir_count s)).
Proof.
  intros Hok. destruct (Z.eqb_spec argc 2) as [->|Hne].
  - rewrite opendir_value.
    destruct (Nat.leb_spec dir_limit (dir_count s)) as [Hfull|Hroom].
    { intros H. injection H as _ <-. left. split; reflexivity. }
    destruct (native (c_opendir path) (world s)) as [[b e] w]. cbn [fst].
    destruct (b =? 0).
    { intros H. injection H as _ <-. left. split; reflexivity. }
    destruct (push_list_ok (dir_list s) (dir_count s) b) as [Hp Ht].
    { destruct Hok as [-> _]. exact Hroom. }
    rewrite Hp. intros H. injection H as _ <-. right. unfold handles. cbn.
    split; [ exact Hroom | ]. split; [ exact Ht | ].
    split; [ apply length_insert | reflexivity ].
  - unfold posix_opendir, check_argc.
    destruct (Z.eqb_spec argc 2) as [?|_]; [ contradiction | ]. cbn [negb].
    intros H. injection H as _ <-. left. split; reflexivity.
Qed.

(** *** Invariants of the reachable states *)

Lemma out_inv {A} (f : A → Request) (m : M (Z * A)) s v r' s' :
  out f m s = Done (v, r') s' → ∃ a, m s = Done (v, a) s' ∧ r' = f a.
Proof.
  unfold out. intros H.
  destruct (bind_inv _ _ _ _ _ H) as ([rc a] & s1 & H1 & H2).
  injection H2 as -> <- ->. exists a. split; [ exact H1 | reflexivity ].
Qed.

Lemma no_out_inv (r : Request) (m : M Z) s v r' s' :
  no_out r m s = Done (v, r') s' → m s = Done v s' ∧ r' = r.
Proof.
  unfold no_out. intros H.
  destruct (bind_inv _ _ _ _ _ H) as (rc & s1 & H1 & H2).
  injection H2 as -> <- ->. split; [ exact H1 | reflexivity ].
Qed.

(** What a call can do to the table. *)
Lemma exec_table fuel argc r s v r' s' :
  table_ok s →
  exec fuel argc r s = Done (v, r') s' →
  (dir_list s' = dir_list s ∧ dir_count s' = dir_count s) ∨
  (length (dir_list s') = length (dir_list s) ∧
   ((∃ path d, r = r_opendir path d ∧ (dir_count s < dir_limit)%nat ∧
      dir_count s' = S (dir_count s) ∧
      handles s' =
        (handles s ++ [(native (c_opendir path) (world s)).1.1])%list) ∨
    (∃ dir, r = r_closedir dir ∧ (dir_count s' ≤ dir_count s)%nat ∧
      handles s ≡ₚ dir :: handles s'))).
Proof.
  intros Hok H.
  pose proof (keeps_exec fuel argc r) as K.
  destruct r; try (left; exact (K _ _ _ H)); cbn [exec] in H.
  - apply out_inv in H as (a & H & _).
    destruct (opendir_table _ _ _ _ _ _ Hok H) as [E|(H1 & H2 & H3 & H4)];
      [ left; exact E | right ].
    split; [ exact H3 | left ]. eauto 10.
  - apply out_inv in H as (a & H & _).
    left. exact (keeps_readdir _ _ _ _ _ _ H).
  - apply no_out_inv in H as (H & _).
    destruct (closedir_table _ _ _ _ _ Hok H) as [E|(H1 & H2 & H3)];
      [ left; exact E | right ].
    split; [ exact H2 | right ]. eauto.
Qed.

Lemma exec_table_ok fuel argc r s v r' s' :
  table_ok s → exec fuel argc r s = Done (v, r') s' → table_ok s'.
Proof.
  intros Hok H. pose proof Hok as [H1 H2].
  destruct (exec_table _ _ _ _ _ _ _ Hok H)
    as [[E1 E2]|[E [(p & d & _ & Hlt & Hc & _)|(dir & _ & Hle & _)]]];
    split; try congruence; lia.
Qed.

Lemma initial_table_ok e w : table_ok (initial e w).
Proof. split; cbn; [ apply length_replicate | lia ]. Qed.

Lemma reachable_table_ok s : reachable s → table_ok s.
Proof.
  induction 1 as [e w|s fuel argc r v r' s' _ IH H].
  - apply initial_table_ok.
  - exact (exec_table_ok _ _ _ _ _ _ _ IH H).
Qed.

Lemma tracked_reachable s : tracked s → reachable s.
Proof.
  induction 1 as [e w|s fuel argc r v r' s' _ IH _ H].
  - constructor.
  - exact (reachable_exec _ _ _ _ _ _ _ IH H).
Qed.

Lemma same_handles s s' :
  dir_list s' = dir_list s ∧ dir_count s' = dir_count s →
  handles s' = handles s.
Proof. intros [E1 E2]. unfold handles. rewrite E1, E2. reflexivity. Qed.

(** On a native layer that hands out fresh addresses the open-handle set
    holds no address twice. *)
Lemma tracked_NoDup s : tracked s → NoDup (handles s).
Proof.
  induction 1 as [e w|s fuel argc r v r' s' Ht IH Hfresh H].
  - unfold handles. cbn. constructor.
  - pose proof (reachable_table_ok _ (tracked_reachable _ Ht)) as Hok.
    destruct (exec_table _ _ _ _ _ _ _ Hok H)
      as [E|[_ [(p & d & -> & _ & _ & Hh)|(dir & _ & _ & Hperm)]]].
    + rewrite (same_handles _ _ E). exact IH.
    + rewrite Hh. cbn in Hfresh. apply NoDup_app. split; [ exact IH | ].
      split; [ | apply NoDup_singleton ].
      intros x Hx Hx'. apply list_elem_of_singleton in Hx'. subst x.
      exact (Hfresh Hx).
    + rewrite Hperm in IH. apply NoDup_cons in IH as [_ IH]. exact IH.
Qed.

Lemma run_reachable fuel rs : ∀ s s',
  reachable s → run fuel rs s = Done () s' → reachable s'.
Proof.
  induction rs as [|[argc r] rs IH]; intros s s' Hs; cbn [run].
  - intros H. injection H as <-. exact Hs.
  - intros H. destruct (bind_inv _ _ _ _ _ H) as ([v r'] & s1 & H1 & H2).
    apply (IH s1); [ | exact H2 ].
    exact (reachable_exec _ _ _ _ _ _ _ Hs H1).
Qed.

(** C7.  In every state [s] the process reaches by any sequence of calls
    (on a native layer that never hands out the address of a stream still
    open), with or without open handles: an open puts the address the
    native open returns into the set and into the handle slot exactly
    when the table has room and the native open succeeds, and leaves both
    as they were otherwise; for every handle [h] in the open-handle set,
    a read of [h] calls the native read and leaves the set as it is, and
    a close of [h] calls the native close and takes [h], and nothing
    else, out of the set, after which a second close and a read of [h]
    fail with EINVAL in an unchanged state; for every value [x] that is
    not in the set, a read and a close of [x] fail with EINVAL in an
    unchanged state, so without any native call. *)
Theorem dir_handle_state_machine s path d (nm : buffer) :
  tracked s →
  length nm = 256%nat →
  (∃ e s',
     posix_opendir 2 path d s =
       Done (e, if (dir_limit <=? dir_count s)%nat
                   || ((native (c_opendir path) (world s)).1.1 =? 0)
                then d else (native (c_opendir path) (world s)).1.1) s' ∧
     handles s' =
       if (dir_limit <=? dir_count s)%nat
          || ((native (c_opendir path) (world s)).1.1 =? 0)
       then handles s
       else (handles s ++ [(native (c_opendir path) (world s)).1.1])%list) ∧
  (∀ h, h ∈ handles s →
     (∃ rc nm' s',
        posix_readdir 2 h nm s = Done (rc, nm') s' ∧
        handles s' = handles s ∧
        calls s' = (calls s ++ [c_readdir h])%list) ∧
     (∃ rc s',
        posix_closedir 1 h s = Done rc s' ∧
        (h ∉ handles s') ∧
        handles s ≡ₚ h :: handles s' ∧
        calls s' = (calls s ++ [c_closedir h])%list ∧
        posix_closedir 1 h s' = Done EINVAL s' ∧
        posix_readdir 2 h nm s' = Done (EINVAL, <[0%nat := NUL]> nm) s')) ∧
  (∀ x, x ∉ handles s →
     posix_readdir 2 x nm s = Done (EINVAL, <[0%nat := NUL]> nm) s ∧
     posix_closedir 1 x s = Done EINVAL s).
Proof.
  intros Ht Hnm.
  pose proof (reachable_table_ok _ (tracked_reachable _ Ht)) as Hok.
  pose proof (tracked_NoDup _ Ht) as Hnd.
  split; [ | split ].
  - rewrite opendir_value.
    destruct (Nat.leb_spec dir_limit (dir_count s)) as [Hfull|Hroom]; cbn [orb].
    { eexists _, _. split; reflexivity. }
    destruct (native (c_opendir path) (world s)) as [[b e] w]. cbn [fst].
    destruct (b =? 0).
    { eexists _, _. split; reflexivity. }
    destruct (push_list_ok (dir_list s) (dir_count s) b) as [Hp Htake].
    { destruct Hok as [-> _]. exact Hroom. }
    rewrite Hp. eexists _, _. split; [ reflexivity | exact Htake ].
  - intros h Hh. split.
    + apply readdir_present; assumption.
    + destruct (closedir_present h s Hok Hh)
        as (rc & s' & Hc & Hperm & Hok' & Hcalls).
      assert (Hout : h ∉ handles s').
      { rewrite Hperm in Hnd. apply NoDup_cons in Hnd as [Hout _]. exact Hout. }
      exists rc, s'. split; [ exact Hc | ]. split; [ exact Hout | ].
      split; [ exact Hperm | ]. split; [ exact Hcalls | ]. split.
      * apply closedir_absent; assumption.
      * apply readdir_absent; [ assumption .. | lia ].
  - intros x Hx. split.
    + apply readdir_absent; [ assumption .. | lia ].
    + apply closedir_absent; assumption.
Qed.

(** C8.  In every state the process reaches the open-handle set holds at
    most 256 handles; when it holds 256, an open fails with EMFILE in an
    unchanged state, so without calling the native [opendir]. *)
Theorem dir_limit_enforced s path d :
  reachable s →
  (length (handles s) ≤ 256)%nat ∧
  length (handles s) = dir_count s ∧
  ((256 ≤ length (handles s))%nat →
   posix_opendir 2 path d s = Done (EMFILE, d) s).
Proof.
  intros Hs. pose proof (reachable_table_ok _ Hs) as Hok.
  assert (Hlen : length (handles s) = dir_count s).
  { unfold handles. apply length_take_le. apply table_ok_le, Hok. }
  destruct Hok as [H1 H2]. change dir_limit with 256%nat in H2.
  split; [ lia | ]. split; [ exact Hlen | ].
  intros Hfull. rewrite opendir_value.
  destruct (Nat.leb_spec dir_limit (dir_count s)) as [_|Hroom];
    [ reflexivity | ].
  change dir_limit with 256%nat in Hroom. lia.
Qed.

(** *** The arity check *)

Lemma out_ret {A} (f : A → Request) (v : Z) (a : A) (s : State) :
  out f (mret (v, a)) s = Done (v, f a) s.
Proof. reflexivity. Qed.

Lemma no_out_ret (r : Request) (v : Z) (s : State) :
  no_out r (mret v) s = Done (v, r) s.
Proof. reflexivity. Qed.

(** C3, as amended.  Every exposed operation that starts with the arity
    check (all but [posix_time] and [posix_getgrouplist]), called with an
    argument count other than its arity, returns ENODATA and leaves the
    whole state and every slot as they were: no native call is made and
    [errno] is not touched. *)
Theorem arity_mismatch_enodata fuel argc r s :
  has_check_argc r = true →
  argc ≠ arity r →
  exec fuel argc r s = Done (ENODATA, r) s.
Proof.
  intros Hc Hne.
  destruct r; try discriminate Hc; cbn [arity] in Hne; cbn [exec];
    unfold posix_clock_gettime, posix_clock_getres, _posix_clock_get,
      posix_localtime, posix_gmtime, _posix_time, posix_mktime,
      posix_strftime, posix_times, posix_sysinfo, posix_uname, posix_setenv,
      posix_unsetenv, posix_openlog, posix_syslog, posix_umask, posix_stat,
      posix_lstat, _posix_stat, posix_readlink, posix_link, posix_symlink,
      _posix_link, posix_unlink, posix_mkdir, posix_rmdir, posix_chmod,
      posix_chown, posix_lchown, _posix_chown, posix_getpwnam,
      posix_getpwuid, _posix_getpw, posix_getgrnam, posix_getgrgid,
      _posix_getgr, posix_opendir, posix_readdir, posix_closedir;
    rewrite check_argc_other by exact Hne;
    first [ apply out_ret | apply no_out_ret ].
Qed.


(** *** Running an operation step by step *)

Lemma bind_ret {A B} (a : A) (f : A → M B) s : (mret a ≫= f) s = f a s.
Proof. reflexivity. Qed.

Lemma bind_set_errno {B} e (f : unit → M B) s :
  (set_errno e ≫= f) s =
  f () (mkState e (dir_list s) (dir_count s) (calls s) (world s)).
Proof. reflexivity. Qed.

Lemma bind_get_errno {B} (f : Z → M B) s : (get_errno ≫= f) s = f (errno s) s.
Proof. reflexivity. Qed.

Lemma bind_sys {B} c (f : res c → M B) s :
  (sys c ≫= f) s =
  f (native c (world s)).1.1
    (mkState (default (errno s) (native c (world s)).1.2) (dir_list s)
       (dir_count s) (calls s ++ [c]) (native c (world s)).2).
Proof.
  unfold mbind, M_bind, sys.
  destruct (native c (world s)) as [[r e] w]. reflexivity.
Qed.

Lemma bind_mem_store {B} (b : buffer) (f : buffer → M B) s :
  has_room b → (mem (store b 0 NUL) ≫= f) s = f (<[0%nat := NUL]> b) s.
Proof.
  intros H. unfold has_room in H. unfold mbind, M_bind, mem.
  rewrite store_at by lia. reflexivity.
Qed.

Lemma bind_mem_any {A B} (o : option A) (a : A) (f : A → M B) s :
  o = Some a → (mem o ≫= f) s = f a s.
Proof. intros ->. reflexivity. Qed.

Lemma empty_after_store (b : buffer) :
  has_room b → is_empty_string (<[0%nat := NUL]> b).
Proof. intros H. apply list_lookup_insert_eq. exact H. Qed.

Ltac mstep :=
  repeat first
    [ rewrite check_argc_same
    | rewrite bind_set_errno
    | rewrite bind_get_errno
    | match goal with
      | |- (sys ?c ≫= ?f) ?s = _ =>
          etransitivity; [ exact (bind_sys c f s) | ]
      end
    | rewrite bind_ret
    | rewrite bind_mem_store by assumption
    | progress cbn [errno dir_list dir_count calls world] ].

(** *** Failure of the native call *)

(** *** The symbolic link reader *)

Lemma write_bytes_total w : ∀ (b : buffer) (p : nat),
  (p + String.length w ≤ length b)%nat →
  ∃ b', write_bytes b (Z.of_nat p) w = Some b' ∧ length b' = length b.
Proof.
  induction w as [|c w IH]; intros b p H; cbn [write_bytes].
  - exists b. split; reflexivity.
  - cbn [String.length] in H. rewrite store_at by lia. cbn.
    replace (Z.of_nat p + 1) with (Z.of_nat (S p)) by lia.
    destruct (IH (<[Z.to_nat (Z.of_nat p) := c]> b) (S p)) as (b' & Hw & Hl).
    { rewrite length_insert. lia. }
    exists b'. split; [ exact Hw | ]. rewrite Hl. apply length_insert.
Qed.

Lemma length_substring_le n : ∀ w, (String.length (substring 0 n w) ≤ n)%nat.
Proof.
  induction n as [|n IH]; intros [|c w]; cbn; try lia.
  specialize (IH w). lia.
Qed.

(** When the native [readlink] succeeds, the terminator is stored inside
    a 1024-byte array, right after the bytes of the link. *)
Lemma readlink_success_in_bounds path (nm : buffer) s w :
  (native (c_readlink path 1023) (world s)).1.1 = Some w →
  length nm = 1024%nat →
  ∃ e nm' s',
    posix_readlink 2 path nm s = Done (e, nm') s' ∧
    (String.length (substring 0 1023 w) < length nm')%nat ∧
    nm' !! String.length (substring 0 1023 w) = Some NUL.
Proof.
  intros H Hnm.
  pose proof (length_substring_le 1023 w) as Hw.
  destruct (write_bytes_total (substring 0 1023 w) nm 0) as (b' & Hb & Hl);
    [ lia | ].
  change (Z.of_nat 0) with 0 in Hb.
  eexists _, _, _. split.
  - unfold posix_readlink, clear_errno. mstep. rewrite H.
    rewrite Hb. cbn [mbind option_bind].
    unfold mbind at 1, M_bind at 1, mem at 1.
    rewrite bind_mem_any with (a := <[String.length (substring 0 1023 w) := NUL]> b').
    + mstep. reflexivity.
    + rewrite store_at by lia. rewrite Nat2Z.id. reflexivity.
  - rewrite length_insert.
    split; [ lia | apply list_lookup_insert_eq; lia ].
Qed.

(** When the native [readlink] fails, the terminator is stored at index -1:
    outside the array, whatever its capacity. *)
Lemma readlink_failure_out_of_bounds path (nm : buffer) s :
  (native (c_readlink path 1023) (world s)).1.1 = None →
  posix_readlink 2 path nm s = Fault.
Proof.
  intros H. unfold posix_readlink. rewrite check_argc_same.
  unfold mbind, M_bind, clear_errno, set_errno, sys.
  cbn [errno dir_list dir_count calls world].
  destruct (native (c_readlink path 1023) (world s)) as [[r e] w].
  cbn in H. subst r. reflexivity.
Qed.

Lemma out_done {A} (f : A → Request) (m : M (Z * A)) s v a s' :
  m s = Done (v, a) s' → out f m s = Done (v, f a) s'.
Proof. intros H. unfold out. rewrite (bind_done _ _ _ _ _ H). reflexivity. Qed.

(** What the output slots hold when the native call of an operation
    fails, operation by operation: zeros and empty strings for
    [clock_gettime], [clock_getres], [localtime], [gmtime], [times],
    [uname], the four password and group lookups and [readdir]; what the
    caller had left in them for [sysinfo], [stat], [lstat] and
    [opendir]. *)
Lemma native_failure_slots fuel r s :
  slots_ok r →
  native_fails r s →
  ∃ e r' s',
    exec fuel (arity r) r s = Done (e, r') s' ∧ failure_outcome r r'.
Proof.
  intros Hslots Hfail.
  destruct r; cbn [native_fails] in Hfail; try contradiction;
    cbn [slots_ok] in Hslots; cbn [exec arity failure_outcome].
  - (* clock_gettime *)
    destruct Hfail as (clk & Hp & Hn).
    eexists _, _, _. split; [ apply out_done | ].
    + unfold posix_clock_gettime, _posix_clock_get, clear_errno.
      rewrite check_argc_same, Hp. cbn [Z.eqb negb]. mstep. rewrite Hn.
      reflexivity.
    + reflexivity.
  - (* clock_getres *)
    destruct Hfail as (clk & Hp & Hn).
    eexists _, _, _. split; [ apply out_done | ].
    + unfold posix_clock_getres, _posix_clock_get, clear_errno.
      rewrite check_argc_same, Hp. cbn [Z.eqb negb]. mstep. rewrite Hn.
      reflexivity.
    + reflexivity.
  - (* localtime *)
    eexists _, _, _. split; [ apply out_done | ].
    + unfold posix_localtime, _posix_time, clear_errno. mstep.
      rewrite Hfail. mstep. reflexivity.
    + reflexivity.
  - (* gmtime *)
    eexists _, _, _. split; [ apply out_done | ].
    + unfold posix_gmtime, _posix_time, clear_errno. mstep.
      rewrite Hfail. mstep. reflexivity.
    + reflexivity.
  - (* times *)
    eexists _, _, _. split; [ apply out_done | ].
    + unfold posix_times, clear_errno. mstep. rewrite Hfail. reflexivity.
    + reflexivity.
  - (* sysinfo *)
    eexists _, _, _. split; [ apply out_done | ].
    + unfold posix_sysinfo, clear_errno. mstep. rewrite Hfail. mstep.
      reflexivity.
    + reflexivity.
  - (* uname *)
    destruct Hslots as (H1 & H2 & H3 & H4 & H5).
    eexists _, _, _. split; [ apply out_done | ].
    + unfold posix_uname, clear_errno. mstep. rewrite Hfail. mstep.
      reflexivity.
    + eexists. split; [ reflexivity | ].
      cbn; repeat split; apply empty_after_store; assumption.
  - (* stat *)
    eexists _, _, _. split; [ apply out_done | ].
    + unfold posix_stat, _posix_stat, clear_errno. mstep. rewrite Hfail.
      mstep. reflexivity.
    + reflexivity.
  - (* lstat *)
    eexists _, _, _. split; [ apply out_done | ].
    + unfold posix_lstat, _posix_stat, clear_errno. mstep. rewrite Hfail.
      mstep. reflexivity.
    + reflexivity.
  - (* getpwnam *)
    destruct Hslots as (H1 & H2 & H3 & H4 & H5).
    eexists _, _, _. split; [ apply out_done | ].
    + unfold posix_getpwnam, _posix_getpw, clear_errno. mstep.
      rewrite Hfail. mstep. reflexivity.
    + eexists. split; [ reflexivity | ].
      cbn; repeat split; apply empty_after_store; assumption.
  - (* getpwuid *)
    destruct Hslots as (H1 & H2 & H3 & H4 & H5).
    eexists _, _, _. split; [ apply out_done | ].
    + unfold posix_getpwuid, _posix_getpw, clear_errno. mstep.
      rewrite Hfail. mstep. reflexivity.
    + eexists. split; [ reflexivity | ].
      cbn; repeat split; apply empty_after_store; assumption.
  - (* getgrnam *)
    destruct Hslots as (H1 & H2 & H3).
    eexists _, _, _. split; [ apply out_done | ].
    + unfold posix_getgrnam, _posix_getgr, clear_errno. mstep.
      rewrite Hfail. mstep. reflexivity.
    + eexists. split; [ reflexivity | ].
      cbn; repeat split; apply empty_after_store; assumption.
  - (* getgrgid *)
    destruct Hslots as (H1 & H2 & H3).
    eexists _, _, _. split; [ apply out_done | ].
    + unfold posix_getgrgid, _posix_getgr, clear_errno. mstep.
      rewrite Hfail. mstep. reflexivity.
    + eexists. split; [ reflexivity | ].
      cbn; repeat split; apply empty_after_store; assumption.
  - (* opendir *)
    destruct Hfail as (Hroom & Hn).
    destruct (native (c_opendir path) (world s)) as [[b e] w] eqn:En.
    cbn in Hn. subst b.
    eexists _, _, _. split; [ apply out_done | ].
    + rewrite opendir_value.
      destruct (Nat.leb_spec dir_limit (dir_count s)) as [?|_]; [ lia | ].
      rewrite En. cbn. reflexivity.
    + reflexivity.
  - (* readdir *)
    destruct Hfail as (Hok & Hin & Hn).
    eexists _, _, _. split; [ apply out_done | ].
    + unfold posix_readdir. mstep.
      rewrite (bind_done _ _ s 1 s) by (apply is_dir_keep; assumption).
      cbn [Z.eqb]. unfold clear_errno. mstep. rewrite Hn. mstep.
      reflexivity.
    + eexists. split; [ reflexivity | ]. apply empty_after_store, Hslots.
Qed.

(** C5 fails on the code.  [posix_stat], [posix_lstat] and
    [posix_sysinfo] zero their local structure as [posix_times] and the
    clock operations do, but copy it to the output slots only when the
    native call succeeds: when it fails they return with every output
    slot holding what the caller had left there, whatever that is, where
    the claim wants zeros. *)
Theorem native_failure_unwritten fuel r s :
  leaves_slots r = true →
  native_fails r s →
  ∃ e s', exec fuel (arity r) r s = Done (e, r) s'.
Proof.
  intros Hr Hfail.
  destruct (native_failure_slots fuel r s) as (e & r' & s' & H & Ho).
  - destruct r; try discriminate Hr; exact I.
  - exact Hfail.
  - exists e, s'.
    destruct r; try discriminate Hr; cbn [failure_outcome] in Ho; subst r';
      exact H.
Qed.


(** *** Option strings of [openlog] *)

(** The decoding in terms of the code's own tokens and lookup. *)
Lemma get_flags_on_tokens (p : list param) nm1 nm2 bad v
    ident option_name facility_name s :
  Forall (resolves p) (strtok_all list_delimiter nm1) →
  strtok_all list_delimiter nm1 ≡ₚ strtok_all list_delimiter nm2 →
  Exists (λ tok, ¬ resolves p tok) (strtok_all list_delimiter bad) →
  Exists (λ tok, ¬ resolves option_param tok)
      (strtok_all list_delimiter option_name) ∨
    Exists (λ tok, ¬ resolves facility_param tok)
      (strtok_all list_delimiter facility_name) →
  (native (c_malloc (Z.of_nat (String.length ident) + 1)) (world s)).1.1 ≠ 0 →
  _get_flags p nm1 v
    = (0, or_all (map (flag_of p) (strtok_all list_delimiter nm1))) ∧
  _get_flags p nm2 v = _get_flags p nm1 v ∧
  _get_flags p bad v = (EINVAL, v) ∧
  ∃ s',
    posix_openlog 3 ident option_name facility_name s = Done EINVAL s' ∧
    calls s' =
      (calls s ++ [c_malloc (Z.of_nat (String.length ident) + 1)])%list.
Proof.
  intros Hres Hperm Hbad Hlog Hmalloc.
  assert (Hres2 : Forall (resolves p) (strtok_all list_delimiter nm2))
    by (rewrite <- Hperm; exact Hres).
  unfold _get_flags.
  rewrite (get_flags_loop_resolved p _ 0 v Hres).
  rewrite (get_flags_loop_resolved p _ 0 v Hres2).
  rewrite (get_flags_loop_unresolved p _ 0 v Hbad).
  rewrite !Z.lor_0_l.
  split; [ reflexivity | ]. split.
  { f_equal. apply or_all_perm. rewrite Hperm. reflexivity. }
  split; [ reflexivity | ].
  set (c := c_malloc (Z.of_nat (String.length ident) + 1)) in *.
  exists (mkState (default 0 (native c (world s)).1.2) (dir_list s)
            (dir_count s) (calls s ++ [c]) (native c (world s)).2).
  split; [ | reflexivity ].
  unfold posix_openlog, clear_errno. fold c. mstep.
  destruct (Z.eqb_spec (native c (world s)).1.1 0) as [E|_];
    [ contradiction | ].
  unfold _get_flags.
  destruct (Forall_Exists_dec (resolves option_param)
              (λ tok, ¬ resolves option_param tok)
              (λ tok, Z.eq_dec (_get_param option_param tok indeterminate).1 0)
              (strtok_all list_delimiter option_name)) as [Hopt|Hopt].
  - rewrite (get_flags_loop_resolved _ _ 0 indeterminate Hopt).
    cbn [Z.eqb negb].
    destruct Hlog as [Hlog|Hlog].
    { apply Exists_exists in Hlog as (tok & Hin & Hn).
      rewrite Forall_forall in Hopt. exfalso. exact (Hn (Hopt tok Hin)). }
    rewrite (get_flags_loop_unresolved _ _ 0 indeterminate Hlog).
    reflexivity.
  - rewrite (get_flags_loop_unresolved _ _ 0 indeterminate Hopt).
    reflexivity.
Qed.

(** C10, as amended.  With the entries of an option string taken to be
    the non-empty pieces between the ['|'], and a name resolving in the
    table when a table entry has the same name up to the case of the
    letters: a string whose entries all resolve decodes to the bitwise
    OR of their flags, and two strings with the same entries in another
    order decode alike; a string with an entry that does not resolve
    gives EINVAL and leaves the mask variable as it was; and
    [posix_openlog] with such an entry among its options or its
    facilities returns EINVAL after its [malloc], without calling the
    native [openlog]. *)
Theorem option_string_decoding (p : list param) nm1 nm2 bad v
    ident option_name facility_name s :
  Forall (λ e, spec_flag p e ≠ None) (entries nm1) →
  entries nm1 ≡ₚ entries nm2 →
  Exists (λ e, spec_flag p e = None) (entries bad) →
  Exists (λ e, spec_flag option_param e = None) (entries option_name) ∨
    Exists (λ e, spec_flag facility_param e = None) (entries facility_name) →
  (native (c_malloc (Z.of_nat (String.length ident) + 1)) (world s)).1.1 ≠ 0 →
  _get_flags p nm1 v
    = (0, or_all (map (λ e, default 0 (spec_flag p e)) (entries nm1))) ∧
  _get_flags p nm2 v = _get_flags p nm1 v ∧
  _get_flags p bad v = (EINVAL, v) ∧
  ∃ s',
    posix_openlog 3 ident option_name facility_name s = Done EINVAL s' ∧
    calls s' =
      (calls s ++ [c_malloc (Z.of_nat (String.length ident) + 1)])%list.
Proof.
  intros Hres Hperm Hbad Hlog Hmalloc.
  assert (Hno : ∀ q e, spec_flag q e = None → ¬ resolves q e).
  { intros q e He Hr. apply resolves_spec_flag in Hr. contradiction. }
  rewrite <- !strtok_all_entries in *.
  destruct (get_flags_on_tokens p nm1 nm2 bad v ident option_name
              facility_name s) as (H1 & H2 & H3 & H4).
  - apply (Forall_impl _ _ _ Hres). intros e He.
    apply resolves_spec_flag, He.
  - exact Hperm.
  - apply (Exists_impl _ _ _ Hbad). intros e. apply Hno.
  - destruct Hlog as [Hlog|Hlog]; [ left | right ];
      apply (Exists_impl _ _ _ Hlog); intros e; apply Hno.
  - exact Hmalloc.
  - split; [ | split; [ exact H2 | split; [ exact H3 | exact H4 ] ] ].
    rewrite H1. do 2 f_equal. apply map_ext. intros e.
    apply flag_of_spec_flag.
Qed.

End ShimTheory.

Section Witnesses.
Import PosixC.

Lemma demo_open_tracked : tracked demo_open.
Proof.
  apply (tracked_exec (L := demo_libc) demo_initial 0 2 (r_opendir "/etc" 0)
           0 (r_opendir "/etc" 8192) demo_open).
  - apply tracked_initial.
  - cbn. apply not_elem_of_nil.
  - reflexivity.
Qed.

(** In a process that has opened nothing an open puts its handle into the
    set and an unknown value is refused; the handle is then closed. *)
Lemma dir_handle_state_machine_witness :
  (∃ e s',
     posix_opendir (L := demo_libc) 2 "/tmp" 0 demo_initial
       = Done (e, 8192) s' ∧
     handles s' = [8192]) ∧
  posix_closedir (L := demo_libc) 1 77 demo_initial
    = Done EINVAL demo_initial ∧
  posix_closedir (L := demo_libc) 1 8192 demo_open
    = Done 0 (demo_run [(2, r_opendir "/etc" 0); (1, r_closedir 8192)]) ∧
  posix_closedir (L := demo_libc) 1 77 demo_open = Done EINVAL demo_open.
Proof.
  assert (H0 : 77 ∉ handles demo_initial)
    by (apply (bool_decide_unpack _); vm_compute; exact I).
  assert (H1 : 8192 ∈ handles demo_open)
    by (apply (bool_decide_unpack _); vm_compute; exact I).
  assert (H2 : 77 ∉ handles demo_open)
    by (apply (bool_decide_unpack _); vm_compute; exact I).
  destruct (dir_handle_state_machine (L := demo_libc) demo_initial "/tmp" 0
              (replicate 256 "x"%char) (tracked_initial (L := demo_libc) 0 0%nat)
              eq_refl)
    as (Hopen & _ & Hx0).
  destruct (dir_handle_state_machine (L := demo_libc) demo_open "/tmp" 0
              (replicate 256 "x"%char) demo_open_tracked eq_refl)
    as (_ & _ & Hx).
  split; [ exact Hopen | ]. split; [ exact (proj2 (Hx0 77 H0)) | ].
  split; [ vm_compute; reflexivity | exact (proj2 (Hx 77 H2)) ].
Defined.

Lemma demo_full_reachable : reachable demo_full.
Proof.
  apply (run_reachable (L := demo_libc) 0
           (repeat (2, r_opendir "/etc" 0) 256) demo_initial).
  - apply reachable_initial.
  - vm_compute. reflexivity.
Qed.

Lemma dir_limit_enforced_witness :
  length (handles demo_full) = 256%nat ∧
  posix_opendir (L := demo_libc) 2 "/tmp" 0 demo_full = Done (EMFILE, 0) demo_full.
Proof.
  destruct (dir_limit_enforced (L := demo_libc) demo_full "/tmp" 0
              demo_full_reachable) as (_ & _ & H).
  split; [ vm_compute; reflexivity | ].
  apply H. apply Nat.eq_le_incl. vm_compute. reflexivity.
Defined.

Lemma arity_mismatch_enodata_witness :
  exec (L := demo_libc) 0 0 (r_unlink "/tmp/a") demo_initial
    = Done (ENODATA, r_unlink "/tmp/a") demo_initial.
Proof.
  apply (arity_mismatch_enodata (L := demo_libc) 0 0 (r_unlink "/tmp/a")
           demo_initial eq_refl).
  cbn. lia.
Defined.

(** The two operations without the check make their native calls whatever
    the argument count. *)
Lemma time_ignores_argc :
  1 ≠ arity r_time ∧
  ∃ s', exec (L := demo_libc) 0 1 r_time demo_initial
          = Done (1700000000, r_time) s' ∧
        calls s' = [c_time].
Proof.
  split; [ cbn; lia | ]. eexists. split; [ reflexivity | reflexivity ].
Qed.

Lemma getgrouplist_ignores_argc :
  0 ≠ arity (r_getgrouplist "root" (replicate 4096 "x"%char)) ∧
  ∃ l' s',
    exec (L := demo_libc) 1 0 (r_getgrouplist "root" (replicate 4096 "x"%char))
      demo_initial = Done (0, r_getgrouplist "root" l') s' ∧
    calls s' = [c_getgrent; c_endgrent].
Proof.
  split; [ cbn; lia | ]. eexists _, _. split; vm_compute; reflexivity.
Qed.

(** C3 as stated fails: [posix_time] called with one argument calls the
    native [time] and returns its value. *)
Lemma arity_claim_fails : ¬ arity_claim.
Proof.
  intros H.
  specialize (H demo_libc 0%nat 1 r_time demo_initial ltac:(cbn; lia)).
  vm_compute in H. discriminate H.
Qed.

(** C4 fails on the code: with a native [readlink] that returns -1 the
    store of the terminator is outside the 1024-byte array. *)
Theorem readlink_failure_faults :
  (native (Libc := demo_libc) (c_readlink "/etc/passwd" 1023)
     (world demo_initial)).1.1 = None ∧
  posix_readlink (L := demo_libc) 2 "/etc/passwd" (replicate 1024 "x"%char)
    demo_initial = Fault.
Proof. split; vm_compute; reflexivity. Qed.

Lemma option_string_decoding_witness :
  _get_flags option_param "pid|Cons" 0 = (0, Z.lor LOG_PID LOG_CONS) ∧
  _get_flags option_param "Cons||pid" 0 = _get_flags option_param "pid|Cons" 0 ∧
  _get_flags option_param "PID|BOGUS" 0 = (EINVAL, 0) ∧
  ∃ s',
    posix_openlog (L := demo_libc) 3 "me" "PID|BOGUS" "USER" demo_initial
      = Done EINVAL s' ∧
    calls s' = [c_malloc 3].
Proof.
  apply (option_string_decoding (L := demo_libc) option_param
           "pid|Cons" "Cons||pid" "PID|BOGUS" 0 "me" "PID|BOGUS" "USER"
           demo_initial).
  - change (Forall (λ e, spec_flag option_param e ≠ None) ["pid"; "Cons"]).
    repeat constructor; discriminate.
  - change (["pid"; "Cons"] ≡ₚ ["Cons"; "pid"]). apply Permutation_swap.
  - change (Exists (λ e, spec_flag option_param e = None) ["PID"; "BOGUS"]).
    apply Exists_cons_tl, Exists_cons_hd. reflexivity.
  - left.
    change (Exists (λ e, spec_flag option_param e = None) ["PID"; "BOGUS"]).
    apply Exists_cons_tl, Exists_cons_hd. reflexivity.
  - vm_compute. discriminate.
Defined.

(** C10 as stated fails: the empty entry of ["PID||CONS"] resolves in no
    table, and the string is accepted all the same, with the mask of PID
    and CONS. *)
Lemma option_claim_fails : ¬ option_claim.
Proof.
  intros H. specialize (H option_param "PID||CONS" 0).
  assert (E : _get_flags option_param "PID||CONS" 0 = (EINVAL, 0)).
  { apply H. change (Exists (λ e, spec_flag option_param e = None)
                       ["PID"; EmptyString; "CONS"]).
    apply Exists_cons_tl, Exists_cons_hd. reflexivity. }
  vm_compute in E. discriminate E.
Qed.

(** Entries are matched whatever their case. *)
Lemma option_names_ignore_case :
  _get_flags option_param "pid|Cons" 0 = (0, Z.lor LOG_PID LOG_CONS) ∧
  _get_flags facility_param "user" 0 = (0, LOG_USER).
Proof. split; reflexivity. Qed.

Lemma native_failure_unwritten_witness :
  ∃ e s',
    exec (L := demo_libc) 0 14 (r_stat "/none" (Stat 7 7 7 7 7 7 7 7 7 7 7 7 7))
      demo_initial
      = Done (e, r_stat "/none" (Stat 7 7 7 7 7 7 7 7 7 7 7 7 7)) s'.
Proof.
  exact (native_failure_unwritten (L := demo_libc) 0
           (r_stat "/none" (Stat 7 7 7 7 7 7 7 7 7 7 7 7 7)) demo_initial
           eq_refl eq_refl).
Defined.

(** The same call run: the native [stat] fails with ENOENT and the slots
    hold the caller's sevens, not zeros; [posix_times] on the same layer
    hands back zeros. *)
Lemma failed_stat_keeps_slots :
  (native (Libc := demo_libc) (c_stat "/none") (world demo_initial)).1.1 = None ∧
  (∃ s',
     posix_stat (L := demo_libc) 14 "/none" (Stat 7 7 7 7 7 7 7 7 7 7 7 7 7)
       demo_initial = Done (ENOENT, Stat 7 7 7 7 7 7 7 7 7 7 7 7 7) s') ∧
  Stat 7 7 7 7 7 7 7 7 7 7 7 7 7 ≠ Stat 0 0 0 0 0 0 0 0 0 0 0 0 0 ∧
  (native (Libc := demo_libc) c_times (world demo_initial)).1.1 = None ∧
  ∃ s',
    posix_times (L := demo_libc) 4 (Tms 7 7 7 7) demo_initial
      = Done (ENOENT, Tms 0 0 0 0) s'.
Proof.
  split; [ reflexivity | ]. split; [ eexists; reflexivity | ].
  split; [ discriminate | ]. split; [ reflexivity | ].
  eexists. vm_compute. reflexivity.
Qed.


End Witnesses.

(* ===================================================================== *)
(** ** Further properties of posix.m *)
(* ===================================================================== *)

(** *** [mode] as a positional numeral *)

Section ModePositional.
Import PosixM.

Lemma substring_none s : substring 0 0 s = EmptyString.
Proof. destruct s; reflexivity. Qed.

Lemma substring_app_l j : ∀ s t,
  (j < String.length s)%nat → substring j 1 (s ++ t) = substring j 1 s.
Proof.
  induction j as [|j IH]; intros [|c s] t H; cbn in H; try lia; cbn.
  - rewrite !substring_none. reflexivity.
  - apply IH. lia.
Qed.

Lemma substring_app_last s : ∀ c,
  substring (String.length s) 1 (s ++ String c EmptyString) = String c EmptyString.
Proof. induction s as [|a s IH]; intros c; cbn; [ reflexivity | apply IH ]. Qed.

Lemma length_app_one s c :
  String.length (s ++ String c EmptyString) = S (String.length s).
Proof. induction s as [|a s IH]; cbn; [ reflexivity | rewrite IH; reflexivity ]. Qed.

Lemma mode_loop_acc o l i : ∀ n a,
  mode_loop o l i (n + a) = mode_loop o l i n + a.
Proof.
  induction i as [|i IH]; intros n a; cbn [mode_loop]; [ reflexivity | ].
  rewrite <- IH. f_equal. lia.
Qed.

Lemma mode_loop_shift s c l i : ∀ n,
  l = String.length s → (i ≤ l)%nat →
  mode_loop (s ++ String c EmptyString) (S l) i (8 * n) = 8 * mode_loop s l i n.
Proof.
  induction i as [|i IH]; intros n Hl Hi; cbn [mode_loop]; [ reflexivity | ].
  rewrite <- IH by (try assumption; lia). f_equal.
  cbn [m_extract]. rewrite substring_app_l by lia.
  replace (Z.of_nat (S l - S i)) with (Z.succ (Z.of_nat (l - S i))) by lia.
  rewrite Z.pow_succ_r by lia. lia.
Qed.

(** X1.  [mode] reads its argument as a positional numeral in base 8, on
    the strings of at most 18 characters (where every value the routine
    computes is an integer below [10 ^ 18], exact in M): the empty string
    gives 0, and a string with one more character at its end gives eight
    times the value of the string plus the numeric value M gives that
    character. *)
Theorem mode_append_digit s c :
  (String.length s < 18)%nat →
  mode EmptyString = 0 ∧
  mode (s ++ String c EmptyString) = 8 * mode s + m_num (String c EmptyString).
Proof.
  intros _. split; [ reflexivity | ].
  unfold mode, m_length. rewrite length_app_one. cbn [mode_loop].
  cbn [m_extract]. rewrite substring_app_last.
  rewrite Nat.sub_diag. change (8 ^ Z.of_nat 0) with 1.
  rewrite mode_loop_acc.
  replace 0 with (8 * 0) at 1 by reflexivity.
  rewrite mode_loop_shift by (reflexivity || lia). lia.
Qed.

Lemma mode_append_digit_witness :
  mode "644" = 8 * mode "64" + 4 ∧ mode "0644" = mode "644".
Proof.
  destruct (mode_append_digit "64" "4"%char ltac:(cbn; lia)) as [_ H].
  split; [ exact H | reflexivity ].
Defined.

End ModePositional.

(** *** The digits of [octal] and the file-type tests as mask tests *)

Section OctalDigits.
Import PosixM.

Lemma octal_mod n : 0 <= n → octal n = octal (n mod 4096).
Proof.
  intros H. unfold octal. cbn [octal_loop].
  assert (Hr : 0 <= n mod 4096) by zdiv.
  rewrite !Z.quot_div_nonneg by zdiv.
  assert (E0 : n mod 8 = (n mod 4096) mod 8) by zdiv.
  assert (E1 : n / 8 mod 8 = (n mod 4096) / 8 mod 8) by zdiv.
  assert (E2 : n / 8 / 8 mod 8 = (n mod 4096) / 8 / 8 mod 8) by zdiv.
  assert (E3 : n / 8 / 8 / 8 mod 8 = (n mod 4096) / 8 / 8 / 8 mod 8) by zdiv.
  rewrite E0, E1, E2, E3. reflexivity.
Qed.

Lemma m_str_octal_digit v :
  0 <= v < 8 →
  ∃ c, m_str v = String c EmptyString ∧ octal_digit c = true.
Proof.
  intros H.
  destruct (small_cases v H) as [->|[->|[->|[->|[->|[->|[->| ->]]]]]]];
    eexists; split; reflexivity.
Qed.

(** X2.  For [0 <= n < 10 ^ 18] (the integers M computes with exactly),
    [octal n] depends only on the twelve low bits of [n]; it is a string
    of exactly four octal digits, and [mode] reads it back as
    [n mod 4096]. *)
Theorem octal_low_digits n :
  0 <= n < 10 ^ 18 →
  octal n = octal (n mod 4096) ∧
  valid_octal (octal n) = true ∧
  String.length (octal n) = 4%nat ∧
  mode (octal n) = n mod 4096.
Proof.
  intros [H _]. pose proof (octal_mod n H) as Hm.
  split; [ exact Hm | ]. rewrite Hm.
  assert (Hr : 0 <= n mod 4096 < 4096) by zdiv.
  split; [ | split; [ | apply mode_octal_range; exact Hr ] ];
    destruct (octal_digits_base _ Hr)
      as (v1 & v2 & v3 & v4 & H1 & H2 & H3 & H4 & ->);
    rewrite octal_digits by assumption;
    destruct (m_str_octal_digit v1 H1) as (c1 & -> & D1);
    destruct (m_str_octal_digit v2 H2) as (c2 & -> & D2);
    destruct (m_str_octal_digit v3 H3) as (c3 & -> & D3);
    destruct (m_str_octal_digit v4 H4) as (c4 & -> & D4).
  - unfold valid_octal. cbn. rewrite D1, D2, D3, D4. reflexivity.
  - reflexivity.
Qed.

Lemma octal_low_digits_witness :
  octal 33188 = "0644" ∧ mode (octal 33188) = 420.
Proof.
  destruct (octal_low_digits 33188 ltac:(lia)) as (_ & _ & _ & H).
  split; [ reflexivity | exact H ].
Defined.

End OctalDigits.

Section FileTypeBits.
Import PosixM.

(** X3.  On a 32-bit mode each of the seven file-type tests is a mask
    test: it holds exactly when all the bits of the test's constant are
    set in the mode. *)
Theorem file_type_tests_bits m :
  0 <= m < 2 ^ 32 →
  isreg m = (Z.land m S_IFREG =? S_IFREG) ∧
  isdir m = (Z.land m S_IFDIR =? S_IFDIR) ∧
  ischr m = (Z.land m S_IFCHR =? S_IFCHR) ∧
  isblk m = (Z.land m S_IFBLK =? S_IFBLK) ∧
  isfifo m = (Z.land m S_IFIFO =? S_IFIFO) ∧
  islnk m = (Z.land m S_IFLNK =? S_IFLNK) ∧
  issock m = (Z.land m S_IFSOCK =? S_IFSOCK).
Proof.
  intros H.
  rewrite isreg_bits, isdir_bits, ischr_bits, isblk_bits, isfifo_bits,
    islnk_bits, issock_bits by exact H.
  repeat split; reflexivity.
Qed.

Lemma file_type_tests_bits_witness :
  isreg 33188 = true ∧ isdir 33188 = false.
Proof.
  destruct (file_type_tests_bits 33188 ltac:(lia)) as (H1 & H2 & _).
  split; [ exact H1 | exact H2 ].
Defined.

(** X4.  On a mode whose type field is that of a regular file, a
    directory, a character device or a FIFO, the test of that type is the
    only one of the seven that succeeds. *)
Theorem simple_file_types_exclusive m t :
  0 <= m < 2 ^ 32 →
  Z.land m S_IFMT = t →
  t = S_IFREG ∨ t = S_IFDIR ∨ t = S_IFCHR ∨ t = S_IFIFO →
  isreg m = (t =? S_IFREG) ∧ isdir m = (t =? S_IFDIR) ∧
  ischr m = (t =? S_IFCHR) ∧ isfifo m = (t =? S_IFIFO) ∧
  isblk m = false ∧ islnk m = false ∧ issock m = false.
Proof.
  intros H Ht Hc.
  rewrite isreg_bits, isdir_bits, ischr_bits, isblk_bits, isfifo_bits,
    islnk_bits, issock_bits by exact H.
  rewrite (type_field_flag m t S_IFREG Ht eq_refl),
    (type_field_flag m t S_IFDIR Ht eq_refl),
    (type_field_flag m t S_IFCHR Ht eq_refl),
    (type_field_flag m t S_IFBLK Ht eq_refl),
    (type_field_flag m t S_IFIFO Ht eq_refl),
    (type_field_flag m t S_IFLNK Ht eq_refl),
    (type_field_flag m t S_IFSOCK Ht eq_refl).
  clear Ht. destruct Hc as [->|[->|[->| ->]]]; repeat split; reflexivity.
Qed.

Lemma simple_file_types_exclusive_witness :
  isdir 16877 = true ∧ isreg 16877 = false ∧ isblk 16877 = false.
Proof.
  destruct (simple_file_types_exclusive 16877 S_IFDIR ltac:(lia) eq_refl
              (or_intror (or_introl eq_refl)))
    as (H1 & H2 & _ & _ & H5 & _).
  split; [ exact H2 | split; [ exact H1 | exact H5 ] ].
Defined.

End FileTypeBits.

(** *** Bit strings *)

Section BitStrings.
Import PosixM PosixAux.

Lemma length_append s : ∀ t,
  String.length (s ++ t) = (String.length s + String.length t)%nat.
Proof. induction s as [|c s IH]; intros t; cbn; [ | rewrite IH ]; reflexivity. Qed.

Lemma append_assoc s : ∀ t u, (s ++ t) ++ u = s ++ (t ++ u).
Proof. induction s as [|c s IH]; intros t u; cbn; [ | rewrite IH ]; reflexivity. Qed.










End BitStrings.

(* ===================================================================== *)
(** ** Further properties of posix.c *)
(* ===================================================================== *)

(** *** Lookups in the option tables *)

Section ParamLookup.
Import PosixC PosixAux.

Lemma strcasecmp_eq_trans a : ∀ b c,
  strcasecmp_eq a b = true → strcasecmp_eq b c = strcasecmp_eq a c.
Proof.
  induction a as [|x a IH]; intros [|y b] [|z c]; cbn; try discriminate;
    try reflexivity.
  destruct (ascii_dec (tolower x) (tolower y)) as [E|E]; [ | discriminate ].
  intros H. rewrite E.
  destruct (ascii_dec (tolower y) (tolower z)); [ apply IH; exact H | reflexivity ].
Qed.

Lemma strcasecmp_eq_sym a : ∀ b, strcasecmp_eq a b = strcasecmp_eq b a.
Proof.
  induction a as [|x a IH]; intros [|y b]; cbn; try reflexivity.
  destruct (ascii_dec (tolower x) (tolower y)) as [E|E];
    destruct (ascii_dec (tolower y) (tolower x)) as [E'|E'];
    congruence.
Qed.

(** X6.  [_get_param] looks names up without regard to case: two names
    equal up to case give the same status and the same value, against any
    table.  The status is 0 or -1, and with -1 the value is the one the
    caller passed in. *)
Theorem get_param_ignores_case (p : list param) nm nm' v :
  strcasecmp_eq nm nm' = true →
  _get_param p nm v = _get_param p nm' v ∧
  ((_get_param p nm v).1 = 0 ∨ _get_param p nm v = (-1, v)).
Proof.
  intros H. split.
  - induction p as [|e p IH]; cbn [_get_param]; [ reflexivity | ].
    rewrite (strcasecmp_eq_sym (name e) nm), (strcasecmp_eq_sym (name e) nm').
    rewrite <- (strcasecmp_eq_trans nm' nm (name e)), IH; [ reflexivity | ].
    rewrite strcasecmp_eq_sym. exact H.
  - induction p as [|e p IH]; cbn [_get_param]; [ right; reflexivity | ].
    destruct (strcasecmp_eq (name e) nm); [ left; reflexivity | exact IH ].
Qed.

Lemma get_param_ignores_case_witness :
  _get_param clk_id_param "monotonic_raw" 7 =
  _get_param clk_id_param "MONOTONIC_RAW" 7.
Proof.
  apply (get_param_ignores_case clk_id_param "monotonic_raw" "MONOTONIC_RAW" 7).
  reflexivity.
Defined.

Lemma strtok_from_delimiters d s :
  Forall (λ c, c = d) (list_ascii_of_string s) → strtok_from d s [] = [].
Proof.
  induction s as [|c s IH]; cbn; [ reflexivity | ].
  intros H. apply Forall_cons in H as [-> H].
  destruct (ascii_dec d d); [ | contradiction ]. cbn. apply IH, H.
Qed.

(** X7.  An option string with no entry (empty, or made of separators
    only) is accepted by [_get_flags] against any table, with the mask 0. *)
Theorem get_flags_no_entry (p : list param) nm v :
  Forall (λ c, c = list_delimiter) (list_ascii_of_string nm) →
  _get_flags p nm v = (0, 0).
Proof.
  intros H. unfold _get_flags, strtok_all.
  rewrite strtok_from_delimiters by exact H. reflexivity.
Qed.

Lemma get_flags_no_entry_witness : _get_flags option_param "||" 5 = (0, 0).
Proof.
  apply (get_flags_no_entry option_param "||" 5).
  repeat constructor.
Defined.

Lemma or_all_elem x l : x ∈ l → Z.lor x (or_all l) = or_all l.
Proof.
  induction l as [|y l IH]; intros H.
  - apply elem_of_nil in H. contradiction.
  - apply elem_of_cons in H as [->|H]; cbn.
    + rewrite Z.lor_assoc, Z.lor_diag. reflexivity.
    + fold (or_all l). rewrite Z.lor_assoc, (Z.lor_comm x y), <- Z.lor_assoc, IH by exact H.
      reflexivity.
Qed.

Lemma or_all_incl l1 : ∀ l2, l1 ⊆ l2 → Z.lor (or_all l1) (or_all l2) = or_all l2.
Proof.
  induction l1 as [|x l1 IH]; intros l2 H; cbn.
  - apply Z.lor_0_l.
  - fold (or_all l1). rewrite <- Z.lor_assoc, IH.
    + apply or_all_elem. apply H. left.
    + intros y Hy. apply H. right. exact Hy.
Qed.

Lemma or_all_same_elements l1 l2 : l1 ⊆ l2 → l2 ⊆ l1 → or_all l1 = or_all l2.
Proof.
  intros H1 H2. pose proof (or_all_incl l1 l2 H1) as E1.
  pose proof (or_all_incl l2 l1 H2) as E2.
  rewrite Z.lor_comm in E2. congruence.
Qed.

(** X8.  The mask [_get_flags] computes depends on which entries the
    option string names, not on their order or on how often each is named:
    two option strings naming the same entries, all in the table, give the
    same mask with status 0. *)
Theorem get_flags_same_entries (p : list param) nm1 nm2 v :
  Forall (resolves p) (strtok_all list_delimiter nm1) →
  strtok_all list_delimiter nm1 ⊆ strtok_all list_delimiter nm2 →
  strtok_all list_delimiter nm2 ⊆ strtok_all list_delimiter nm1 →
  _get_flags p nm1 v = _get_flags p nm2 v ∧ (_get_flags p nm1 v).1 = 0.
Proof.
  unfold _get_flags.
  generalize (strtok_all list_delimiter nm1) (strtok_all list_delimiter nm2).
  intros toks1 toks2 H H1 H2.
  assert (H' : Forall (resolves p) toks2).
  { apply Forall_forall. intros t Ht. rewrite Forall_forall in H.
    apply H, H2, Ht. }
  rewrite !get_flags_loop_resolved by assumption. split; [ | reflexivity ].
  f_equal. rewrite !Z.lor_0_l. apply or_all_same_elements.
  - intros x Hx. apply list_elem_of_fmap in Hx as (t & -> & Ht).
    apply list_elem_of_fmap. exists t. split; [ reflexivity | apply H1, Ht ].
  - intros x Hx. apply list_elem_of_fmap in Hx as (t & -> & Ht).
    apply list_elem_of_fmap. exists t. split; [ reflexivity | apply H2, Ht ].
Qed.

Lemma get_flags_same_entries_witness :
  _get_flags option_param "PID|CONS||PID" 0 = _get_flags option_param "CONS|PID" 0.
Proof.
  apply (get_flags_same_entries option_param "PID|CONS||PID" "CONS|PID" 0).
  - repeat constructor.
  - intros x Hx. change (x ∈ ["PID"; "CONS"; "PID"]) in Hx.
    change (x ∈ ["CONS"; "PID"]).
    repeat (apply elem_of_cons in Hx as [->|Hx]; [ repeat constructor | ]).
    apply elem_of_nil in Hx. contradiction.
  - intros x Hx. change (x ∈ ["CONS"; "PID"]) in Hx.
    change (x ∈ ["PID"; "CONS"; "PID"]).
    repeat (apply elem_of_cons in Hx as [->|Hx]; [ repeat constructor | ]).
    apply elem_of_nil in Hx. contradiction.
Defined.

End ParamLookup.

(** *** The search in the table and the bounded copies *)

Section TableSearch.
Import PosixC PosixAux.

(** X9.  [in_list] over the first [n] entries of an array that has at
    least [n]: it returns 0 and changes nothing when [p] is not among
    them; when [p] is among them it returns 1, and then, if asked to
    remove, the count drops by one and the first [n - 1] entries are the
    old first [n] entries without one occurrence of [p], in some order;
    if not asked to remove, nothing changes. *)
Theorem in_list_result (p : Z) (l : list Z) (n : nat) (rm : bool) :
  (n ≤ length l)%nat →
  ((p ∉ take n l) ∧ in_list p l n rm = Some (0, l, n)) ∨
  (p ∈ take n l ∧
   ∃ l', in_list p l n rm = Some (1, l', if rm then (n - 1)%nat else n) ∧
     length l' = length l ∧
     if rm then take n l ≡ₚ p :: take (n - 1) l' else l' = l).
Proof.
  intros Hn. destruct (decide (p ∈ take n l)) as [Hin|Hout].
  - right. split; [ exact Hin | ]. destruct rm.
    + destruct (in_list_remove p l n Hn Hin) as (j & y & Hj & Hp & Hy & Hr).
      exists (<[j := y]> l). split; [ exact Hr | ].
      split; [ apply length_insert | ].
      apply take_swap_remove; assumption.
    + exists l. split; [ apply in_list_keep; assumption | ].
      split; reflexivity.
  - left. split; [ exact Hout | apply in_list_absent; assumption ].
Qed.

Lemma in_list_result_witness :
  in_list 5 [1; 5; 7; 9] 3 true = Some (1, [1; 7; 7; 9], 2%nat).
Proof.
  destruct (in_list_result 5 [1; 5; 7; 9] 3 true) as [[_ H]|[_ (l' & H & _)]].
  - cbn. lia.
  - discriminate H.
  - reflexivity.
Defined.

End TableSearch.

Section CopyBounds.
Import PosixC PosixAux.

Lemma strncopy_loop_frame k : ∀ (b : buffer) (p : nat) s rc b',
  strncopy_loop k b (Z.of_nat p) s = Some (rc, b') →
  ∀ i, (i < p ∨ p + k < i)%nat → b' !! i = b !! i.
Proof.
  induction k as [|k IH]; intros b p s rc b'; cbn [strncopy_loop]; unfold store.
  - destruct ((0 <=? Z.of_nat p) && (Z.of_nat p <? Z.of_nat (length b)));
      cbn; [ | discriminate ].
    intros H i Hi. injection H as _ <-. rewrite Nat2Z.id.
    apply list_lookup_insert_ne. lia.
  - destruct ((0 <=? Z.of_nat p) && (Z.of_nat p <? Z.of_nat (length b)));
      cbn; [ | discriminate ].
    rewrite Nat2Z.id.
    destruct (ascii_dec (deref s) NUL).
    + intros H i Hi. injection H as _ <-. apply list_lookup_insert_ne. lia.
    + replace (Z.of_nat p + 1) with (Z.of_nat (S p)) by lia.
      intros H i Hi. rewrite (IH _ _ _ _ _ H) by lia.
      apply list_lookup_insert_ne. lia.
Qed.

Lemma substring_whole s : ∀ k,
  (String.length s ≤ k)%nat → substring 0 k s = s.
Proof.
  induction s as [|c s IH]; intros [|k] H; cbn in *; try reflexivity; try lia.
  rewrite IH by lia. reflexivity.
Qed.

(** X10.  [strncopy] of a C string into an array with at least [n >= 1]
    bytes: it returns 0 when the string and its terminator take fewer
    than [n] bytes and ERANGE otherwise; the array then holds the first
    [n - 1] bytes of the string, terminated (the whole string when it and
    its terminator take at most [n] bytes), and the bytes from index [n]
    on are untouched. *)
Theorem strncopy_result (b : buffer) s n :
  no_nul s →
  1 <= n <= Z.of_nat (length b) →
  ∃ b',
    strncopy b 0 s n =
      Some (if Z.of_nat (String.length s) + 1 <? n then 0 else ERANGE, b') ∧
    cstr b' = substring 0 (Z.to_nat (n - 1)) s ∧
    (Z.of_nat (String.length s) + 1 <= n → cstr b' = s) ∧
    length b' = length b ∧
    ∀ i, (Z.to_nat n ≤ i)%nat → b' !! i = b !! i.
Proof.
  intros Hs Hn. unfold strncopy.
  destruct (strncopy_loop_spec (Z.to_nat (n - 1)) b 0 s Hs)
    as (b' & Hr & Hl & _ & Hstr); [ lia | ].
  change (Z.of_nat 0) with 0 in Hr. rewrite drop_0 in Hstr.
  exists b'. split; [ | split; [ exact Hstr | split; [ | split; [ exact Hl | ] ] ] ].
  - rewrite Hr. do 2 f_equal.
    destruct (Nat.ltb_spec (String.length s) (Z.to_nat (n - 1)));
      destruct (Z.ltb_spec (Z.of_nat (String.length s) + 1) n);
      first [ reflexivity | lia ].
  - intros Hfit. rewrite Hstr. apply substring_whole. lia.
  - intros i Hi. apply (strncopy_loop_frame _ b 0%nat s _ b' Hr). lia.
Qed.

Lemma strncopy_result_witness :
  ∃ b', strncopy (replicate 6 "x"%char) 0 "abcdefgh" 4 = Some (ERANGE, b') ∧
    cstr b' = "abc" ∧ b' !! 4%nat = Some "x"%char.
Proof.
  destruct (strncopy_result (replicate 6 "x"%char) "abcdefgh" 4)
    as (b' & H1 & H2 & _ & _ & H3).
  - cbn. repeat split; discriminate.
  - cbn. lia.
  - exists b'. split; [ exact H1 | ]. split; [ exact H2 | ].
    rewrite (H3 4%nat) by lia. reflexivity.
Defined.

Lemma strpncopy_loop_spec k : ∀ (b : buffer) (p : nat) s n,
  no_nul s →
  (p + k < length b)%nat →
  ∃ b',
    strpncopy_loop k b (Z.of_nat p) s n =
      Some (if (String.length s <? k)%nat
            then Some (Z.of_nat (p + String.length s)) else None,
            n - Z.of_nat (String.length s `min` k), b') ∧
    length b' = length b ∧
    (∀ i, (i < p ∨ p + k < i)%nat → b' !! i = b !! i) ∧
    cstr (drop p b') = substring 0 k s.
Proof.
  induction k as [|k IH]; intros b p s n Hs Hlen; cbn [strpncopy_loop].
  - rewrite store_at by lia. cbn. rewrite Nat2Z.id.
    exists (<[p := NUL]> b). split.
    { rewrite Nat.min_0_r, Z.sub_0_r. reflexivity. }
    split; [ apply length_insert | ]. split.
    + intros i Hi. apply list_lookup_insert_ne. lia.
    + rewrite cstr_drop_nul by (apply list_lookup_insert_eq; lia).
      destruct s; reflexivity.
  - rewrite store_at by lia. cbn. rewrite Nat2Z.id.
    destruct s as [|c s']; cbn [deref advance].
    + destruct (ascii_dec NUL NUL) as [_|?]; [ | contradiction ].
      exists (<[p := NUL]> b). split.
      { cbn. rewrite Nat.add_0_r, Z.sub_0_r. reflexivity. }
      split; [ apply length_insert | ]. split.
      * intros i Hi. apply list_lookup_insert_ne. lia.
      * rewrite cstr_drop_nul by (apply list_lookup_insert_eq; lia).
        reflexivity.
    + destruct Hs as [Hc Hs].
      destruct (ascii_dec c NUL) as [?|_]; [ contradiction | ].
      destruct (IH (<[p := c]> b) (S p) s' (n - 1) Hs)
        as (b' & Hr & Hl & Hpre & Hstr).
      { rewrite length_insert. lia. }
      replace (Z.of_nat p + 1) with (Z.of_nat (S p)) by lia.
      exists b'. split.
      { rewrite Hr. cbn [String.length].
        change (S (String.length s') <? S k)%nat
          with (String.length s' <? k)%nat.
        replace (n - 1 - Z.of_nat (String.length s' `min` k))
          with (n - Z.of_nat (S (String.length s') `min` S k)) by lia.
        replace (S p + String.length s')%nat
          with (p + S (String.length s'))%nat by lia.
        reflexivity. }
      split; [ rewrite Hl; apply length_insert | ]. split.
      * intros i Hi. rewrite Hpre by lia. apply list_lookup_insert_ne. lia.
      * assert (Hp : b' !! p = Some c).
        { rewrite Hpre by lia. apply list_lookup_insert_eq. lia. }
        rewrite (cstr_drop_cons b' p c Hp Hc), Hstr. reflexivity.
Qed.

(** What the layout of member names needs of [strpncopy]. *)
Lemma strpncopy_spec (b : buffer) (p : nat) s n :
  no_nul s →
  1 <= n →
  Z.of_nat p + n <= Z.of_nat (length b) →
  ∃ b',
    strpncopy b (Z.of_nat p) s n =
      Some (if Z.of_nat (String.length s) + 1 <? n
            then Some (Z.of_nat (p + String.length s)) else None,
            n - Z.of_nat (String.length s) `min` (n - 1), b') ∧
    length b' = length b ∧
    (∀ i, (i < p)%nat → b' !! i = b !! i) ∧
    cstr (drop p b') = substring 0 (Z.to_nat (n - 1)) s.
Proof.
  intros Hs Hn Hb. unfold strpncopy.
  destruct (strpncopy_loop_spec (Z.to_nat (n - 1)) b p s n Hs)
    as (b' & Hr & Hl & Hf & Hstr); [ lia | ].
  exists b'. split; [ | split; [ exact Hl | split; [ | exact Hstr ] ] ].
  - rewrite Hr.
    replace (Z.of_nat (String.length s `min` Z.to_nat (n - 1)))
      with (Z.of_nat (String.length s) `min` (n - 1)) by lia.
    destruct (Nat.ltb_spec (String.length s) (Z.to_nat (n - 1)));
      destruct (Z.ltb_spec (Z.of_nat (String.length s) + 1) n);
      first [ reflexivity | lia ].
  - intros i Hi. apply Hf. lia.
Qed.

(** X11.  [strpncopy] at offset [p] of an array with [n >= 1] bytes of
    room there: when the string and its terminator take fewer than [n]
    bytes it returns the address of the terminator it wrote and lowers
    the room by the length of the string; otherwise it returns NULL with
    the room at 1.  The array holds, from [p] on, the first [n - 1] bytes
    of the string, terminated; the bytes before [p] and from [p + n] on
    are untouched. *)
Theorem strpncopy_result (b : buffer) (p : nat) s n :
  no_nul s →
  1 <= n →
  Z.of_nat p + n <= Z.of_nat (length b) →
  ∃ b',
    strpncopy b (Z.of_nat p) s n =
      Some (if Z.of_nat (String.length s) + 1 <? n
            then Some (Z.of_nat (p + String.length s)) else None,
            n - Z.of_nat (String.length s) `min` (n - 1), b') ∧
    length b' = length b ∧
    (∀ i, (i < p ∨ p + Z.to_nat n ≤ i)%nat → b' !! i = b !! i) ∧
    cstr (drop p b') = substring 0 (Z.to_nat (n - 1)) s.
Proof.
  intros Hs Hn Hb. unfold strpncopy.
  destruct (strpncopy_loop_spec (Z.to_nat (n - 1)) b p s n Hs)
    as (b' & Hr & Hl & Hf & Hstr); [ lia | ].
  exists b'. split; [ | split; [ exact Hl | split; [ | exact Hstr ] ] ].
  - rewrite Hr.
    replace (Z.of_nat (String.length s `min` Z.to_nat (n - 1)))
      with (Z.of_nat (String.length s) `min` (n - 1)) by lia.
    destruct (Nat.ltb_spec (String.length s) (Z.to_nat (n - 1)));
      destruct (Z.ltb_spec (Z.of_nat (String.length s) + 1) n);
      first [ reflexivity | lia ].
  - intros i Hi. apply Hf. lia.
Qed.

Lemma strpncopy_result_witness :
  ∃ b', strpncopy (replicate 8 "x"%char) 2 "ab" 5 = Some (Some 4, 3, b') ∧
    cstr (drop 2 b') = "ab" ∧ b' !! 1%nat = Some "x"%char.
Proof.
  destruct (strpncopy_result (replicate 8 "x"%char) 2 "ab" 5)
    as (b' & H1 & _ & H2 & H3).
  - cbn. repeat split; discriminate.
  - lia.
  - cbn. lia.
  - exists b'. split; [ exact H1 | ]. split; [ exact H3 | ].
    rewrite (H2 1%nat) by lia. reflexivity.
Defined.

End CopyBounds.

(** *** The member names of a group *)

Section Members.
Import PosixC PosixAux.

Lemma cstr_drop_inv (b : buffer) (p : nat) c m :
  cstr (drop p b) = String c m →
  b !! p = Some c ∧ c ≠ NUL ∧ cstr (drop (S p) b) = m.
Proof.
  destruct (b !! p) as [x|] eqn:E.
  - rewrite (drop_S b x p E). cbn [cstr].
    destruct (ascii_dec x NUL); [ discriminate | ].
    intros H. injection H as -> <-. auto.
  - apply lookup_ge_None in E. rewrite drop_ge by exact E. discriminate.
Qed.

Lemma cstr_end s : ∀ (b : buffer) (p : nat),
  cstr (drop p b) = s → (p + String.length s < length b)%nat →
  b !! (p + String.length s)%nat = Some NUL.
Proof.
  induction s as [|c s IH]; intros b p H Hl; cbn [String.length] in *.
  - rewrite Nat.add_0_r in *.
    destruct (lookup_lt_is_Some_2 b p Hl) as [x Hx].
    rewrite (drop_S b x p Hx) in H. cbn [cstr] in H.
    destruct (ascii_dec x NUL); [ congruence | discriminate ].
  - apply cstr_drop_inv in H as (_ & _ & H).
    replace (p + S (String.length s))%nat with (S p + String.length s)%nat by lia.
    apply IH; [ exact H | lia ].
Qed.

Lemma cstr_chain s : ∀ (b1 b' : buffer) (p : nat),
  cstr (drop p b1) = s →
  (∀ i, (i < p + String.length s)%nat → b' !! i = b1 !! i) →
  cstr (drop p b') = s ++ cstr (drop (p + String.length s) b').
Proof.
  induction s as [|c s IH]; intros b1 b' p H Hsame; cbn [String.length] in *.
  - rewrite Nat.add_0_r. reflexivity.
  - apply cstr_drop_inv in H as (Hp & Hc & H).
    rewrite (cstr_drop_cons b' p c) by (try rewrite Hsame by lia; assumption).
    rewrite (IH b1 b' (S p) H) by (intros i Hi; apply Hsame; lia).
    replace (p + S (String.length s))%nat with (S p + String.length s)%nat by lia.
    reflexivity.
Qed.

Lemma substring_app_fit s : ∀ k w,
  (String.length s ≤ k)%nat →
  substring 0 k (s ++ w) = s ++ substring 0 (k - String.length s) w.
Proof.
  induction s as [|c s IH]; intros k w H; cbn [String.length append] in *.
  - rewrite Nat.sub_0_r. reflexivity.
  - destruct k as [|k]; [ lia | ]. cbn. rewrite IH by lia. reflexivity.
Qed.

Lemma substring_app_cut s : ∀ k w,
  (k ≤ String.length s)%nat → substring 0 k (s ++ w) = substring 0 k s.
Proof.
  induction s as [|c s IH]; intros k w H; cbn [String.length append] in *.
  - replace k with 0%nat by lia. destruct w; reflexivity.
  - destruct k as [|k]; [ reflexivity | ]. cbn. rewrite IH by lia. reflexivity.
Qed.

(** One [strpncopy], then the rest of the run on what it leaves. *)
Lemma written_cons (b : buffer) (p : nat) l s w2
    (k : buffer → Z → Z → option (option (Z * Z) * buffer)) :
  no_nul s → 2 <= l → Z.of_nat p + l <= Z.of_nat (length b) →
  (∀ b1 : buffer,
     length b1 = length b →
     b1 !! (p + String.length s)%nat = Some NUL →
     2 <= l - Z.of_nat (String.length s) →
     written_by b1 (p + String.length s) (l - Z.of_nat (String.length s)) w2
       (k b1 (Z.of_nat (p + String.length s)) (l - Z.of_nat (String.length s)))) →
  written_by b p l (s ++ w2)
    ('(q, l', b1) ← strpncopy b (Z.of_nat p) s l;
     match q with
     | None => Some (None, b1)
     | Some p1 => k b1 p1 l'
     end).
Proof.
  intros Hs Hl Hb Hk.
  destruct (strpncopy_spec b p s l Hs ltac:(lia) Hb)
    as (b1 & Hr & Hlen & Hf & Hstr).
  rewrite Hr. cbn [mbind option_bind]. unfold written_by, fitsb in *.
  rewrite length_append.
  destruct (Z.ltb_spec (Z.of_nat (String.length s) + 1) l) as [Hfit|Hcut].
  - rewrite substring_whole in Hstr by lia.
    replace (l - Z.of_nat (String.length s) `min` (l - 1))
      with (l - Z.of_nat (String.length s)) by lia.
    destruct (Hk b1 Hlen) as (b' & Hr' & Hlen' & Hpre' & Hstr').
    { apply cstr_end; [ exact Hstr | lia ]. }
    { lia. }
    exists b'. split; [ | split; [ congruence | split ] ].
    + rewrite Hr'. do 2 f_equal.
      destruct (Z.ltb_spec (Z.of_nat (String.length w2) + 1)
                  (l - Z.of_nat (String.length s)));
        destruct (Z.ltb_spec
                    (Z.of_nat (String.length s + String.length w2) + 1) l);
        try lia; [ | reflexivity ].
      do 2 f_equal; lia.
    + intros i Hi. rewrite Hpre' by lia. apply Hf. lia.
    + rewrite (cstr_chain s b1 b' p Hstr) by (intros i Hi; apply Hpre'; lia).
      rewrite Hstr', substring_app_fit by lia. do 2 f_equal. lia.
  - exists b1. split; [ | split; [ exact Hlen | split ] ].
    + destruct (Z.ltb_spec
                  (Z.of_nat (String.length s + String.length w2) + 1) l);
        [ lia | reflexivity ].
    + intros i Hi. apply Hf. lia.
    + rewrite Hstr. symmetry. apply substring_app_cut. lia.
Qed.

Lemma getgr_members_written mems : ∀ first (b : buffer) (p : nat) l,
  Forall no_nul mems → 2 <= l → Z.of_nat p + l <= Z.of_nat (length b) →
  b !! p = Some NUL →
  written_by b p l (joined first mems)
    (getgr_members mems first b (Z.of_nat p) l).
Proof.
  induction mems as [|m mems IH]; intros first b p l Hm Hl Hb Hp.
  - cbn [getgr_members joined]. exists b. unfold fitsb. cbn [String.length].
    destruct (Z.ltb_spec (Z.of_nat 0 + 1) l); [ | lia ].
    rewrite Nat.add_0_r, Z.sub_0_r.
    split; [ reflexivity | split; [ reflexivity | split; [ reflexivity | ] ] ].
    rewrite cstr_drop_nul by exact Hp. destruct (Z.to_nat (l - 1)); reflexivity.
  - apply Forall_cons in Hm as [Hm Hms]. cbn [joined].
    assert (Hrest : ∀ (b : buffer) (p : nat) l,
      2 <= l → Z.of_nat p + l <= Z.of_nat (length b) →
      written_by b p l (m ++ joined false mems)
        ('(q, l', b1) ← strpncopy b (Z.of_nat p) m l;
         match q with
         | None => Some (None, b1)
         | Some p1 => getgr_members mems false b1 p1 l'
         end)).
    { intros b0 p0 l0 Hl0 Hb0.
      apply (written_cons b0 p0 l0 m (joined false mems)
               (λ b1 p1 l', getgr_members mems false b1 p1 l')); try assumption.
      intros b1 Hlen Hnul Hl1. apply IH; try assumption. rewrite Hlen. lia. }
    destruct first.
    + cbn [getgr_members mbind option_bind append]. apply Hrest; assumption.
    + replace (getgr_members (m :: mems) false b (Z.of_nat p) l) with
        ('(q, l', b1) ← strpncopy b (Z.of_nat p) "|" l;
         match q with
         | None => Some (None, b1)
         | Some p1 =>
             '(q, l', b1) ← strpncopy b1 p1 m l';
             match q with
             | None => Some (None, b1)
             | Some p1 => getgr_members mems false b1 p1 l'
             end
         end).
      2:{ cbn [getgr_members].
          destruct (strpncopy b (Z.of_nat p) "|" l) as [[[[q|] l'] b1]|];
            reflexivity. }
      apply (written_cons b p l "|" (m ++ joined false mems)
               (λ b1 p1 l', '(q, l', b1) ← strpncopy b1 p1 m l';
                  match q with
                  | None => Some (None, b1)
                  | Some p1 => getgr_members mems false b1 p1 l'
                  end)); try assumption.
      { cbn. split; [ discriminate | exact I ]. }
      intros b1 Hlen Hnul Hl1. apply Hrest; [ exact Hl1 | ].
      rewrite Hlen. cbn [String.length]. lia.
Qed.

Lemma string_app_nil_r s : s ++ EmptyString = s.
Proof. induction s as [|c s IH]; cbn; [ | rewrite IH ]; reflexivity. Qed.

Lemma joined_concat mems : joined true mems = String.concat "|" mems.
Proof.
  destruct mems as [|m mems]; [ reflexivity | ]. cbn [joined append].
  revert m. induction mems as [|m' mems IH]; intros m.
  - cbn. apply string_app_nil_r.
  - cbn [joined]. rewrite IH. reflexivity.
Qed.

End Members.

(** *** What the operations return when the native call succeeds *)

(** Runs an operation up to its next case distinction. *)
Ltac run_step :=
  repeat first
    [ rewrite check_argc_same
    | rewrite bind_set_errno
    | rewrite bind_get_errno
    | match goal with
      | |- (PosixC.sys ?c ≫= ?f) ?s = _ =>
          etransitivity; [ exact (bind_sys c f s) | ]
      end
    | rewrite bind_ret
    | rewrite bind_mem_store by assumption
    | erewrite bind_mem_any by eassumption
    | progress cbn [PosixC.errno PosixC.dir_list PosixC.dir_count PosixC.calls
                   PosixC.world] ].

Section Results.
Import PosixC PosixAux.
Context {L : Libc}.

Lemma strncopy_fitsb (b : buffer) s n :
  no_nul s → 1 <= n <= Z.of_nat (length b) →
  ∃ b',
    strncopy b 0 s n = Some (if fitsb s n then 0 else ERANGE, b') ∧
    cstr b' = substring 0 (Z.to_nat (n - 1)) s ∧
    (fitsb s n = true → cstr b' = s).
Proof.
  intros Hs Hn.
  destruct (strncopy_status b s n Hs Hn) as (b' & Hr & Hc).
  exists b'. split; [ exact Hr | ]. split; [ exact Hc | ].
  unfold fitsb. intros H. apply Z.ltb_lt in H.
  rewrite Hc. apply substring_whole. lia.
Qed.

Lemma or_strncopy_skip (b : buffer) s n :
  or_strncopy ERANGE b s n = Some (ERANGE, b).
Proof. reflexivity. Qed.

Lemma or_strncopy_go (b : buffer) s n :
  or_strncopy 0 b s n = strncopy b 0 s n.
Proof. reflexivity. Qed.

Lemma has_room_of_length (b : buffer) n :
  length b = n → (0 < n)%nat → has_room b.
Proof. unfold has_room. lia. Qed.

Lemma cstr_empty (b : buffer) : is_empty_string b → cstr b = EmptyString.
Proof.
  unfold is_empty_string. destruct b as [|c b]; [ reflexivity | ].
  cbn. intros H. injection H as ->.
  destruct (ascii_dec NUL NUL); [ reflexivity | contradiction ].
Qed.

(** X12.  [posix_uname], when the native [uname] succeeds, with five
    128-byte arrays: if each of the five strings takes, with its
    terminator, fewer than 128 bytes, the arrays hold the five strings and
    the status is [errno] (0 unless the native call set it); otherwise
    the status is ERANGE. *)
Theorem uname_result (o : uname_out) s u :
  (length (o_sysname o) = 128 ∧ length (o_nodename o) = 128 ∧
   length (o_release o) = 128 ∧ length (o_version o) = 128 ∧
   length (o_machine o) = 128)%nat →
  (native c_uname (world s)).1.1 = Some u →
  no_nul (sysname u) ∧ no_nul (nodename u) ∧ no_nul (release u) ∧
  no_nul (version u) ∧ no_nul (machine u) →
  ∃ e o' s',
    posix_uname 5 o s = Done (e, o') s' ∧
    if fitsb (sysname u) 128 && fitsb (nodename u) 128 &&
       fitsb (release u) 128 && fitsb (version u) 128 &&
       fitsb (machine u) 128
    then
      e = default 0 (native c_uname (world s)).1.2 ∧
      cstr (o_sysname o') = sysname u ∧ cstr (o_nodename o') = nodename u ∧
      cstr (o_release o') = release u ∧ cstr (o_version o') = version u ∧
      cstr (o_machine o') = machine u
    else e = ERANGE.
Proof.
  intros (L1 & L2 & L3 & L4 & L5) Hn (N1 & N2 & N3 & N4 & N5).
  pose proof (has_room_of_length _ _ L1 ltac:(lia)) as R1.
  pose proof (has_room_of_length _ _ L2 ltac:(lia)) as R2.
  pose proof (has_room_of_length _ _ L3 ltac:(lia)) as R3.
  pose proof (has_room_of_length _ _ L4 ltac:(lia)) as R4.
  pose proof (has_room_of_length _ _ L5 ltac:(lia)) as R5.
  destruct (strncopy_fitsb (<[0%nat := NUL]> (o_sysname o)) _ 128 N1)
    as (b1 & C1 & _ & F1); [ rewrite length_insert; lia | ].
  destruct (strncopy_fitsb (<[0%nat := NUL]> (o_nodename o)) _ 128 N2)
    as (b2 & C2 & _ & F2); [ rewrite length_insert; lia | ].
  destruct (strncopy_fitsb (<[0%nat := NUL]> (o_release o)) _ 128 N3)
    as (b3 & C3 & _ & F3); [ rewrite length_insert; lia | ].
  destruct (strncopy_fitsb (<[0%nat := NUL]> (o_version o)) _ 128 N4)
    as (b4 & C4 & _ & F4); [ rewrite length_insert; lia | ].
  destruct (strncopy_fitsb (<[0%nat := NUL]> (o_machine o)) _ 128 N5)
    as (b5 & C5 & _ & F5); [ rewrite length_insert; lia | ].
  destruct (fitsb (sysname u) 128), (fitsb (nodename u) 128),
    (fitsb (release u) 128), (fitsb (version u) 128),
    (fitsb (machine u) 128); cbn [andb];
    eexists _, _, _;
    (split;
     [ unfold posix_uname, clear_errno; run_step; rewrite Hn;
       repeat first [ rewrite or_strncopy_go | rewrite or_strncopy_skip
                    | progress run_step ];
       cbn [Z.eqb negb ERANGE]; run_step; reflexivity
     | first [ reflexivity | cbn; auto 10 ] ]).
Qed.

(** X13.  A password lookup, by name or by id, whose native call finds an
    entry: the id slots hold the ids of the entry; if each string of the
    entry takes, with its terminator, fewer bytes than its array (64, 64,
    256, 1024, 1024), the arrays hold the strings and the status is
    [errno]; otherwise the status is ERANGE. *)
Theorem getpw_result nm uid (o : passwd_out) s b :
  (length (o_pw_name o) = 64 ∧ length (o_pw_passwd o) = 64 ∧
   length (o_pw_gecos o) = 256 ∧ length (o_pw_dir o) = 1024 ∧
   length (o_pw_shell o) = 1024)%nat →
  match nm with
  | Some n => (native (c_getpwnam n) (world s)).1.1
  | None => (native (c_getpwuid (to_uint uid)) (world s)).1.1
  end = Some b →
  no_nul (pw_name b) ∧ no_nul (pw_passwd b) ∧ no_nul (pw_gecos b) ∧
  no_nul (pw_dir b) ∧ no_nul (pw_shell b) →
  ∃ e o' s',
    _posix_getpw 8 nm uid o s = Done (e, o') s' ∧
    o_pw_uid o' = pw_uid b ∧ o_pw_gid o' = pw_gid b ∧
    if fitsb (pw_name b) 64 && fitsb (pw_passwd b) 64 &&
       fitsb (pw_gecos b) 256 && fitsb (pw_dir b) 1024 &&
       fitsb (pw_shell b) 1024
    then
      e = default 0
            match nm with
            | Some n => (native (c_getpwnam n) (world s)).1.2
            | None => (native (c_getpwuid (to_uint uid)) (world s)).1.2
            end ∧
      cstr (o_pw_name o') = pw_name b ∧ cstr (o_pw_passwd o') = pw_passwd b ∧
      cstr (o_pw_gecos o') = pw_gecos b ∧ cstr (o_pw_dir o') = pw_dir b ∧
      cstr (o_pw_shell o') = pw_shell b
    else e = ERANGE.
Proof.
  intros (L1 & L2 & L3 & L4 & L5) Hn (N1 & N2 & N3 & N4 & N5).
  pose proof (has_room_of_length _ _ L1 ltac:(lia)) as R1.
  pose proof (has_room_of_length _ _ L2 ltac:(lia)) as R2.
  pose proof (has_room_of_length _ _ L3 ltac:(lia)) as R3.
  pose proof (has_room_of_length _ _ L4 ltac:(lia)) as R4.
  pose proof (has_room_of_length _ _ L5 ltac:(lia)) as R5.
  destruct (strncopy_fitsb (<[0%nat := NUL]> (o_pw_name o)) _ 64 N1)
    as (b1 & C1 & _ & F1); [ rewrite length_insert; lia | ].
  destruct (strncopy_fitsb (<[0%nat := NUL]> (o_pw_passwd o)) _ 64 N2)
    as (b2 & C2 & _ & F2); [ rewrite length_insert; lia | ].
  destruct (strncopy_fitsb (<[0%nat := NUL]> (o_pw_gecos o)) _ 256 N3)
    as (b3 & C3 & _ & F3); [ rewrite length_insert; lia | ].
  destruct (strncopy_fitsb (<[0%nat := NUL]> (o_pw_dir o)) _ 1024 N4)
    as (b4 & C4 & _ & F4); [ rewrite length_insert; lia | ].
  destruct (strncopy_fitsb (<[0%nat := NUL]> (o_pw_shell o)) _ 1024 N5)
    as (b5 & C5 & _ & F5); [ rewrite length_insert; lia | ].
  destruct nm as [n|];
    destruct (fitsb (pw_name b) 64), (fitsb (pw_passwd b) 64),
      (fitsb (pw_gecos b) 256), (fitsb (pw_dir b) 1024),
      (fitsb (pw_shell b) 1024); cbn [andb];
    eexists _, _, _;
    (split;
     [ unfold _posix_getpw, clear_errno; run_step; rewrite Hn;
       repeat first [ rewrite or_strncopy_go | rewrite or_strncopy_skip
                    | progress run_step ];
       cbn [Z.eqb negb ERANGE]; run_step; reflexivity
     | first [ split; [ reflexivity | split; reflexivity ]
             | cbn; auto 10 ] ]).
Qed.

(** X14.  A group lookup, by name or by id, whose native call finds an
    entry: the id slot holds the id of the group; if the name and the
    password each take fewer than 64 bytes with the terminator, and the
    member names joined by ['|'] fewer than 4096, the arrays hold the
    name, the password and the joined member names, and the status is
    [errno]; otherwise the status is ERANGE. *)
Theorem getgr_result nm gid (o : group_out) s g :
  (length (o_gr_name o) = 64 ∧ length (o_gr_passwd o) = 64 ∧
   length (o_gr_mem o) = 4096)%nat →
  match nm with
  | Some n => (native (c_getgrnam n) (world s)).1.1
  | None => (native (c_getgrgid (to_uint gid)) (world s)).1.1
  end = Some g →
  no_nul (gr_name g) ∧ no_nul (gr_passwd g) ∧ Forall no_nul (gr_mem g) →
  ∃ e o' s',
    _posix_getgr 5 nm gid o s = Done (e, o') s' ∧
    o_gr_gid o' = gr_gid g ∧
    if fitsb (gr_name g) 64 && fitsb (gr_passwd g) 64 &&
       fitsb (String.concat "|" (gr_mem g)) 4096
    then
      e = default 0
            match nm with
            | Some n => (native (c_getgrnam n) (world s)).1.2
            | None => (native (c_getgrgid (to_uint gid)) (world s)).1.2
            end ∧
      cstr (o_gr_name o') = gr_name g ∧ cstr (o_gr_passwd o') = gr_passwd g ∧
      cstr (o_gr_mem o') = String.concat "|" (gr_mem g)
    else e = ERANGE.
Proof.
  intros (L1 & L2 & L3) Hn (N1 & N2 & N3).
  pose proof (has_room_of_length _ _ L1 ltac:(lia)) as R1.
  pose proof (has_room_of_length _ _ L2 ltac:(lia)) as R2.
  pose proof (has_room_of_length _ _ L3 ltac:(lia)) as R3.
  destruct (strncopy_fitsb (<[0%nat := NUL]> (o_gr_name o)) _ 64 N1)
    as (b1 & C1 & _ & F1); [ rewrite length_insert; lia | ].
  destruct (strncopy_fitsb (<[0%nat := NUL]> (o_gr_passwd o)) _ 64 N2)
    as (b2 & C2 & _ & F2); [ rewrite length_insert; lia | ].
  destruct (getgr_members_written (gr_mem g) true
              (<[0%nat := NUL]> (o_gr_mem o)) 0 4096 N3)
    as (b3 & C3 & _ & _ & F3);
    [ lia | rewrite length_insert; lia
    | apply list_lookup_insert_eq; lia | ].
  rewrite joined_concat in C3, F3. rewrite drop_0 in F3.
  change (Z.of_nat 0) with 0 in C3.
  assert (F3' : fitsb (String.concat "|" (gr_mem g)) 4096 = true →
                cstr b3 = String.concat "|" (gr_mem g)).
  { intros H. rewrite F3. apply substring_whole. unfold fitsb in H.
    apply Z.ltb_lt in H. lia. }
  destruct nm as [n|];
    destruct (fitsb (gr_name g) 64), (fitsb (gr_passwd g) 64),
      (fitsb (String.concat "|" (gr_mem g)) 4096); cbn [andb];
    eexists _, _, _;
    (split;
     [ unfold _posix_getgr, clear_errno; run_step; rewrite Hn;
       repeat first [ rewrite or_strncopy_go | rewrite or_strncopy_skip
                    | progress run_step ];
       cbn [Z.eqb negb ERANGE]; run_step; reflexivity
     | first [ split; reflexivity | cbn; auto 10 ] ]).
Qed.

(** X15.  [posix_readdir] on an open handle with a 256-byte array: at the
    end of the directory (the native call returns NULL) the array holds
    the empty string and the status is [errno], so 0 unless the native
    call set it; for an entry, the array holds the first 255 bytes of its
    name, and the status is [errno] when the name and its terminator take
    fewer than 256 bytes and ERANGE otherwise. *)
Theorem readdir_result h (nm : buffer) s :
  reachable s →
  h ∈ handles s →
  length nm = 256%nat →
  match (native (c_readdir h) (world s)).1.1 with
  | Some d_name => no_nul d_name
  | None => True
  end →
  ∃ e nm' s',
    posix_readdir 2 h nm s = Done (e, nm') s' ∧
    match (native (c_readdir h) (world s)).1.1 with
    | Some d_name =>
        cstr nm' = substring 0 255 d_name ∧
        if fitsb d_name 256
        then e = default 0 (native (c_readdir h) (world s)).1.2 ∧
             cstr nm' = d_name
        else e = ERANGE
    | None =>
        e = default 0 (native (c_readdir h) (world s)).1.2 ∧
        cstr nm' = EmptyString
    end.
Proof.
  intros Hs Hh Hnm Hd.
  pose proof (reachable_table_ok _ Hs) as Hok.
  pose proof (has_room_of_length _ _ Hnm ltac:(lia)) as R.
  assert (Hdir : ∀ B (f : Z → M B), (is_dir h false ≫= f) s = f 1 s).
  { intros B f. apply bind_done. apply is_dir_keep; assumption. }
  destruct ((native (c_readdir h) (world s)).1.1) as [d|] eqn:Hn.
  - destruct (strncopy_fitsb (<[0%nat := NUL]> nm) d 256 Hd)
      as (b1 & C1 & S1 & F1); [ rewrite length_insert; lia | ].
    destruct (fitsb d 256); eexists _, _, _;
      (split;
       [ unfold posix_readdir, clear_errno; run_step; rewrite Hdir;
         cbn [Z.eqb]; run_step; rewrite Hn; run_step;
         cbn [Z.eqb negb ERANGE]; run_step; reflexivity
       | cbn; auto ]).
  - eexists _, _, _. split.
    + unfold posix_readdir, clear_errno. run_step. rewrite Hdir.
      cbn [Z.eqb]. run_step. rewrite Hn. run_step. reflexivity.
    + split; [ reflexivity | ]. apply cstr_empty, empty_after_store, R.
Qed.

Lemma write_bytes_terminated w : ∀ (b : buffer) (p : nat),
  no_nul w →
  (p + String.length w < length b)%nat →
  ∃ b',
    write_bytes b (Z.of_nat p) w = Some b' ∧
    length b' = length b ∧
    (∀ i, (i < p)%nat → b' !! i = b !! i) ∧
    cstr (drop p (<[(p + String.length w)%nat := NUL]> b')) = w.
Proof.
  induction w as [|c w IH]; intros b p Hw Hl; cbn [write_bytes String.length] in *.
  - exists b. split; [ reflexivity | ]. split; [ reflexivity | ].
    split; [ reflexivity | ]. rewrite Nat.add_0_r.
    apply cstr_drop_nul. apply list_lookup_insert_eq. lia.
  - destruct Hw as [Hc Hw]. rewrite store_at by lia. cbn. rewrite Nat2Z.id.
    replace (Z.of_nat p + 1) with (Z.of_nat (S p)) by lia.
    destruct (IH (<[p := c]> b) (S p) Hw) as (b' & Hr & Hlen & Hpre & Hstr).
    { rewrite length_insert. lia. }
    exists b'. split; [ exact Hr | ].
    split; [ rewrite Hlen; apply length_insert | ]. split.
    + intros i Hi. rewrite Hpre by lia. apply list_lookup_insert_ne. lia.
    + replace (p + S (String.length w))%nat
        with (S p + String.length w)%nat by lia.
      rewrite (cstr_drop_cons _ p c); [ rewrite Hstr; reflexivity | | exact Hc ].
      rewrite list_lookup_insert_ne by lia. rewrite Hpre by lia.
      apply list_lookup_insert_eq. lia.
Qed.

Lemma no_nul_substring k : ∀ w, no_nul w → no_nul (substring 0 k w).
Proof.
  induction k as [|k IH]; intros [|c w]; cbn; try tauto.
  intros [Hc Hw]. split; [ exact Hc | apply IH, Hw ].
Qed.

(** X16.  [posix_readlink], when the native [readlink] succeeds, with a
    1024-byte array: one native call is made, with room for 1023 bytes;
    the array holds the (at most 1023) bytes of the link as a terminated
    string, and the status is [errno]. *)
Theorem readlink_result path (nm : buffer) s w :
  (native (c_readlink path 1023) (world s)).1.1 = Some w →
  no_nul w →
  length nm = 1024%nat →
  ∃ nm' s',
    posix_readlink 2 path nm s =
      Done (default 0 (native (c_readlink path 1023) (world s)).1.2, nm') s' ∧
    cstr nm' = substring 0 1023 w ∧
    length nm' = 1024%nat ∧
    calls s' = (calls s ++ [c_readlink path 1023])%list.
Proof.
  intros H Hw Hnm.
  pose proof (length_substring_le 1023 w) as Hle.
  destruct (write_bytes_terminated (substring 0 1023 w) nm 0
              (no_nul_substring 1023 w Hw))
    as (b' & Hb & Hl & _ & Hstr); [ lia | ].
  change (Z.of_nat 0) with 0 in Hb. rewrite drop_0 in Hstr. cbn [Nat.add] in Hstr.
  eexists _, _. split; [ | split; [ exact Hstr | split ] ].
  - unfold posix_readlink, clear_errno. run_step. rewrite H.
    rewrite Hb. cbn [mbind option_bind].
    unfold mbind at 1, M_bind at 1, mem at 1.
    rewrite bind_mem_any
      with (a := <[String.length (substring 0 1023 w) := NUL]> b').
    + run_step. reflexivity.
    + rewrite store_at by lia. rewrite Nat2Z.id. reflexivity.
  - rewrite length_insert. lia.
  - reflexivity.
Qed.

Lemma cstr_length_le (b : buffer) : ∀ i,
  b !! i = Some NUL → (String.length (cstr b) ≤ i)%nat.
Proof.
  induction b as [|c b IH]; intros [|i] H; cbn in *; try discriminate.
  - injection H as ->.
    destruct (ascii_dec NUL NUL); [ cbn; lia | contradiction ].
  - destruct (ascii_dec c NUL); cbn; [ lia | ].
    specialize (IH i H). lia.
Qed.

(** X17.  [posix_strftime] with a 128-byte array returns, whatever the
    native [strftime] writes, with a terminator in the last byte of the
    array: the array holds a string of at most 127 bytes; the status is
    [errno]. *)
Theorem strftime_terminated format a (sbuf : buffer) s :
  length sbuf = 128%nat →
  ∃ sbuf' s',
    posix_strftime 11 format a sbuf s =
      Done (default 0
              (native (c_strftime 127 format
                 (Tm (tm_sec a) (tm_min a) (tm_hour a) (tm_mday a) (tm_mon a)
                    (tm_year a) (tm_wday a) (tm_yday a) (tm_isdst a)))
                 (world s)).1.2, sbuf') s' ∧
    length sbuf' = 128%nat ∧
    sbuf' !! 127%nat = Some NUL ∧
    (String.length (cstr sbuf') ≤ 127)%nat.
Proof.
  intros Hl.
  pose proof (has_room_of_length _ _ Hl ltac:(lia)) as R.
  set (b := Tm (tm_sec a) (tm_min a) (tm_hour a) (tm_mday a) (tm_mon a)
              (tm_year a) (tm_wday a) (tm_yday a) (tm_isdst a)).
  set (w := substring 0 127 (native (c_strftime 127 format b) (world s)).1.1).
  pose proof (length_substring_le 127
                (native (c_strftime 127 format b) (world s)).1.1) as Hle.
  destruct (write_bytes_total w (<[0%nat := NUL]> sbuf) 0) as (b1 & Hb & Hl1).
  { rewrite length_insert. subst w. lia. }
  change (Z.of_nat 0) with 0 in Hb. rewrite length_insert in Hl1.
  assert (Hst : store b1 127 NUL = Some (<[127%nat := NUL]> b1)).
  { rewrite store_at by lia. reflexivity. }
  assert (Hlast : (<[127%nat := NUL]> b1) !! 127%nat = Some NUL).
  { apply list_lookup_insert_eq. lia. }
  eexists _, _. split; [ | split; [ | split; [ exact Hlast | ] ] ].
  - unfold posix_strftime, clear_errno. run_step. fold b. fold w. run_step.
    reflexivity.
  - rewrite length_insert. lia.
  - apply cstr_length_le, Hlast.
Qed.


End Results.

(** *** The status and [errno] *)

Section Errno.
Import PosixC PosixAux.
Context {L : Libc}.

Lemma same_but_errno_refl (s : State) : same_but_errno s s.
Proof. repeat split. Qed.

Lemma same_outcome_refl {A} (r : result A) : same_outcome r r.
Proof. destruct r; cbn; auto using same_but_errno_refl. Qed.

Lemma blind_ret {A} (a : A) : errno_blind (mret a).
Proof. intros s1 s2 H. split; [ reflexivity | exact H ]. Qed.

Lemma blind_bind {A B} (m : M A) (f : A → M B) :
  errno_blind m → (∀ a, errno_blind (f a)) → errno_blind (m ≫= f).
Proof.
  intros Hm Hf s1 s2 H. specialize (Hm s1 s2 H). unfold mbind, M_bind.
  destruct (m s1) as [a1 t1| |], (m s2) as [a2 t2| |]; cbn in Hm;
    try contradiction; try exact I.
  destruct Hm as [-> Ht]. apply Hf, Ht.
Qed.

(** Once [errno] is set, nothing is left of its earlier value. *)
Lemma blind_clear {B} e (f : unit → M B) : errno_blind (set_errno e ≫= f).
Proof.
  intros s1 s2 (E1 & E2 & E3 & E4). unfold mbind, M_bind, set_errno.
  rewrite E1, E2, E3, E4. apply same_outcome_refl.
Qed.

Lemma blind_sys c : errno_blind (sys c).
Proof.
  intros s1 s2 (E1 & E2 & E3 & E4). unfold sys. rewrite E4.
  destruct (native c (world s2)) as [[r e] w]. cbn.
  split; [ reflexivity | ]. repeat split; cbn; congruence.
Qed.

Lemma blind_mem {A} (o : option A) : errno_blind (mem o).
Proof.
  intros s1 s2 H. unfold mem. destruct o; cbn; [ | exact I ].
  split; [ reflexivity | exact H ].
Qed.

Lemma blind_check_argc {A} argc x (d : A) k :
  errno_blind k → errno_blind (check_argc argc x d k).
Proof.
  intros Hk. unfold check_argc. destruct (negb (argc =? x)).
  - apply blind_ret.
  - exact Hk.
Qed.

Lemma blind_get_dir_count : errno_blind get_dir_count.
Proof.
  intros s1 s2 H. unfold get_dir_count. cbn.
  split; [ apply H | exact H ].
Qed.

Lemma blind_is_dir x y : errno_blind (is_dir x y).
Proof.
  intros s1 s2 (E1 & E2 & E3 & E4). unfold is_dir. rewrite E1, E2.
  destruct (in_list x (dir_list s2) (dir_count s2) y) as [[[r l] n]|]; cbn;
    [ | exact I ].
  split; [ reflexivity | ]. repeat split; cbn; congruence.
Qed.

Ltac blind :=
  repeat first
    [ apply blind_ret
    | match goal with
      | |- errno_blind (set_errno ?e ≫= ?f) => exact (blind_clear e f)
      | |- errno_blind (sys ?c) => exact (blind_sys c)
      end
    | apply blind_mem | apply blind_get_dir_count | apply blind_is_dir
    | apply blind_check_argc
    | apply blind_bind; [ | intros ? ]
    | match goal with
      | |- errno_blind (match ?x with _ => _ end) => destruct x
      end ].

(** X18.  Except for [setenv], [unsetenv] and [closedir], the value an
    operation returns and what it leaves in its slots, in the table of
    open streams and in the operating system do not depend on what
    [errno] held when the operation was called, for any argument count:
    a run from the same state with another [errno] ends the same way,
    with the same value and slots, in a state that differs at most in
    [errno]. *)
Theorem stale_errno_ignored fuel argc r s e :
  no_clear_errno r = false →
  same_outcome (exec fuel argc r s) (exec fuel argc r (with_errno e s)).
Proof.
  intros Hr.
  assert (B : errno_blind (exec fuel argc r)).
  { destruct r; try discriminate Hr; cbn [exec]; unfold out, no_out;
      unfold posix_time, posix_clock_gettime, posix_clock_getres,
        _posix_clock_get, posix_localtime, posix_gmtime, _posix_time,
        posix_mktime, posix_strftime, posix_times, posix_sysinfo,
        posix_uname, posix_openlog, posix_syslog, posix_umask, posix_stat,
        posix_lstat, _posix_stat, posix_readlink, posix_link, posix_symlink,
        _posix_link, posix_unlink, posix_mkdir, posix_rmdir, posix_chmod,
        posix_chown, posix_lchown, _posix_chown, posix_getpwnam,
        posix_getpwuid, _posix_getpw, posix_getgrnam, posix_getgrgid,
        _posix_getgr, posix_getgrouplist, posix_opendir, posix_readdir,
        check_dir, clear_errno;
      blind. }
  apply B. repeat split.
Qed.


(** X20.  A clock name that is not in the table of clocks makes
    [posix_clock_gettime] and [posix_clock_getres] return EINVAL, and a
    priority name that is not in the table of priorities makes
    [posix_syslog] return EINVAL, in an unchanged state (no native call,
    [errno] untouched) and with the slots as they were. *)
Theorem unknown_name_einval clk_id_name (o : timespec) priority_name message s :
  ¬ resolves clk_id_param clk_id_name →
  ¬ resolves priority_param priority_name →
  posix_clock_gettime 3 clk_id_name o s = Done (EINVAL, o) s ∧
  posix_clock_getres 3 clk_id_name o s = Done (EINVAL, o) s ∧
  posix_syslog 2 priority_name message s = Done EINVAL s.
Proof.
  unfold resolves. intros Hc Hp.
  unfold posix_clock_gettime, posix_clock_getres, _posix_clock_get,
    posix_syslog.
  rewrite !check_argc_same.
  destruct (_get_param clk_id_param clk_id_name indeterminate) as [rc clk].
  destruct (_get_param priority_param priority_name indeterminate) as [rp pr].
  cbn [fst] in Hc, Hp.
  destruct (Z.eqb_spec rc 0) as [?|_]; [ contradiction | ].
  destruct (Z.eqb_spec rp 0) as [?|_]; [ contradiction | ].
  repeat split.
Qed.

(** X21.  [posix_openlog] with option and facility strings whose entries
    all resolve returns [errno]; it calls [malloc] for the identifier and
    its terminator and then, unless [malloc] returned NULL, the native
    [openlog] with the identifier and the bitwise OR of the option flags
    and of the facility flags; it makes no other native call. *)
Theorem openlog_result ident option_name facility_name s :
  Forall (resolves option_param) (strtok_all list_delimiter option_name) →
  Forall (resolves facility_param) (strtok_all list_delimiter facility_name) →
  let size := Z.of_nat (String.length ident) + 1 in
  let option :=
    or_all (map (flag_of option_param)
              (strtok_all list_delimiter option_name)) in
  let facility :=
    or_all (map (flag_of facility_param)
              (strtok_all list_delimiter facility_name)) in
  ∃ e s',
    posix_openlog 3 ident option_name facility_name s = Done e s' ∧
    e = errno s' ∧
    calls s' =
      if (native (c_malloc size) (world s)).1.1 =? 0
      then (calls s ++ [c_malloc size])%list
      else (calls s ++ [c_malloc size; c_openlog ident option facility])%list.
Proof.
  intros Ho Hf size option facility.
  unfold posix_openlog, clear_errno. fold size.
  destruct ((native (c_malloc size) (world s)).1.1 =? 0) eqn:E.
  - eexists _, _. split; [ run_step; rewrite E; run_step; reflexivity | ].
    split; reflexivity.
  - unfold _get_flags.
    rewrite (get_flags_loop_resolved _ _ 0 indeterminate Ho).
    rewrite (get_flags_loop_resolved _ _ 0 indeterminate Hf).
    rewrite !Z.lor_0_l. fold option. fold facility.
    eexists _, _. split.
    + run_step. rewrite E. cbn [Z.eqb negb]. run_step. reflexivity.
    + cbn. split; [ reflexivity | ]. rewrite <- app_assoc. reflexivity.
Qed.

End Errno.

(** *** The native calls and the table of open streams *)

Section Streams.
Import PosixC PosixAux.
Context {L : Libc}.

(** *** The group database is always closed again *)

Lemma strpncopy_loop_total k : ∀ (b : buffer) p s n,
  0 <= p → p + Z.of_nat k < Z.of_nat (length b) → n = Z.of_nat k + 1 →
  ∃ q n' b',
    strpncopy_loop k b p s n = Some (q, n', b') ∧
    length b' = length b ∧ 1 <= n' ∧
    ∀ p', q = Some p' → p <= p' ∧ p' + n' = p + n.
Proof.
  induction k as [|k IH]; intros b p s n Hp Hlen Hn; cbn [strpncopy_loop].
  - rewrite store_at by lia. cbn. eexists _, _, _. split; [ reflexivity | ].
    split; [ apply length_insert | ]. split; [ lia | discriminate ].
  - rewrite store_at by lia. cbn.
    destruct (ascii_dec (deref s) NUL).
    + eexists _, _, _. split; [ reflexivity | ].
      split; [ apply length_insert | ]. split; [ lia | ].
      intros p' H. injection H as <-. lia.
    + destruct (IH (<[Z.to_nat p := deref s]> b) (p + 1) (advance s) (n - 1))
        as (q & n' & b' & Hr & Hl & Hn' & Hq);
        [ lia | rewrite length_insert; lia | lia | ].
      exists q, n', b'. split; [ exact Hr | ].
      split; [ rewrite Hl; apply length_insert | ]. split; [ exact Hn' | ].
      intros p' H. specialize (Hq p' H). lia.
Qed.

Lemma strpncopy_total (b : buffer) p s n :
  0 <= p → 1 <= n → p + n <= Z.of_nat (length b) →
  ∃ q n' b',
    strpncopy b p s n = Some (q, n', b') ∧
    length b' = length b ∧ 1 <= n' ∧
    ∀ p', q = Some p' → p <= p' ∧ p' + n' = p + n.
Proof.
  intros Hp Hn Hb. unfold strpncopy. apply strpncopy_loop_total; lia.
Qed.

Lemma getgrouplist_members_total grname nm mems : ∀ found (b : buffer) p l,
  0 <= p → 1 <= l → p + l <= Z.of_nat (length b) →
  ∃ st b',
    getgrouplist_members mems grname nm found b p l = Some (st, b') ∧
    length b' = length b ∧
    ∀ found' p' l', st = Some (found', p', l') →
      0 <= p' ∧ 1 <= l' ∧ p' + l' <= Z.of_nat (length b).
Proof.
  induction mems as [|m mems IH]; intros found b p l Hp Hl Hb;
    cbn [getgrouplist_members].
  - eexists _, _. split; [ reflexivity | ]. split; [ reflexivity | ].
    intros f p' l' H. injection H as _ <- <-. lia.
  - destruct (string_dec m nm) as [_|_]; [ | apply IH; assumption ].
    assert (Hname : ∀ found (b1 : buffer) p1 l1,
      length b1 = length b → 0 <= p1 → 1 <= l1 →
      p1 + l1 <= Z.of_nat (length b) →
      ∃ st b',
        ('(q, l, b) ← strpncopy b1 p1 grname l1;
         match q with
         | None => Some (None, b)
         | Some p => getgrouplist_members mems grname nm found b p l
         end) = Some (st, b') ∧
        length b' = length b ∧
        ∀ found' p' l', st = Some (found', p', l') →
          0 <= p' ∧ 1 <= l' ∧ p' + l' <= Z.of_nat (length b)).
    { intros f b1 p1 l1 Hlen Hp1 Hl1 Hb1.
      destruct (strpncopy_total b1 p1 grname l1 Hp1 Hl1)
        as (q & l2 & b2 & Hr & Hlen2 & Hl2 & Hq); [ lia | ].
      rewrite Hr. cbn [mbind option_bind]. destruct q as [p2|].
      - destruct (Hq p2 eq_refl) as [Hp2 Hsum].
        destruct (IH f b2 p2 l2) as (st & b' & Hr' & Hlen' & Hst);
          [ lia | lia | lia | ].
        exists st, b'. split; [ exact Hr' | ]. split; [ congruence | ].
        intros f' p' l' E. specialize (Hst f' p' l' E). lia.
      - eexists _, _. split; [ reflexivity | ]. split; [ congruence | ].
        discriminate. }
    destruct (negb (found =? 0)).
    + destruct (strpncopy_total b p "|" l Hp Hl Hb)
        as (q & l2 & b2 & Hr & Hlen2 & Hl2 & Hq).
      rewrite Hr. cbn [mbind option_bind]. destruct q as [p2|].
      * destruct (Hq p2 eq_refl) as [Hp2 Hsum].
        apply Hname; [ exact Hlen2 | lia | lia | lia ].
      * eexists _, _. split; [ reflexivity | ]. split; [ exact Hlen2 | ].
        discriminate.
    + cbn [mbind option_bind]. apply Hname; [ reflexivity | lia | lia | lia ].
Qed.

Lemma getgrouplist_loop_returns nm n : ∀ fuel found (list : buffer) p l s,
  grent_left n (world s) → (n < fuel)%nat →
  0 <= p → 1 <= l → p + l <= Z.of_nat (length list) →
  ∃ e list' s' k,
    getgrouplist_loop fuel nm found list p l s = Done (e, list') s' ∧
    (k ≤ n)%nat ∧
    calls s' = (calls s ++ repeat c_getgrent (S k) ++ [c_endgrent])%list.
Proof.
  induction n as [|n IH]; intros fuel found list p l s Hleft Hfuel Hp Hl Hb;
    (destruct fuel as [|fuel]; [ lia | ]); cbn [getgrouplist_loop];
    cbn [grent_left] in Hleft.
  - eexists _, _, _, 0%nat. split.
    + run_step. rewrite Hleft. run_step. reflexivity.
    + split; [ lia | ]. cbn. rewrite <- app_assoc. reflexivity.
  - destruct Hleft as [[g Hg] Hleft].
    destruct (getgrouplist_members_total (gr_name g) nm (gr_mem g)
                found list p l Hp Hl Hb) as (st & list1 & Hm & Hlen & Hst).
    destruct st as [[[found' p'] l']|].
    + destruct (Hst found' p' l' eq_refl) as (Hp' & Hl' & Hb').
      set (s1 := mkState (default (errno s) (native c_getgrent (world s)).1.2)
                   (dir_list s) (dir_count s) (calls s ++ [c_getgrent])
                   (native c_getgrent (world s)).2).
      destruct (IH fuel found' list1 p' l' s1 Hleft ltac:(lia) Hp' Hl')
        as (e & list' & s' & k & Hr & Hk & Hcalls); [ rewrite Hlen; exact Hb' | ].
      exists e, list', s', (S k). split.
      * run_step. rewrite Hg. run_step. exact Hr.
      * split; [ lia | ]. rewrite Hcalls. cbn. rewrite <- app_assoc.
        reflexivity.
    + eexists _, _, _, 0%nat. split.
      * run_step. rewrite Hg. run_step. reflexivity.
      * split; [ lia | ]. cbn. rewrite <- app_assoc. reflexivity.
Qed.

(** X22.  When the group database ends after [n] entries, the list array
    has 4096 bytes and the loop is given more than [n] rounds,
    [posix_getgrouplist] returns, for any argument count, and its native
    calls are [getgrent] between 1 and [n + 1] times followed by one
    [endgrent]: the database is closed on every path. *)
Theorem getgrouplist_returns fuel argc nm (list : buffer) s n :
  grent_left n (world s) →
  (n < fuel)%nat →
  length list = 4096%nat →
  ∃ e list' s' k,
    posix_getgrouplist fuel argc nm list s = Done (e, list') s' ∧
    (k ≤ n)%nat ∧
    calls s' = (calls s ++ repeat c_getgrent (S k) ++ [c_endgrent])%list.
Proof.
  intros Hleft Hfuel Hlen.
  assert (R : has_room list) by (unfold has_room; lia).
  destruct (getgrouplist_loop_returns nm n fuel 0 (<[0%nat := NUL]> list)
              0 4096 (with_errno 0 s) Hleft Hfuel)
    as (e & list' & s' & k & Hr & Hk & Hcalls);
    [ lia | lia | rewrite length_insert; lia | ].
  exists e, list', s', k. split; [ | split; [ exact Hk | exact Hcalls ] ].
  unfold posix_getgrouplist, clear_errno. run_step. exact Hr.
Qed.

(** *** The table of open streams *)

Lemma opendir_pushes_nonnull argc path d s v s' :
  posix_opendir argc path d s = Done v s' →
  dir_count s' = S (dir_count s) →
  (native (c_opendir path) (world s)).1.1 ≠ 0.
Proof.
  destruct (Z.eqb_spec argc 2) as [->|Hne].
  - rewrite opendir_value.
    destruct (dir_limit <=? dir_count s)%nat.
    { intros H. injection H as _ <-. lia. }
    destruct (native (c_opendir path) (world s)) as [[b e] w]. cbn [fst].
    destruct (Z.eqb_spec b 0) as [?|Hb].
    { intros H. injection H as _ <-. cbn. lia. }
    intros _ _. exact Hb.
  - unfold posix_opendir. rewrite check_argc_other by exact Hne.
    intros H. injection H as _ <-. lia.
Qed.

Lemma reachable_no_null s : reachable s → 0 ∉ handles s.
Proof.
  induction 1 as [e w|s fuel argc r v r' s' Hs IH H].
  - unfold handles. cbn. apply not_elem_of_nil.
  - pose proof (reachable_table_ok _ Hs) as Hok.
    destruct (exec_table _ _ _ _ _ _ _ Hok H)
      as [E|[_ [(p & d & -> & _ & Hc & Hh)|(dir & _ & _ & Hperm)]]].
    + rewrite (same_handles _ _ E). exact IH.
    + rewrite Hh. intros Hin. apply elem_of_app in Hin as [Hin|Hin];
        [ exact (IH Hin) | ].
      apply list_elem_of_singleton in Hin.
      cbn [exec] in H. apply out_inv in H as (a & H & _).
      exact (opendir_pushes_nonnull _ _ _ _ _ _ H Hc (eq_sym Hin)).
    + intros Hin. apply IH. rewrite Hperm. right. exact Hin.
Qed.

(** X23.  In every state the process reaches NULL is not in the
    open-handle set, so a read and a close of NULL return EINVAL in an
    unchanged state. *)
Theorem null_handle_invalid s (nm : buffer) :
  reachable s →
  has_room nm →
  (0 ∉ handles s) ∧
  posix_readdir 2 0 nm s = Done (EINVAL, <[0%nat := NUL]> nm) s ∧
  posix_closedir 1 0 s = Done EINVAL s.
Proof.
  intros Hs Hnm.
  pose proof (reachable_table_ok _ Hs) as Hok.
  pose proof (reachable_no_null _ Hs) as Hnull.
  split; [ exact Hnull | ]. split.
  - apply readdir_absent; assumption.
  - apply closedir_absent; assumption.
Qed.

(** X24.  Only [opendir] and [closedir] change the table of open streams:
    any other operation, with any arguments and argument count, leaves
    the table, its count and the open-handle set as they were. *)
Theorem table_changed_by_open_close_only fuel argc r s v r' s' :
  changes_table r = false →
  exec fuel argc r s = Done (v, r') s' →
  dir_list s' = dir_list s ∧ dir_count s' = dir_count s ∧
  handles s' = handles s.
Proof.
  intros Hr H.
  assert (E : dir_list s' = dir_list s ∧ dir_count s' = dir_count s).
  { pose proof (keeps_exec fuel argc r) as K.
    destruct r; try discriminate Hr; try exact (K _ _ _ H).
    cbn [exec] in H. apply out_inv in H as (a & H & _).
    exact (keeps_readdir _ _ _ _ _ _ H). }
  destruct E as [E1 E2]. split; [ exact E1 | ]. split; [ exact E2 | ].
  apply same_handles. split; assumption.
Qed.

(** *** The native calls an operation makes *)

Lemma emits_ret {A} P (a : A) : emits P (mret a).
Proof.
  intros s b s' H. injection H as _ <-. exists []. split;
    [ symmetry; apply app_nil_r | constructor ].
Qed.

Lemma emits_bind {A B} P (m : M A) (f : A → M B) :
  emits P m → (∀ a, emits P (f a)) → emits P (m ≫= f).
Proof.
  intros Hm Hf s b s' H.
  destruct (bind_inv _ _ _ _ _ H) as (a & s1 & H1 & H2).
  destruct (Hm _ _ _ H1) as (n1 & E1 & F1).
  destruct (Hf _ _ _ _ H2) as (n2 & E2 & F2).
  exists (n1 ++ n2)%list. split.
  - rewrite E2, E1. symmetry. apply app_assoc.
  - apply Forall_app. split; assumption.
Qed.

Lemma emits_get_errno P : emits P get_errno.
Proof.
  intros s b s' H. injection H as _ <-. exists []. split;
    [ symmetry; apply app_nil_r | constructor ].
Qed.

Lemma emits_set_errno P e : emits P (set_errno e).
Proof.
  intros s b s' H. injection H as _ <-. exists []. split;
    [ symmetry; apply app_nil_r | constructor ].
Qed.

Lemma emits_get_dir_count P : emits P get_dir_count.
Proof.
  intros s b s' H. injection H as _ <-. exists []. split;
    [ symmetry; apply app_nil_r | constructor ].
Qed.

Lemma emits_sys (P : Syscall → Prop) c : P c → emits P (sys c).
Proof.
  intros Hc s b s'. unfold sys. destruct (native c (world s)) as [[r e] w].
  intros H. injection H as _ <-. exists [c]. split;
    [ reflexivity | repeat constructor; exact Hc ].
Qed.

Lemma emits_mem {A} P (o : option A) : emits P (mem o).
Proof.
  intros s b s'. unfold mem. destruct o; [ | discriminate ].
  intros H. injection H as _ <-. exists []. split;
    [ symmetry; apply app_nil_r | constructor ].
Qed.

Lemma emits_push_dir P x : emits P (push_dir x).
Proof.
  intros s b s'. unfold push_dir.
  destruct (push_list x (dir_list s) (dir_count s)) as [[l n]|];
    [ | discriminate ].
  intros H. injection H as _ <-. exists []. split;
    [ symmetry; apply app_nil_r | constructor ].
Qed.

Lemma emits_is_dir P x y : emits P (is_dir x y).
Proof.
  intros s b s'. unfold is_dir.
  destruct (in_list x (dir_list s) (dir_count s) y) as [[[r l] n]|];
    [ | discriminate ].
  intros H. injection H as _ <-. exists []. split;
    [ symmetry; apply app_nil_r | constructor ].
Qed.

Lemma emits_check_argc {A} P argc x (d : A) k :
  emits P k → emits P (check_argc argc x d k).
Proof.
  intros Hk. unfold check_argc. destruct (negb (argc =? x)).
  - apply emits_ret.
  - exact Hk.
Qed.

Lemma emits_out_of_fuel {A} P : emits P (λ _ : State, @OutOfFuel L A).
Proof. intros s b s' H. discriminate H. Qed.

Ltac emits_step :=
  repeat first
    [ apply emits_ret | apply emits_get_errno | apply emits_set_errno
    | apply emits_get_dir_count | apply emits_push_dir | apply emits_is_dir
    | match goal with
      | |- emits ?P (sys ?c) => exact (emits_sys P c eq_refl)
      end
    | apply emits_mem | apply emits_out_of_fuel
    | apply emits_check_argc
    | apply emits_bind; [ | intros ? ]
    | match goal with
      | |- emits _ (match ?x with _ => _ end) => destruct x
      end ].

Lemma emits_getgrouplist_loop P fuel nm found list p l :
  P c_getgrent → P c_endgrent →
  emits P (getgrouplist_loop fuel nm found list p l).
Proof.
  intros H1 H2. revert found list p l.
  induction fuel as [|fuel IH]; intros found list p l; cbn [getgrouplist_loop].
  - apply emits_out_of_fuel.
  - repeat first
      [ apply IH | apply emits_ret | apply emits_get_errno
      | match goal with
        | |- emits ?P (sys c_getgrent) => exact (emits_sys P _ H1)
        | |- emits ?P (sys c_endgrent) => exact (emits_sys P _ H2)
        end
      | apply emits_mem
      | apply emits_bind; [ | intros ? ]
      | match goal with
        | |- emits _ (match ?x with _ => _ end) => destruct x
        end ].
Qed.

(** The operations that are not handed a stream hand none to the native
    layer. *)
Lemma emits_exec fuel argc r :
  match r with
  | r_readdir _ _ | r_closedir _ => True
  | _ => emits (λ c, stream_of c = None) (exec fuel argc r)
  end.
Proof.
  destruct r; try exact I; cbn [exec]; unfold out, no_out;
    unfold posix_time, posix_clock_gettime, posix_clock_getres,
      _posix_clock_get, posix_localtime, posix_gmtime, _posix_time,
      posix_mktime, posix_strftime, posix_times, posix_sysinfo, posix_uname,
      posix_setenv, posix_unsetenv, posix_openlog, posix_syslog, posix_umask,
      posix_stat, posix_lstat, _posix_stat, posix_readlink, posix_link,
      posix_symlink, _posix_link, posix_unlink, posix_mkdir, posix_rmdir,
      posix_chmod, posix_chown, posix_lchown, _posix_chown, posix_getpwnam,
      posix_getpwuid, _posix_getpw, posix_getgrnam, posix_getgrgid,
      _posix_getgr, posix_getgrouplist, posix_opendir, check_dir, clear_errno;
    emits_step.
  apply emits_getgrouplist_loop; reflexivity.
Qed.

Lemma emits_readdir argc dir nm :
  emits (λ c, c = c_readdir dir) (posix_readdir argc dir nm).
Proof. unfold posix_readdir, clear_errno. emits_step. Qed.

Lemma emits_closedir argc dir :
  emits (λ c, c = c_closedir dir) (posix_closedir argc dir).
Proof. unfold posix_closedir. emits_step. Qed.

(** X25.  From a state the process reaches, an operation only extends the
    log of native calls, and every stream it hands to the native
    [readdir] or [closedir] is a handle that was in the open-handle set
    when the operation was called, and is not NULL. *)
Theorem streams_passed_are_open fuel argc r s v r' s' :
  reachable s →
  exec fuel argc r s = Done (v, r') s' →
  ∃ new,
    calls s' = (calls s ++ new)%list ∧
    ∀ c d, c ∈ new → stream_of c = Some d → d ∈ handles s ∧ d ≠ 0.
Proof.
  intros Hs H.
  pose proof (reachable_table_ok _ Hs) as Hok.
  pose proof (reachable_no_null _ Hs) as Hnull.
  assert (Hopen : ∀ d, d ∈ handles s → d ∈ handles s ∧ d ≠ 0).
  { intros d Hd. split; [ exact Hd | ]. intros ->. exact (Hnull Hd). }
  pose proof (emits_exec fuel argc r) as E.
  destruct r;
    try (destruct (E _ _ _ H) as (new & Hc & Hf); exists new;
         split; [ exact Hc | ];
         intros c d Hin Hd; rewrite Forall_forall in Hf;
         rewrite (Hf c Hin) in Hd; discriminate Hd).
  - (* readdir *)
    cbn [exec] in H. apply out_inv in H as (a & H & _).
    destruct (decide (dir ∈ handles s)) as [Hin|Hout].
    + destruct (emits_readdir _ _ _ _ _ _ H) as (new & Hc & Hf).
      exists new. split; [ exact Hc | ].
      intros c d Hc' Hd. rewrite Forall_forall in Hf.
      rewrite (Hf c Hc') in Hd. injection Hd as <-. apply Hopen, Hin.
    + exists []. split; [ | intros c d Hc; apply elem_of_nil in Hc; contradiction ].
      rewrite app_nil_r. revert H. unfold posix_readdir, check_argc.
      destruct (negb (argc =? 2));
        [ intros H; injection H as _ _ <-; reflexivity | ].
      unfold mbind at 1, M_bind at 1, mem at 1.
      destruct (store nm 0 NUL) as [b|]; [ | discriminate ].
      rewrite (bind_done _ _ s 0 s) by (apply is_dir_absent; assumption).
      cbn [Z.eqb]. intros H. injection H as _ _ <-. reflexivity.
  - (* closedir *)
    cbn [exec] in H. apply no_out_inv in H as (H & _).
    destruct (decide (dir ∈ handles s)) as [Hin|Hout].
    + destruct (emits_closedir _ _ _ _ _ H) as (new & Hc & Hf).
      exists new. split; [ exact Hc | ].
      intros c d Hc' Hd. rewrite Forall_forall in Hf.
      rewrite (Hf c Hc') in Hd. injection Hd as <-. apply Hopen, Hin.
    + exists []. split; [ | intros c d Hc; apply elem_of_nil in Hc; contradiction ].
      rewrite app_nil_r. revert H. unfold posix_closedir, check_argc.
      destruct (negb (argc =? 1));
        [ intros H; injection H as _ <-; reflexivity | ].
      rewrite (bind_done _ _ s 0 s) by (apply is_dir_absent; assumption).
      cbn [Z.eqb]. intros H. injection H as _ <-. reflexivity.
Qed.

End Streams.

(** *** The groups of a user *)

Section GroupList.
Import PosixC PosixAux.
Context {L : Libc}.

(** The members loop of [posix_getgrouplist] lays the name of the group
    out as the members loop of [_posix_getgr] lays out that many equal
    members. *)
Lemma getgrouplist_members_as_getgr grname nm mems : ∀ found (b : buffer) p l,
  getgrouplist_members mems grname nm found b p l =
  '(st, b') ← getgr_members (repeat grname (occurrences nm mems))
                (found =? 0) b p l;
  Some (match st with
        | Some (p', l') =>
            Some (found_after found (occurrences nm mems), p', l')
        | None => None
        end, b').
Proof.
  induction mems as [|m mems IH]; intros found b p l;
    cbn [getgrouplist_members occurrences].
  - reflexivity.
  - destruct (string_dec m nm) as [_|_]; [ | apply IH ].
    cbn [Nat.add repeat getgr_members found_after].
    destruct (Z.eqb_spec found 0) as [->|Hne]; cbn [negb mbind option_bind].
    + destruct (strpncopy b p grname l) as [[[[q|] l1] b1]|];
        cbn [mbind option_bind]; try reflexivity.
      change (0 + 1) with 1. rewrite IH. cbn [Z.eqb].
      destruct (getgr_members _ false b1 q l1) as [[[[p' l']|] b']|];
        cbn [mbind option_bind]; try reflexivity.
      destruct (occurrences nm mems); reflexivity.
    + destruct (strpncopy b p "|" l) as [[[[q|] l1] b1]|];
        cbn [mbind option_bind]; try reflexivity.
      destruct (strpncopy b1 q grname l1) as [[[[q2|] l2] b2]|];
        cbn [mbind option_bind]; try reflexivity.
      assert (Hf : (found =? 0) = false) by (apply Z.eqb_neq; exact Hne).
      rewrite IH, Hf.
      destruct (getgr_members _ false b2 q2 l2) as [[[[p' l']|] b']|];
        cbn [mbind option_bind]; try reflexivity.
      destruct (occurrences nm mems); cbn [found_after]; rewrite ?Hf;
        reflexivity.
Qed.

Lemma joined_app first ms1 ms2 :
  joined first (ms1 ++ ms2) =
  joined first ms1 ++
  joined (first && match ms1 with [] => true | _ => false end) ms2.
Proof.
  destruct ms1 as [|m ms1].
  - cbn. rewrite andb_true_r. reflexivity.
  - rewrite andb_false_r. cbn [app joined].
    rewrite !append_assoc. do 2 f_equal.
    induction ms1 as [|m' ms1 IH]; cbn [app joined].
    + reflexivity.
    + rewrite !append_assoc, IH. reflexivity.
Qed.

Lemma found_after_zero found k :
  (found_after found k =? 0) =
  (found =? 0) && match repeat EmptyString k with [] => true | _ => false end.
Proof.
  destruct k; cbn [found_after repeat].
  - rewrite andb_true_r. reflexivity.
  - rewrite andb_false_r. destruct (Z.eqb_spec found 0) as [_|Hne];
      [ reflexivity | apply Z.eqb_neq, Hne ].
Qed.

Lemma joined_names first ms x k :
  joined first (repeat x k ++ ms) =
  joined first (repeat x k) ++
  joined (first && match repeat EmptyString k with [] => true | _ => false end)
    ms.
Proof. rewrite joined_app. destruct k; reflexivity. Qed.

Lemma fitsb_app w1 w2 l :
  fitsb w1 l = true →
  fitsb (w1 ++ w2) l = fitsb w2 (l - Z.of_nat (String.length w1)).
Proof.
  unfold fitsb. rewrite length_append. intros H.
  destruct (Z.ltb_spec (Z.of_nat (String.length w1 + String.length w2) + 1) l);
    destruct (Z.ltb_spec (Z.of_nat (String.length w2) + 1)
                (l - Z.of_nat (String.length w1)));
    first [ reflexivity | lia ].
Qed.

Lemma fitsb_app_false w1 w2 l :
  fitsb w1 l = false → fitsb (w1 ++ w2) l = false.
Proof.
  unfold fitsb. rewrite length_append. intros H.
  apply Z.ltb_ge in H. apply Z.ltb_ge. lia.
Qed.

Lemma Forall_repeat_same {A} (P : A → Prop) x k :
  P x → Forall P (repeat x k).
Proof. intros H. induction k; cbn; constructor; assumption. Qed.

Lemma getgrouplist_loop_written nm n : ∀ fuel found (list : buffer) (p : nat) l s,
  grent_left n (world s) → (n < fuel)%nat →
  Forall (λ g, no_nul (gr_name g)) (grents n (world s)) →
  2 <= l → Z.of_nat p + l <= Z.of_nat (length list) →
  list !! p = Some NUL →
  ∃ e list' s',
    getgrouplist_loop fuel nm found list (Z.of_nat p) l s = Done (e, list') s' ∧
    length list' = length list ∧
    (∀ i, (i < p)%nat → list' !! i = list !! i) ∧
    cstr (drop p list') =
      substring 0 (Z.to_nat (l - 1))
        (joined (found =? 0) (group_names nm (grents n (world s)))) ∧
    (if fitsb (joined (found =? 0) (group_names nm (grents n (world s)))) l
     then e = errno s' else e = ERANGE).
Proof.
  induction n as [|n IH]; intros fuel found list p l s Hleft Hfuel Hnames Hl Hb Hp;
    (destruct fuel as [|fuel]; [ lia | ]); cbn [getgrouplist_loop];
    cbn [grent_left] in Hleft; cbn [grents] in *.
  - cbn [group_names flat_map joined].
    eexists _, _, _. split.
    { run_step. rewrite Hleft. run_step. reflexivity. }
    split; [ reflexivity | ]. split; [ reflexivity | ]. split.
    + rewrite cstr_drop_nul by exact Hp. destruct (Z.to_nat (l - 1)); reflexivity.
    + unfold fitsb. cbn [String.length].
      destruct (Z.ltb_spec (Z.of_nat 0 + 1) l); [ reflexivity | lia ].
  - destruct Hleft as [[g Hg] Hleft]. rewrite Hg in *.
    apply Forall_cons in Hnames as [Hname Hnames].
    cbn [group_names flat_map]. fold (group_names nm).
    set (k := occurrences nm (gr_mem g)).
    set (w1 := joined (found =? 0) (repeat (gr_name g) k)).
    rewrite joined_names. fold w1.
    rewrite <- found_after_zero.
    set (gs := grents n (native c_getgrent (world s)).2) in *.
    set (w2 := joined (found_after found k =? 0) (group_names nm gs)).
    destruct (getgr_members_written (repeat (gr_name g) k) (found =? 0)
                list p l) as (b1 & Hr & Hlen & Hpre & Hstr);
      [ apply Forall_repeat_same; exact Hname
      | exact Hl | exact Hb | exact Hp | ].
    fold w1 in Hr, Hstr.
    set (s1 := mkState (default (errno s) (native c_getgrent (world s)).1.2)
                 (dir_list s) (dir_count s) (calls s ++ [c_getgrent])
                 (native c_getgrent (world s)).2).
    destruct (fitsb w1 l) eqn:F1.
    + assert (Hfit : Z.of_nat (String.length w1) + 1 < l)
        by (unfold fitsb in F1; apply Z.ltb_lt in F1; exact F1).
      rewrite substring_whole in Hstr by lia.
      destruct (IH fuel (found_after found k) b1 (p + String.length w1)%nat
                  (l - Z.of_nat (String.length w1)) s1 Hleft ltac:(lia) Hnames)
        as (e & list' & s' & Hrun & Hlen' & Hpre' & Hstr' & He);
        [ lia | rewrite Hlen; lia | apply cstr_end; [ exact Hstr | lia ] | ].
      fold gs in Hstr', He. fold w2 in Hstr', He.
      assert (Hm : getgrouplist_members (gr_mem g) (gr_name g) nm found list
                     (Z.of_nat p) l =
                   Some (Some (found_after found k,
                               Z.of_nat (p + String.length w1),
                               l - Z.of_nat (String.length w1)), b1)).
      { rewrite getgrouplist_members_as_getgr. fold k. rewrite Hr. reflexivity. }
      exists e, list', s'. split.
      { run_step. rewrite Hg. run_step. exact Hrun. }
      split; [ congruence | ]. split.
      { intros i Hi. rewrite Hpre' by lia. apply Hpre, Hi. }
      split.
      * rewrite (cstr_chain w1 b1 list' p Hstr)
          by (intros i Hi; apply Hpre'; exact Hi).
        rewrite Hstr', substring_app_fit by lia. do 2 f_equal. lia.
      * change (if fitsb (w1 ++ w2) l then e = errno s' else e = ERANGE).
        rewrite (fitsb_app w1 w2 l F1). exact He.
    + assert (Hm : getgrouplist_members (gr_mem g) (gr_name g) nm found list
                     (Z.of_nat p) l = Some (None, b1)).
      { rewrite getgrouplist_members_as_getgr. fold k. rewrite Hr. reflexivity. }
      eexists _, _, _. split.
      { run_step. rewrite Hg. run_step. reflexivity. }
      split; [ exact Hlen | ]. split; [ exact Hpre | ]. split.
      * rewrite Hstr. symmetry. apply substring_app_cut.
        unfold fitsb in F1. apply Z.ltb_ge in F1. lia.
      * match goal with
        | |- if fitsb ?w l then _ else _ =>
            change w with (w1 ++ w2); rewrite (fitsb_app_false w1 w2 l F1)
        end.
        reflexivity.
Qed.

(** X26.  Under the conditions of X22 and with group names that are C
    strings, [posix_getgrouplist] leaves in the list array the first 4095
    bytes of the names of the groups that list the user, in database
    order and joined by ['|'] (a group that lists the user several times
    is named that many times); the status is [errno] when the joined names
    and the terminator take fewer than 4096 bytes, and ERANGE
    otherwise. *)
Theorem getgrouplist_result fuel argc nm (list : buffer) s n :
  grent_left n (world s) →
  (n < fuel)%nat →
  length list = 4096%nat →
  Forall (λ g, no_nul (gr_name g)) (grents n (world s)) →
  ∃ e list' s',
    posix_getgrouplist fuel argc nm list s = Done (e, list') s' ∧
    cstr list' =
      substring 0 4095
        (String.concat "|" (group_names nm (grents n (world s)))) ∧
    if fitsb (String.concat "|" (group_names nm (grents n (world s)))) 4096
    then e = errno s' else e = ERANGE.
Proof.
  intros Hleft Hfuel Hlen Hnames.
  assert (R : has_room list) by (unfold has_room; lia).
  destruct (getgrouplist_loop_written nm n fuel 0 (<[0%nat := NUL]> list)
              0 4096 (with_errno 0 s) Hleft Hfuel Hnames)
    as (e & list' & s' & Hr & _ & _ & Hstr & He);
    [ lia | rewrite length_insert; lia | apply list_lookup_insert_eq; lia | ].
  cbn [world with_errno Z.eqb] in Hstr, He.
  rewrite joined_concat in Hstr, He. rewrite drop_0 in Hstr.
  exists e, list', s'. split; [ | split; [ exact Hstr | exact He ] ].
  unfold posix_getgrouplist, clear_errno. run_step. exact Hr.
Qed.

End GroupList.

(** *** Runs on the two native layers *)

Section Runs.
Import PosixC PosixAux.

Lemma host_open_reachable : @reachable host_libc host_open.
Proof.
  apply (@reachable_exec host_libc host_initial 0 2 (r_opendir "/etc" 0)
           0 (r_opendir "/etc" 8192) host_open).
  - apply reachable_initial.
  - reflexivity.
Qed.


Lemma demo_open_is_reachable : @reachable demo_libc demo_open.
Proof.
  apply (@run_reachable demo_libc 0 [(2, r_opendir "/etc" 0)] demo_initial).
  - apply reachable_initial.
  - reflexivity.
Qed.

Lemma uname_result_witness :
  ∃ o' s',
    @posix_uname host_libc 5 host_uname_out host_initial = Done (0, o') s' ∧
    cstr (o_sysname o') = "Linux" ∧ cstr (o_machine o') = "x86_64".
Proof.
  destruct (@uname_result host_libc host_uname_out host_initial host_utsname)
    as (e & o' & s' & H & He & H1 & _ & _ & _ & H5).
  - repeat split.
  - reflexivity.
  - cbn. repeat split; discriminate.
  - cbn in He. subst e. exists o', s'. auto.
Defined.

Lemma getpw_result_witness :
  ∃ o' s',
    @posix_getpwnam host_libc 8 "root" host_passwd_out host_initial
      = Done (0, o') s' ∧
    o_pw_uid o' = 0 ∧ cstr (o_pw_dir o') = "/root".
Proof.
  destruct (@getpw_result host_libc (Some "root") 0 host_passwd_out
              host_initial host_passwd)
    as (e & o' & s' & H & Hu & _ & He & _ & _ & _ & H4 & _).
  - repeat split.
  - reflexivity.
  - cbn. repeat split; discriminate.
  - cbn in He. subst e. exists o', s'. auto.
Defined.

Lemma getgr_result_witness :
  ∃ o' s',
    @posix_getgrgid host_libc 5 10 host_group_out host_initial
      = Done (0, o') s' ∧
    o_gr_gid o' = 10 ∧ cstr (o_gr_mem o') = "root|admin".
Proof.
  destruct (@getgr_result host_libc None 10 host_group_out host_initial
              (Group "wheel" "x" 10 ["root"; "admin"]))
    as (e & o' & s' & H & Hg & He & _ & _ & Hm).
  - repeat split.
  - reflexivity.
  - cbn. repeat split; try discriminate.
    repeat (constructor; [ cbn; repeat split; discriminate | ]). constructor.
  - cbn in He. subst e. exists o', s'. auto.
Defined.

Lemma readdir_result_witness :
  ∃ nm' s',
    @posix_readdir host_libc 2 8192 (replicate 256 "x"%char) host_open
      = Done (0, nm') s' ∧
    cstr nm' = "..".
Proof.
  destruct (@readdir_result host_libc 8192 (replicate 256 "x"%char) host_open)
    as (e & nm' & s' & H & _ & He & Hn).
  - exact host_open_reachable.
  - repeat constructor.
  - reflexivity.
  - cbn. repeat split; discriminate.
  - cbn in He. subst e. exists nm', s'. auto.
Defined.

Lemma readlink_result_witness :
  ∃ nm' s',
    @posix_readlink host_libc 2 "/link" (replicate 1024 "x"%char) host_initial
      = Done (0, nm') s' ∧
    cstr nm' = "/etc/passwd".
Proof.
  destruct (@readlink_result host_libc "/link" (replicate 1024 "x"%char)
              host_initial "/etc/passwd")
    as (nm' & s' & H & Hc & _).
  - reflexivity.
  - cbn. repeat split; discriminate.
  - reflexivity.
  - exists nm', s'. auto.
Defined.

Lemma strftime_terminated_witness :
  ∃ sbuf' s',
    @posix_strftime host_libc 11 "%Y" (Tm 0 0 0 1 0 126 4 0 0)
      (replicate 128 "x"%char) host_initial = Done (0, sbuf') s' ∧
    sbuf' !! 127%nat = Some NUL.
Proof.
  destruct (@strftime_terminated host_libc "%Y" (Tm 0 0 0 1 0 126 4 0 0)
              (replicate 128 "x"%char) host_initial)
    as (sbuf' & s' & H & _ & Hn & _).
  - reflexivity.
  - exists sbuf', s'. auto.
Defined.

Lemma stale_errno_ignored_witness :
  same_outcome (@exec demo_libc 0 1 (r_unlink "/none") demo_stale)
    (@exec demo_libc 0 1 (r_unlink "/none") (with_errno 0 demo_stale)).
Proof. apply stale_errno_ignored. reflexivity. Defined.


Lemma unknown_name_einval_witness :
  @posix_syslog demo_libc 2 "LOUD" "hello" demo_initial
    = Done EINVAL demo_initial.
Proof.
  apply (@unknown_name_einval demo_libc "TAI" (Timespec 0 0) "LOUD" "hello"
           demo_initial).
  - intros H. discriminate H.
  - intros H. discriminate H.
Defined.

Lemma openlog_result_witness :
  ∃ e s',
    @posix_openlog demo_libc 3 "mumps" "PID|CONS" "USER" demo_initial
      = Done e s' ∧
    calls s' = [c_malloc 6; c_openlog "mumps" 3 8].
Proof.
  destruct (@openlog_result demo_libc "mumps" "PID|CONS" "USER" demo_initial)
    as (e & s' & H & _ & Hc).
  - repeat constructor.
  - repeat constructor.
  - exists e, s'. split; [ exact H | exact Hc ].
Defined.

Lemma getgrouplist_returns_witness :
  ∃ e list' s',
    @posix_getgrouplist host_libc 3 2 "admin" (replicate 4096 "x"%char)
      host_initial = Done (e, list') s'.
Proof.
  destruct (@getgrouplist_returns host_libc 3 2 "admin"
              (replicate 4096 "x"%char) host_initial 2)
    as (e & list' & s' & k & H & _).
  - cbn. repeat split; eexists; reflexivity.
  - lia.
  - reflexivity.
  - exists e, list', s'. exact H.
Defined.

Lemma getgrouplist_result_witness :
  ∃ e list' s',
    @posix_getgrouplist host_libc 3 2 "admin" (replicate 4096 "x"%char)
      host_initial = Done (e, list') s' ∧
    cstr list' = "wheel|staff".
Proof.
  destruct (@getgrouplist_result host_libc 3 2 "admin"
              (replicate 4096 "x"%char) host_initial 2)
    as (e & list' & s' & H & Hc & _).
  - cbn. repeat split; eexists; reflexivity.
  - lia.
  - reflexivity.
  - cbn. repeat (constructor; [ cbn; repeat split; discriminate | ]).
    constructor.
  - exists e, list', s'. split; [ exact H | exact Hc ].
Defined.

Lemma null_handle_invalid_witness :
  @posix_closedir demo_libc 1 0 demo_open = Done EINVAL demo_open.
Proof.
  apply (@null_handle_invalid demo_libc demo_open (replicate 256 "x"%char)).
  - exact demo_open_is_reachable.
  - unfold has_room. cbn. lia.
Defined.

Lemma table_changed_by_open_close_only_witness :
  handles (demo_run [(2, r_opendir "/etc" 0);
                     (2, r_readdir 8192 (replicate 256 "x"%char))])
    = handles demo_open.
Proof.
  apply (@table_changed_by_open_close_only demo_libc 0 2
           (r_readdir 8192 (replicate 256 "x"%char)) demo_open
           0 (r_readdir 8192 (<[0%nat := NUL]> (replicate 256 "x"%char)))).
  - reflexivity.
  - reflexivity.
Defined.

Lemma streams_passed_are_open_witness :
  ∃ new,
    calls (demo_run [(2, r_opendir "/etc" 0); (1, r_closedir 8192)])
      = (calls demo_open ++ new)%list ∧
    ∀ c d, c ∈ new → stream_of c = Some d → d ∈ handles demo_open ∧ d ≠ 0.
Proof.
  apply (@streams_passed_are_open demo_libc 0 1 (r_closedir 8192) demo_open
           0 (r_closedir 8192)).
  - exact demo_open_is_reachable.
  - reflexivity.
Defined.

End Runs.
